(** * neutrino-feegrant: the block-paced batching broadcaster of [server.ts]

    A shallow embedding of the fee-grant faucet server: the queue of enqueued
    messages, the batch built on every block tick, the retry loop around
    signing and broadcasting, the cooldown counter, and the HTTP claim
    procedure with its two routes.

    Conventions.  A [Uint8Array] is a list of bytes, a [bigint] is a [Z], a JS
    [Set<string>] is a [gset string], a JS array is a list.  A deferred promise
    is identified by the number handed out by [defer]; calling its resolver is
    recorded in the server state.  Calls into the chain libraries (signing,
    broadcasting, account lookup, allowance query, bech32) are answered by an
    explicit gateway value, so every definition below computes. *)

From Stdlib Require Import ZArith NArith Ascii String List Lia.
From Stdlib.Strings Require Import Byte.
From stdpp Require Import base decidable option list gmap sets strings pretty.

Local Open Scope Z_scope.
Local Open Scope string_scope.
Local Open Scope list_scope.

(** ** Bytes and their base64 text *)

Definition bytes := list byte.

#[global] Instance byte_eq_decision : EqDecision byte := Byte.byte_eq_dec.

Module Base64.

(** The standard alphabet used by [bytes_to_base64] (the library encodes
    through [btoa]). *)
Definition SX_CHARS : string :=
  "ABCDEFGHIJKLMNOPQRSTUVWXYZabcdefghijklmnopqrstuvwxyz0123456789+/".

Definition sextet_char (n : N) : ascii :=
  match String.get (N.to_nat n) SX_CHARS with
  | Some c => c
  | None => "="%char
  end.

Definition pad : ascii := "="%char.

(** Three bytes give four characters; a tail of one or two bytes is padded. *)
Fixpoint bytes_to_base64 (atu8 : bytes) : string :=
  match atu8 with
  | [] => ""
  | [a] =>
      let n := Byte.to_N a in
      String (sextet_char (n / 4))
        (String (sextet_char ((n mod 4) * 16))
           (String pad (String pad "")))
  | [a; b] =>
      let n := Byte.to_N a in
      let m := Byte.to_N b in
      String (sextet_char (n / 4))
        (String (sextet_char ((n mod 4) * 16 + m / 16))
           (String (sextet_char ((m mod 16) * 4))
              (String pad "")))
  | a :: b :: c :: rest =>
      let n := Byte.to_N a in
      let m := Byte.to_N b in
      let o := Byte.to_N c in
      String (sextet_char (n / 4))
        (String (sextet_char ((n mod 4) * 16 + m / 16))
           (String (sextet_char ((m mod 16) * 4 + o / 64))
              (String (sextet_char (o mod 64))
                 (bytes_to_base64 rest))))
  end%N.

(** The position of a character in the alphabet (used to show that the
    encoding loses nothing). *)
Fixpoint index_in (c : ascii) (s : string) (k : N) : option N :=
  match s with
  | EmptyString => None
  | String d rest => if Ascii.eqb c d then Some k else index_in c rest (N.succ k)
  end.

Definition sextet_index (c : ascii) : option N := index_in c SX_CHARS 0%N.

End Base64.

(** [safe_bytes_to_base64(atu8_msg) || ''] : the fallback only replaces an
    undefined or empty result, and the empty array already encodes to the
    empty string. *)
Definition safe_bytes_to_base64 (atu8 : bytes) : string :=
  Base64.bytes_to_base64 atu8.

(** ** Transaction results and deferred promises *)

Definition Error := string.

(** [g_meta] of a broadcast result: every field may be missing. *)
Record TxMeta := {
  codespace : option string;
  code : option Z;
  log : option string;
}.

(** [TxResultTuple]: [[xc_code, sx_res, g_meta, atu8_result, h_events]]. *)
Record TxResultTuple := {
  xc_code : Z;
  sx_res : string;
  g_meta : option TxMeta;
  atu8_result : bytes;
  h_events : list (string * list string);
}.

(** What a resolver [fke_granted] was called with: [fke(results)] or
    [fke(undefined, error)]. *)
Inductive Settlement :=
| Resolved (a_results : TxResultTuple)
| Rejected (e_process : Error).

(** ** The queue *)

(** [Enqueued]: [[atu8_msg, xg_limit, fke_granted, sa_grantee]].  The resolver
    is named by the number of its deferred promise; every tuple holds its own
    resolver, so equality of tuples stands for identity of the JS arrays. *)
Record Enqueued := {
  atu8_msg : bytes;
  xg_limit : Z;
  fke_granted : nat;
  sa_grantee : string;
}.

#[global] Instance Enqueued_eq_decision : EqDecision Enqueued.
Proof. solve_decision. Defined.

(** [remove(a_items, w_item)] of the belt library: splice out the first
    occurrence ([indexOf] then [splice(i, 1)]), in place. *)
Fixpoint remove (a_items : list Enqueued) (w_item : Enqueued) : list Enqueued :=
  match a_items with
  | [] => []
  | x :: rest => if decide (x = w_item) then rest else x :: remove rest w_item
  end.

(** ** Batch builder: the [reduce] over [a_dequeued] *)

(** Everything the reduce callback reads and writes: the array being reduced
    (it is mutated by [remove] while the reduction runs), the two sets, the
    accumulator and the postponed list. *)
Record Reduction := {
  r_dequeued : list Enqueued;
  as_grantees : gset string;
  as_msgs : gset string;
  a_out : list bytes;
  a_postponed : list Enqueued;
}.

Definition reduction_start (a_dequeued : list Enqueued) : Reduction :=
  {| r_dequeued := a_dequeued; as_grantees := ∅; as_msgs := ∅;
     a_out := []; a_postponed := [] |}.

(** The callback of [a_dequeued.reduce]. *)
Definition reduce_callback (a_queued : Enqueued) (s : Reduction) : Reduction :=
  let sb64_msg := safe_bytes_to_base64 (atu8_msg a_queued) in
  if decide (sb64_msg ∈ as_msgs s) then
    (* duplicate *)
    s
  else if decide (sa_grantee a_queued ∈ as_grantees s) then
    (* grantee already subject: remove from dequeued, postpone *)
    {| r_dequeued := remove (r_dequeued s) a_queued;
       as_grantees := as_grantees s;
       as_msgs := as_msgs s ∪ {[ sb64_msg ]};
       a_out := a_out s;
       a_postponed := a_postponed s ++ [a_queued] |}
  else
    (* good to go *)
    {| r_dequeued := r_dequeued s;
       as_grantees := as_grantees s ∪ {[ sa_grantee a_queued ]};
       as_msgs := as_msgs s ∪ {[ sb64_msg ]};
       a_out := a_out s ++ [atu8_msg a_queued];
       a_postponed := a_postponed s |}.

(** [Array.prototype.reduce] with an initial value: the length is read once,
    then for [k = 0 .. len-1] the callback runs on the element found at index
    [k] of the array as it is at that moment; an index that no longer exists
    is passed over.  [n] counts the indices still to go. *)
Fixpoint array_reduce (n : nat) (k : nat) (s : Reduction) : Reduction :=
  match n with
  | O => s
  | S n' =>
      match r_dequeued s !! k with
      | Some a_queued => array_reduce n' (S k) (reduce_callback a_queued s)
      | None => array_reduce n' (S k) s
      end
  end.

Definition build_batch (a_dequeued : list Enqueued) : Reduction :=
  array_reduce (length a_dequeued) 0 (reduction_start a_dequeued).

(** [a_dequeued.reduce((xg_sum, [, xg]) => xg_sum + xg, 0n)] *)
Definition sum_limits (a_dequeued : list Enqueued) : Z :=
  fold_left (fun xg_sum q => xg_sum + xg_limit q) a_dequeued 0.

(** *** The callback's verdicts

    A record of the reduction for the proofs: which requests the callback
    ran on, and which branch it took for each. *)

Inductive Verdict :=
| Accepted      (* payload pushed to the batch *)
| Postponed     (* removed from the dequeued list, pushed to a_postponed *)
| Duplicate.    (* payload already seen: nothing done *)

#[global] Instance Verdict_eq_decision : EqDecision Verdict.
Proof. solve_decision. Defined.

Definition verdict (a_queued : Enqueued) (s : Reduction) : Verdict :=
  if decide (safe_bytes_to_base64 (atu8_msg a_queued) ∈ as_msgs s) then Duplicate
  else if decide (sa_grantee a_queued ∈ as_grantees s) then Postponed
  else Accepted.

(** The calls of the callback made by [array_reduce n k s], in order. *)
Fixpoint visits (n : nat) (k : nat) (s : Reduction) : list (Enqueued * Verdict) :=
  match n with
  | O => []
  | S n' =>
      match r_dequeued s !! k with
      | Some a_queued =>
          (a_queued, verdict a_queued s) :: visits n' (S k) (reduce_callback a_queued s)
      | None => visits n' (S k) s
      end
  end.

Definition with_verdict (v : Verdict) (vs : list (Enqueued * Verdict)) : list Enqueued :=
  map fst (filter (fun p => p.2 = v) vs).

(** The requests whose payloads were placed into the batch. *)
Definition batch_requests (a_dequeued : list Enqueued) : list Enqueued :=
  with_verdict Accepted (visits (length a_dequeued) 0 (reduction_start a_dequeued)).

(** ** The pattern [/expected (\d+)/] *)

Module Regex.

Definition is_digit (c : ascii) : bool :=
  let n := N_of_ascii c in ((48 <=? n) && (n <=? 57))%N.

(** The longest run of digits at the head of [s] (the greedy [\d+]). *)
Fixpoint digits_at (s : string) : string :=
  match s with
  | String c rest => if is_digit c then String c (digits_at rest) else ""
  | EmptyString => ""
  end.

(** What is left of [s] after the literal [lit], when [s] starts with it. *)
Fixpoint after_literal (lit s : string) : option string :=
  match lit, s with
  | EmptyString, _ => Some s
  | String a lit', String b s' =>
      if Ascii.eqb a b then after_literal lit' s' else None
  | String _ _, EmptyString => None
  end.

(** A match that starts at the first character of [s]: its capture group. *)
Definition match_here (s : string) : option string :=
  match after_literal "expected " s with
  | Some rest =>
      match digits_at rest with
      | EmptyString => None
      | d => Some d
      end
  | None => None
  end.

(** [/expected (\d+)/.exec(s)], reduced to group 1 of the leftmost match. *)
Fixpoint exec_expected (s : string) : option string :=
  match match_here s with
  | Some d => Some d
  | None =>
      match s with
      | String _ rest => exec_expected rest
      | EmptyString => None
      end
  end.

End Regex.

(** ** The chain gateway *)

(** The result of awaiting a library call: its value, or the error it threw. *)
Inductive Awaited (A : Type) :=
| Fulfilled (v : A)
| Threw (e : Error).
Arguments Fulfilled {A} v.
Arguments Threw {A} e.

(** [SlimAuthInfo]: [[account_number, sequence]]; [0] (automatic) is [None]. *)
Definition SlimAuthInfo := (string * string)%type.

(** The arguments of one [create_and_sign_tx_direct] call that vary between
    calls: the messages, the gas limit [`${xg_limit}`] (the fees are
    [exec_fees] of the same limit) and the auth override.  The wallet and the
    memo are fixed for the server. *)
Record SignCall := {
  sc_msgs : list bytes;
  sc_limit : Z;
  sc_auth : option SlimAuthInfo;
}.

(** [[atu8_raw, atu8_signdoc, si_txn]] as far as it is passed on. *)
Record SignedTx := {
  atu8_raw : bytes;
  si_txn : string;
}.

(** The answers of the chain during one run of [check_queue]; the first
    argument is [i_retry], the iteration that makes the call. *)
Record Gateway := {
  create_and_sign_tx_direct : nat -> SignCall -> Awaited SignedTx;
  broadcast_result : nat -> SignedTx -> Awaited TxResultTuple;
  auth : nat -> Awaited SlimAuthInfo;
}.

(** ** The retry loop [RETRY_TRANSACTION] *)

(** The tests between [if(xc_code)] and [continue RETRY_TRANSACTION]: the
    sequence to retry with, when the loop is to go round again. *)
Definition mismatched_sequence (i_retry : nat) (a_results : TxResultTuple)
  : option string :=
  if decide (xc_code a_results = 0) then None
  else
    match g_meta a_results with
    | None => None
    | Some m =>
        if decide (codespace m = Some "sdk") then
          if decide (code m = Some 32) then
            if decide (i_retry < 2)%nat then
              Regex.exec_expected (default "" (log m))
            else None
          else None
        else None
    end.

(** The condition for a retry in the words of the specification: a non-zero
    code, codespace "sdk", code 32, a log in which [expected <digits>] is
    found, and fewer than two retries made. *)
Definition retryable (i_retry : nat) (a_results : TxResultTuple) (sequence : string) : Prop :=
  xc_code a_results <> 0 /\
  exists m, g_meta a_results = Some m
    /\ codespace m = Some "sdk"
    /\ code m = Some 32
    /\ Regex.exec_expected (default "" (log m)) = Some sequence
    /\ (i_retry < 2)%nat.

(** A broadcast outcome that reports the account-sequence error. *)
Definition is_code_32 (a_results : TxResultTuple) : Prop :=
  xc_code a_results <> 0 /\
  exists m, g_meta a_results = Some m /\ codespace m = Some "sdk" /\ code m = Some 32.

(** How the loop was left: through [break], or through [return] in [catch]. *)
Inductive LoopExit :=
| Broke (a_results : TxResultTuple)
| Caught (e_process : Error).

(** The variables of [check_queue] the loop works on: the drained copy, the
    live queue, and the calls made to the signer so far. *)
Record Tick := {
  t_dequeued : list Enqueued;
  t_enqueued : list Enqueued;
  t_signed : list SignCall;
}.

(** One iteration up to the call of the signer: the batch is built from the
    dequeued list (which the build may shorten), the limits of what is left
    on the list are summed, and the signer is called with the batch, the sum
    and the auth in force. *)
Definition sign_call (z_auth : option SlimAuthInfo) (t : Tick) : SignCall :=
  let b := build_batch (t_dequeued t) in
  {| sc_msgs := a_out b; sc_limit := sum_limits (r_dequeued b); sc_auth := z_auth |}.

(** The loop variables after the build and the call; the postponed list of
    the iteration is a local of the loop body and is not part of them. *)
Definition attempted (z_auth : option SlimAuthInfo) (t : Tick) : Tick :=
  {| t_dequeued := r_dequeued (build_batch (t_dequeued t));
     t_enqueued := t_enqueued t;
     t_signed := t_signed t ++ [sign_call z_auth t] |}.

(** The same after [a_enqueued.push(...a_postponed)]. *)
Definition unpostponed (z_auth : option SlimAuthInfo) (t : Tick) : Tick :=
  {| t_dequeued := r_dequeued (build_batch (t_dequeued t));
     t_enqueued := t_enqueued t ++ a_postponed (build_batch (t_dequeued t));
     t_signed := t_signed t ++ [sign_call z_auth t] |}.

(** [for(let i_retry=0; ; i_retry++)]: the source loop has no bound of its
    own, so the embedding takes fuel and answers [None] when it runs out. *)
Fixpoint retry_transaction (gw : Gateway) (fuel : nat) (i_retry : nat)
    (z_auth : option SlimAuthInfo) (t : Tick) : option (LoopExit * Tick) :=
  match fuel with
  | O => None
  | S fuel' =>
      match create_and_sign_tx_direct gw i_retry (sign_call z_auth t) with
      | Threw e => Some (Caught e, attempted z_auth t)
      | Fulfilled tx =>
          match broadcast_result gw i_retry tx with
          | Threw e => Some (Caught e, attempted z_auth t)
          | Fulfilled a_results =>
              match mismatched_sequence i_retry a_results with
              | Some sequence =>
                  (* fetch auth, set auth, retry *)
                  match auth gw i_retry with
                  | Threw e => Some (Caught e, attempted z_auth t)
                  | Fulfilled a_auth =>
                      retry_transaction gw fuel' (S i_retry)
                        (Some (a_auth.1, sequence)) (attempted z_auth t)
                  end
              | None =>
                  (* un-postpone, then break *)
                  Some (Broke a_results, unpostponed z_auth t)
              end
          end
      end
  end.

(** ** The server state and [check_queue] *)

Record Server := {
  a_enqueued : list Enqueued;       (* the queue *)
  c_clearing : Z;                   (* blocks still to skip *)
  c_deferred : nat;                 (* deferred promises created so far *)
  settled : list (nat * Settlement);(* resolver calls, oldest first *)
  a_signed : list SignCall;         (* transactions handed to the signer *)
}.

Definition server_start : Server :=
  {| a_enqueued := []; c_clearing := 0; c_deferred := 0;
     settled := []; a_signed := [] |}.

(** The loop variables when [check_queue] enters the loop: the queue has
    been copied to the dequeued list and emptied. *)
Definition drained (s : Server) : Tick :=
  {| t_dequeued := a_enqueued s; t_enqueued := []; t_signed := a_signed s |}.

(** [for(const [,, fke_granted] of a_dequeued) fke_granted(...)] *)
Definition settle_all (a_dequeued : list Enqueued) (w : Settlement)
  : list (nat * Settlement) :=
  map (fun q => (fke_granted q, w)) a_dequeued.

(** [check_queue]: one block tick, run to its end.  An [enqueue] that arrives
    while the tick awaits the chain pushes onto the emptied queue and is seen
    by the next tick; here it is an event after the tick. *)
Definition check_queue (fuel : nat) (gw : Gateway) (s : Server) : option Server :=
  if decide (c_clearing s > 0) then
    (* clearing: decrement counter and exit *)
    Some {| a_enqueued := a_enqueued s;
            c_clearing := c_clearing s - 1;
            c_deferred := c_deferred s;
            settled := settled s;
            a_signed := a_signed s |}
  else
    match a_enqueued s with
    | [] => Some s
    | _ :: _ =>
        (* a_dequeued = a_enqueued.slice(); a_enqueued.length = 0 *)
        match retry_transaction gw fuel 0 None (drained s) with
        | None => None
        | Some (Caught e_process, t) =>
            (* forward error to each callback, exit *)
            Some {| a_enqueued := t_enqueued t;
                    c_clearing := c_clearing s;
                    c_deferred := c_deferred s;
                    settled := settled s ++ settle_all (t_dequeued t) (Rejected e_process);
                    a_signed := t_signed t |}
        | Some (Broke a_results, t) =>
            (* resolve each dequeued message, then wait for next block *)
            Some {| a_enqueued := t_enqueued t;
                    c_clearing := 1;
                    c_deferred := c_deferred s;
                    settled := settled s ++ settle_all (t_dequeued t) (Resolved a_results);
                    a_signed := t_signed t |}
        end
    end.

(** [enqueue(atu8_msg, xg_limit, sa_grantee)]: create a deferred promise, push
    the tuple, hand back the promise. *)
Definition enqueue (msg : bytes) (limit : Z) (grantee : string) (s : Server)
  : nat * Server :=
  let dp_granted := c_deferred s in
  (dp_granted,
   {| a_enqueued := a_enqueued s ++
        [{| atu8_msg := msg; xg_limit := limit;
            fke_granted := dp_granted; sa_grantee := grantee |}];
      c_clearing := c_clearing s;
      c_deferred := S (c_deferred s);
      settled := settled s;
      a_signed := a_signed s |}).

(** The loop never needs more than three rounds (see [retry_transaction_total]). *)
Definition RETRY_ROUNDS : nat := 3.

(** What happens to the server: a handler enqueues, or a block arrives and
    the chain answers as the gateway says.  Every tick is run to its end
    before the next event. *)
Inductive Event :=
| EvEnqueue (msg : bytes) (limit : Z) (grantee : string)
| EvBlock (gw : Gateway).

Definition step (ev : Event) (s : Server) : Server :=
  match ev with
  | EvEnqueue msg limit grantee => (enqueue msg limit grantee s).2
  | EvBlock gw => default s (check_queue RETRY_ROUNDS gw s)
  end.

Definition run (evs : list Event) (s : Server) : Server :=
  fold_left (fun s ev => step ev s) evs s.

(** The settlements a deferred promise has received. *)
Definition settlements_of (dp : nat) (s : Server) : list Settlement :=
  map snd (filter (fun p => p.1 = dp) (settled s)).

(** ** The HTTP front end: [claim] and its two routes *)

Module Http.

(** The allowance as the LCD query returns it. *)
Record Coin := {
  denom : string;
  amount : string;
}.

Record Allowance := {
  at_type : option string;              (* '@type' *)
  spend_limit : option (list Coin);
  expiration : option string;
}.

(** [g_res_allowance.allowance]: the grant, whose own [allowance] field
    holds the allowance proper. *)
Record Grant := {
  granter : string;
  grantee : string;
  allowance : option Allowance;
}.

Definition SI_MESSAGE_TYPE_COSMOS_FEEGRANT_BASIC_ALLOWANCE : string :=
  "/cosmos.feegrant.v1beta1.BasicAllowance".

Definition XG_LIMIT_GRANT : Z := 15000.
Definition XG_LIMIT_REVOKE : Z := 15000.

(** Configuration and library calls [claim] depends on. *)
Record Env := {
  XG_ALLOWANCE : Z;
  k_wallet_addr : string;
  (* bech32_decode(sa): the payload, or the error thrown *)
  bech32_decode : string -> Awaited bytes;
  (* queryCosmosFeegrantAllowance(lcd, granter, grantee), third component;
     [None] when the response or its [allowance] is missing *)
  queryCosmosFeegrantAllowance : string -> string -> Awaited (option Grant);
  (* new Date(s).getTime(); [None] is NaN *)
  Date_getTime : option string -> option Z;
  (* Date.now() when the remaining time is computed, and when the grant
     message is built *)
  Date_now_check : Z;
  Date_now_grant : Z;
  (* encodeGoogleProtobufAny(type, encodeCosmosFeegrantMsg...(...)) *)
  encode_revoke : string -> string -> bytes;
  encode_grant : string -> string -> list (string * string) -> Z -> bytes;
}.

(** The reply body. *)
Inductive Body :=
| BodyError (error : string)                      (* {error} *)
| BodyGranted (meta : option TxMeta)
    (events : list (string * list string))         (* {meta, events} *)
| BodyChain (sx_res : string).                     (* parse_json_safe(sx_res) || sx_res *)

(** What an async handler does: reply, throw, or enqueue a message and go
    on with the result its promise resolves with (a rejected promise makes
    the [await] throw). *)
Inductive Handler :=
| Send (status : Z) (body : Body)
| Raise (e : Error)
| AwaitEnqueue (msg : bytes) (limit : Z) (grantee : string)
    (k : TxResultTuple -> Handler).

Record FastifyRequest := {
  method : string;
  url : string;
  query_json : string;                  (* stringify_json(d_req.query) *)
  body_json : string;                   (* stringify_json(d_req.body) *)
  params_address : string;              (* d_req.params.address *)
  body : option (option string);        (* d_req.body, and its address field *)
}.

(** A handled request: the line logged, the headers set, and the handler. *)
Record Handled := {
  logged : string;
  headers : list (string * string);
  handler : Handler;
}.

(** The [try] block that verifies the address: the validated address, or
    [None] when anything in the block threw. *)
Definition verify_address (env : Env) (sa_grantee : option string)
  : option string :=
  match sa_grantee with
  | None => None                         (* undefined.startsWith throws *)
  | Some sa =>
      if String.prefix "secret1" sa then
        match bech32_decode env sa with
        | Fulfilled atu8_data =>
            if decide (length atu8_data = 20%nat) then Some sa else None
        | Threw _ => None
        end
      else None
  end.

(** [a_limits?.[0]?.amount === `${XG_ALLOWANCE}`] *)
Definition amount_is_full (env : Env) (a_limits : option (list Coin)) : bool :=
  match a_limits with
  | Some (c :: _) => bool_decide (amount c = pretty (XG_ALLOWANCE env))
  | _ => false
  end.

(** [xt_remaining > 36e5], false when the expiration does not parse. *)
Definition more_than_an_hour_left (env : Env) (s_expiration : option string) : bool :=
  match Date_getTime env s_expiration with
  | Some xt_expiration => bool_decide (xt_expiration - Date_now_check env > 3600000)
  | None => false
  end.

(** The last part of [claim]: enqueue the grant and shape the reply. *)
Definition grant_step (env : Env) (sa : string) : Handler :=
  AwaitEnqueue
    (encode_grant env (k_wallet_addr env) sa [("500000", "uscrt")]
       (Date_now_grant env + 24 * 3600000))
    XG_LIMIT_GRANT sa
    (fun r =>
       if decide (xc_code r = 0) then Send 200 (BodyGranted (g_meta r) (h_events r))
       else Send 550 (BodyChain (sx_res r))).

Definition claim_handler (env : Env) (sa_grantee : option string) : Handler :=
  match verify_address env sa_grantee with
  | None => Send 400 (BodyError "Invalid bech32 address")
  | Some sa =>
      match queryCosmosFeegrantAllowance env (k_wallet_addr env) sa with
      | Threw e => Raise e
      | Fulfilled None => grant_step env sa
      | Fulfilled (Some g_grant) =>
          match allowance g_grant with
          | None => Send 500 (BodyError "Discovered non-basic allowance")
          | Some g_allowance =>
              if decide (at_type g_allowance
                         = Some SI_MESSAGE_TYPE_COSMOS_FEEGRANT_BASIC_ALLOWANCE) then
                if amount_is_full env (spend_limit g_allowance)
                   && more_than_an_hour_left env (expiration g_allowance) then
                  Send 400 (BodyError "Existing feegrant is full and hasn't expired yet")
                else
                  (* revoke previous allowance, then grant *)
                  AwaitEnqueue
                    (encode_revoke env (k_wallet_addr env) sa)
                    XG_LIMIT_REVOKE sa
                    (fun r =>
                       if decide (xc_code r = 0) then grant_step env sa
                       else Send 425 (BodyError
                              ("Failed to revoke existing feegrant; reason: " ++ sx_res r)))
              else Send 500 (BodyError "Discovered non-basic allowance")
          end
      end
  end.

Definition CORS_HEADERS : list (string * string) :=
  [("access-control-allow-origin", "*"); ("access-control-allow-methods", "GET")].

(** [claim(d_req, d_res, sa_grantee)] *)
Definition claim (env : Env) (d_req : FastifyRequest) (sa_grantee : option string)
  : Handled :=
  {| logged := method d_req ++ " " ++ url d_req ++ " " ++ query_json d_req
               ++ " " ++ body_json d_req;
     headers := CORS_HEADERS;
     handler := claim_handler env sa_grantee |}.

(** The handler of [y_fastify.get('/claim/:address')], run once the router
    has matched the path and set [d_req.params.address]. *)
Definition get_claim (env : Env) (d_req : FastifyRequest) : Handled :=
  claim env d_req (Some (params_address d_req)).

(** [y_fastify.post('/claim')]: destructuring a missing body throws before
    [claim] is reached. *)
Definition post_claim (env : Env) (d_req : FastifyRequest) : Handled :=
  match body d_req with
  | Some address => claim env d_req address
  | None => {| logged := ""; headers := [];
               handler := Raise "TypeError: cannot destructure d_req.body" |}
  end.

(** *** Running a handler against the server *)

(** A handler in flight: done, crashed, or waiting on a promise. *)
Inductive InFlight :=
| Replied (status : Z) (body : Body)
| Crashed (e : Error)
| Waiting (dp_granted : nat) (k : TxResultTuple -> Handler).

(** Run a handler up to its reply or its next [await]. *)
Definition launch (h : Handler) (s : Server) : InFlight * Server :=
  match h with
  | Send status b => (Replied status b, s)
  | Raise e => (Crashed e, s)
  | AwaitEnqueue msg limit sa k =>
      let '(dp, s') := enqueue msg limit sa s in (Waiting dp k, s')
  end.

(** Continue a waiting handler once its promise has been settled. *)
Definition resume (f : InFlight) (s : Server) : InFlight * Server :=
  match f with
  | Waiting dp k =>
      match settlements_of dp s with
      | Resolved r :: _ => launch (k r) s
      | Rejected e :: _ => (Crashed e, s)
      | [] => (f, s)
      end
  | _ => (f, s)
  end.

End Http.

(** ** Sample runs

    Concrete requests, chain answers and HTTP environments, used to run the
    definitions above. *)

Module Scenario.

Definition payload (s : string) : bytes := list_byte_of_string s.

Definition request (dp : nat) (grantee p : string) : Enqueued :=
  {| atu8_msg := payload p; xg_limit := 15000;
     fke_granted := dp; sa_grantee := grantee |}.

(** A successful outcome. *)
Definition SUCCESS : TxResultTuple :=
  {| xc_code := 0; sx_res := "{}"; g_meta := None;
     atu8_result := []; h_events := [("message.action", ["grant"])] |}.

(** The account-sequence error, with the sequence the chain expected. *)
Definition mismatch (sequence : string) : TxResultTuple :=
  {| xc_code := 32;
     sx_res := "account sequence mismatch";
     g_meta := Some {| codespace := Some "sdk"; code := Some 32;
                       log := Some ("account sequence mismatch, expected "
                                    ++ sequence ++ ", got 41")%string |};
     atu8_result := []; h_events := [] |}.

Definition signed : SignedTx := {| atu8_raw := payload "raw"; si_txn := "TX" |}.

(** Everything works. *)
Definition gw_ok : Gateway :=
  {| create_and_sign_tx_direct := fun _ _ => Fulfilled signed;
     broadcast_result := fun _ _ => Fulfilled SUCCESS;
     auth := fun _ => Fulfilled ("7", "41") |}.

(** The signer throws. *)
Definition gw_down : Gateway :=
  {| create_and_sign_tx_direct := fun _ _ => Threw "fetch failed";
     broadcast_result := fun _ _ => Fulfilled SUCCESS;
     auth := fun _ => Fulfilled ("7", "41") |}.

(** The first broadcast reports a sequence mismatch, the second succeeds. *)
Definition gw_retry_once : Gateway :=
  {| create_and_sign_tx_direct := fun _ _ => Fulfilled signed;
     broadcast_result := fun i _ =>
       match i with O => Fulfilled (mismatch "42") | _ => Fulfilled SUCCESS end;
     auth := fun _ => Fulfilled ("7", "41") |}.


(** A server with the given requests enqueued, in order. *)
Definition enqueue_all (l : list (string * string)) : list Event :=
  map (fun gp => EvEnqueue (payload gp.2) 15000 gp.1) l.

Definition queued (l : list (string * string)) : Server :=
  run (enqueue_all l) server_start.

(** An HTTP environment: every address decodes to the given payload, the
    LCD answers with the given grant. *)
Definition env_with (decoded : Awaited bytes) (found : option Http.Grant) : Http.Env :=
  {| Http.XG_ALLOWANCE := 500000;
     Http.k_wallet_addr := "secret1granter";
     Http.bech32_decode := fun _ => decoded;
     Http.queryCosmosFeegrantAllowance := fun _ _ => Fulfilled found;
     Http.Date_getTime := fun s =>
       match s with Some "2024-01-01T02:00:00Z" => Some 1704074400000 | _ => None end;
     Http.Date_now_check := 1704067200000;     (* 2024-01-01T00:00:00Z *)
     Http.Date_now_grant := 1704067200000;
     Http.encode_revoke := fun g a => payload ("revoke:" ++ g ++ ":" ++ a)%string;
     Http.encode_grant := fun g a _ t => payload ("grant:" ++ g ++ ":" ++ a ++ ":" ++ pretty t)%string |}.

Definition twenty_bytes : bytes := repeat "000"%byte 20.

(** A full basic allowance that expires two hours after [Date_now_check]. *)
Definition full_grant : Http.Grant :=
  {| Http.granter := "secret1granter"; Http.grantee := "secret1user";
     Http.allowance := Some
       {| Http.at_type := Some Http.SI_MESSAGE_TYPE_COSMOS_FEEGRANT_BASIC_ALLOWANCE;
          Http.spend_limit := Some [{| Http.denom := "uscrt"; Http.amount := "500000" |}];
          Http.expiration := Some "2024-01-01T02:00:00Z" |} |}.

Definition get_request (sa : string) : Http.FastifyRequest :=
  {| Http.method := "GET"; Http.url := ("/claim/" ++ sa)%string;
     Http.query_json := "{}"; Http.body_json := "";
     Http.params_address := sa; Http.body := None |}.


End Scenario.

(** * More of the server

    Definitions for the parts of [server.ts] around the queue: what a claim
    can do over its whole life, the reduction told on lists, the retry
    condition told in words, the router in front of the GET handler, the
    timers that pace the queue, ticks that overlap, and the block handler of
    the earlier revision. *)

(** ** The life of a handler *)

Module HttpRuns.

(** One enqueue made by a handler: message, gas limit, grantee. *)
Definition EnqueueCall := (bytes * Z * string)%type.

(** [Ends h calls status body]: fed with some outcomes for the promises it
    awaits, the handler [h] makes the enqueue calls [calls], in this order,
    and then replies with [status] and [body]. *)
Inductive Ends : Http.Handler -> list EnqueueCall -> Z -> Http.Body -> Prop :=
| ends_send (status : Z) (b : Http.Body) :
    Ends (Http.Send status b) [] status b
| ends_await (msg : bytes) (limit : Z) (sa : string)
    (k : TxResultTuple -> Http.Handler) (r : TxResultTuple)
    (calls : list EnqueueCall) (status : Z) (b : Http.Body) :
    Ends (k r) calls status b ->
    Ends (Http.AwaitEnqueue msg limit sa k) ((msg, limit, sa) :: calls) status b.

End HttpRuns.

(** ** The reduction, told on lists

    A second telling of [a_dequeued.reduce(...)], by recursion on what is
    still to come of the array, to be compared with [array_reduce] (which
    follows the indices): a request with a seen payload is kept; a request
    with a new payload and a claimed grantee is postponed, and the request
    that follows it then slides into the index just visited and is kept
    without being looked at; any other request is kept and its payload goes
    out.  The result is what is kept, the batch, and what is postponed. *)
Fixpoint walk (a_rest : list Enqueued) (grantees msgs : gset string)
  : list Enqueued * list bytes * list Enqueued :=
  match a_rest with
  | [] => ([], [], [])
  | q :: rest =>
      let sb64_msg := safe_bytes_to_base64 (atu8_msg q) in
      if decide (sb64_msg ∈ msgs) then
        let '(kept, out, post) := walk rest grantees msgs in
        (q :: kept, out, post)
      else if decide (sa_grantee q ∈ grantees) then
        match rest with
        | [] => ([], [], [q])
        | q2 :: rest2 =>
            let '(kept, out, post) := walk rest2 grantees (msgs ∪ {[ sb64_msg ]}) in
            (q2 :: kept, out, q :: post)
        end
      else
        let '(kept, out, post) :=
          walk rest (grantees ∪ {[ sa_grantee q ]}) (msgs ∪ {[ sb64_msg ]}) in
        (q :: kept, atu8_msg q :: out, post)
  end.

(** ** What holds of a running server *)

(** The promises the server knows of: those whose resolver waits in the
    queue, followed by those a resolver was called for. *)
Definition known_promises (s : Server) : list nat :=
  map fke_granted (a_enqueued s) ++ map fst (settled s).

(** No promise is known twice, and every known promise was created. *)
Definition promises_in_order (s : Server) : Prop :=
  NoDup (known_promises s)
  /\ forall dp, dp ∈ known_promises s -> (dp < c_deferred s)%nat.

(** A transaction worth signing: at least one message, none twice. *)
Definition well_formed_call (c : SignCall) : Prop :=
  sc_msgs c <> [] /\ NoDup (sc_msgs c).

(** ** Digits *)

Fixpoint all_digits (s : string) : bool :=
  match s with
  | EmptyString => true
  | String c rest => Regex.is_digit c && all_digits rest
  end.

Definition starts_with_digit (s : string) : bool :=
  match s with
  | String c _ => Regex.is_digit c
  | EmptyString => false
  end.

(** The log of the account-sequence error as the chain words it. *)
Definition sequence_mismatch_log (expected got : N) : string :=
  "account sequence mismatch, expected " +:+ pretty expected
  +:+ ", got " +:+ pretty got +:+ ": incorrect account sequence".

(** ** The retry condition in words

    What [/expected (\d+)/] finds, told without the matcher. *)

Definition decimal_digit (c : ascii) : Prop :=
  c ∈ ["0"; "1"; "2"; "3"; "4"; "5"; "6"; "7"; "8"; "9"]%char.

(** [d] is a run of decimal digits, not empty and with no digit behind it,
    that stands in [log] right behind the word "expected" and one blank, at
    the first place of [log] where that word, a blank and a digit follow one
    another. *)
Definition expected_digits (log d : string) : Prop :=
  exists pre post,
    log = pre +:+ "expected " +:+ d +:+ post
    /\ d <> ""
    /\ (forall c, c ∈ list_ascii_of_string d -> decimal_digit c)
    /\ (forall c rest, post = String c rest -> ~ decimal_digit c)
    /\ (forall pre' c rest,
          log = pre' +:+ "expected " +:+ String c rest -> decimal_digit c ->
          (String.length pre <= String.length pre')%nat).

(** An outcome that reports the account-sequence error and names the
    sequence the chain expected: a non-zero code, codespace "sdk", code 32,
    and [expected <digits>] in the log (a missing log counts as empty). *)
Definition names_expected_sequence (a_results : TxResultTuple) (sequence : string)
  : Prop :=
  xc_code a_results <> 0
  /\ exists m, g_meta a_results = Some m
       /\ codespace m = Some "sdk" /\ code m = Some 32
       /\ expected_digits (default "" (log m)) sequence.

(** ** More sample values *)

Module Samples.

(** As [Scenario.env_with], with the clock set. *)
Definition env_at (now : Z) (found : option Http.Grant) : Http.Env :=
  {| Http.XG_ALLOWANCE := 500000;
     Http.k_wallet_addr := "secret1granter";
     Http.bech32_decode := fun _ => Fulfilled Scenario.twenty_bytes;
     Http.queryCosmosFeegrantAllowance := fun _ _ => Fulfilled found;
     Http.Date_getTime := fun s =>
       match s with Some "2024-01-01T02:00:00Z" => Some 1704074400000 | _ => None end;
     Http.Date_now_check := now;
     Http.Date_now_grant := now;
     Http.encode_revoke := fun g a => Scenario.payload ("revoke:" +:+ g +:+ ":" +:+ a);
     Http.encode_grant := fun g a _ t =>
       Scenario.payload ("grant:" +:+ g +:+ ":" +:+ a +:+ ":" +:+ pretty t) |}.

(** A grant on record whose allowance is of another type. *)
Definition periodic_grant : Http.Grant :=
  {| Http.granter := "secret1granter"; Http.grantee := "secret1user";
     Http.allowance := Some
       {| Http.at_type := Some "/cosmos.feegrant.v1beta1.PeriodicAllowance";
          Http.spend_limit := None;
          Http.expiration := None |} |}.

(** Every broadcast reports the same sequence mismatch. *)
Definition gw_stuck : Gateway :=
  {| create_and_sign_tx_direct := fun _ _ => Fulfilled Scenario.signed;
     broadcast_result := fun _ _ => Fulfilled (Scenario.mismatch "42");
     auth := fun _ => Fulfilled ("7", "41") |}.

End Samples.

(** ** The router in front of the GET handler

    [y_fastify.get('/claim/:address', ...)] puts its handler behind
    fastify's router.  [:address] stands for one path segment, the text
    between [/claim/] and the end of the path.  The router finds no route,
    and fastify replies 404 without running a handler, when that text is
    empty, when a [/] stands in it, or when it is longer than
    [maxParamLength], which is 100 for a server made by
    [fastify({logger: true})].  The characters [?], [#], [;] and [%] are
    dealt with before the router sees the segment (they end the path or
    start an escape); a segment that holds one of them is left out here. *)

Module Router.

Definition MAX_PARAM_LENGTH : nat := 100.

Definition url_syntax (c : ascii) : bool :=
  bool_decide (c ∈ ["?"; "#"; ";"; "%"]%char).

Definition is_slash (c : ascii) : bool := bool_decide (c = "/"%char).

Fixpoint has_char (f : ascii -> bool) (s : string) : bool :=
  match s with
  | EmptyString => false
  | String c rest => f c || has_char f rest
  end.

(** What the router does with [GET /claim/<segment>]. *)
Inductive Routed :=
| NotFound                     (* no route: 404, no handler runs *)
| Params (address : string).   (* the handler runs, with d_req.params.address *)

Definition find_route (segment : string) : option Routed :=
  if has_char url_syntax segment then None
  else if bool_decide (segment = "") then Some NotFound
  else if has_char is_slash segment then Some NotFound
  else if decide (MAX_PARAM_LENGTH < String.length segment)%nat then Some NotFound
  else Some (Params segment).

(** What a request comes to: fastify's own 404, or a handler of the server. *)
Inductive Served :=
| Reply404
| Runs (h : Http.Handled).

(** [GET /claim/<segment>]: the router sets [d_req.params.address]. *)
Definition get (env : Http.Env) (d_req : Http.FastifyRequest) (segment : string)
  : option Served :=
  match find_route segment with
  | None => None
  | Some NotFound => Some Reply404
  | Some (Params address) =>
      Some (Runs (Http.get_claim env
        {| Http.method := Http.method d_req;
           Http.url := Http.url d_req;
           Http.query_json := Http.query_json d_req;
           Http.body_json := Http.body_json d_req;
           Http.params_address := address;
           Http.body := Http.body d_req |}))
  end.

(** [POST /claim]: a route without parameters. *)
Definition post (env : Http.Env) (d_req : Http.FastifyRequest) : Served :=
  Runs (Http.post_claim env d_req).

End Router.

(** ** Pacing the queue: [subscribe_new_blocks] and [check_queue_regularly]

    The two module variables that hold timer handles, and the timers that
    are alive.  A handle is a number, 0 being the initial value of the
    variables; [setInterval] and [setTimeout] hand out fresh handles.  Each
    callback of the source is a function on this state; what the socket and
    the clock do is an event. *)

Module Pacer.

Record State := {
  i_regularly_check : nat;   (* handle of the polling interval *)
  i_terminate : nat;         (* handle of the termination timeout *)
  intervals : gset nat;      (* intervals that have not been cleared *)
  timeouts : gset nat;       (* termination timeouts still to fire *)
  c_handles : nat;           (* handles handed out so far *)
  c_subscribing : nat;       (* subscribe_new_blocks calls at their await *)
  c_resubscribe : nat;       (* 60 s timeouts set to subscribe again *)
  c_checks : nat;            (* calls of check_queue made *)
}.

(** [check_queue_regularly()]: clear any previous interval, set a new one. *)
Definition check_queue_regularly (p : State) : State :=
  let id := S (c_handles p) in
  {| i_regularly_check := id;
     i_terminate := i_terminate p;
     intervals := (intervals p ∖ {[ i_regularly_check p ]}) ∪ {[ id ]};
     timeouts := timeouts p;
     c_handles := id;
     c_subscribing := c_subscribing p;
     c_resubscribe := c_resubscribe p;
     c_checks := c_checks p |}.

(** [subscribe_new_blocks()] up to its [await]: stop regular checks, then
    wait for the socket. *)
Definition subscribe_new_blocks (p : State) : State :=
  {| i_regularly_check := i_regularly_check p;
     i_terminate := i_terminate p;
     intervals := intervals p ∖ {[ i_regularly_check p ]};
     timeouts := timeouts p;
     c_handles := c_handles p;
     c_subscribing := S (c_subscribing p);
     c_resubscribe := c_resubscribe p;
     c_checks := c_checks p |}.

(** The message callback: cancel the termination timeout, check the queue,
    set a new termination timeout. *)
Definition on_message (p : State) : State :=
  let id := S (c_handles p) in
  {| i_regularly_check := i_regularly_check p;
     i_terminate := id;
     intervals := intervals p;
     timeouts := (timeouts p ∖ {[ i_terminate p ]}) ∪ {[ id ]};
     c_handles := id;
     c_subscribing := c_subscribing p;
     c_resubscribe := c_resubscribe p;
     c_checks := S (c_checks p) |}.

(** The termination timeout [id] fires: [i_terminate = 0], close the socket,
    switch to manual interval mode. *)
Definition on_terminate (id : nat) (p : State) : State :=
  check_queue_regularly
    {| i_regularly_check := i_regularly_check p;
       i_terminate := 0;
       intervals := intervals p;
       timeouts := timeouts p ∖ {[ id ]};
       c_handles := c_handles p;
       c_subscribing := c_subscribing p;
       c_resubscribe := c_resubscribe p;
       c_checks := c_checks p |}.

(** The close callback: cancel the termination timeout, [i_terminate = 0],
    subscribe again. *)
Definition on_close (p : State) : State :=
  subscribe_new_blocks
    {| i_regularly_check := i_regularly_check p;
       i_terminate := 0;
       intervals := intervals p;
       timeouts := timeouts p ∖ {[ i_terminate p ]};
       c_handles := c_handles p;
       c_subscribing := c_subscribing p;
       c_resubscribe := c_resubscribe p;
       c_checks := c_checks p |}.

(** After the [await]: with [b_timed_out], switch to manual mode and try
    again in a minute; without, nothing more. *)
Definition after_await (b_timed_out : bool) (p : State) : State :=
  let p1 :=
    {| i_regularly_check := i_regularly_check p;
       i_terminate := i_terminate p;
       intervals := intervals p;
       timeouts := timeouts p;
       c_handles := c_handles p;
       c_subscribing := pred (c_subscribing p);
       c_resubscribe := c_resubscribe p;
       c_checks := c_checks p |} in
  if b_timed_out then
    let p2 := check_queue_regularly p1 in
    {| i_regularly_check := i_regularly_check p2;
       i_terminate := i_terminate p2;
       intervals := intervals p2;
       timeouts := timeouts p2;
       c_handles := c_handles p2;
       c_subscribing := c_subscribing p2;
       c_resubscribe := S (c_resubscribe p2);
       c_checks := c_checks p2 |}
  else p1.

(** The one-minute timeout set after a timed-out attempt fires. *)
Definition on_resubscribe (p : State) : State :=
  subscribe_new_blocks
    {| i_regularly_check := i_regularly_check p;
       i_terminate := i_terminate p;
       intervals := intervals p;
       timeouts := timeouts p;
       c_handles := c_handles p;
       c_subscribing := c_subscribing p;
       c_resubscribe := pred (c_resubscribe p);
       c_checks := c_checks p |}.

(** An interval fires: [void check_queue()]. *)
Definition on_interval (p : State) : State :=
  {| i_regularly_check := i_regularly_check p;
     i_terminate := i_terminate p;
     intervals := intervals p;
     timeouts := timeouts p;
     c_handles := c_handles p;
     c_subscribing := c_subscribing p;
     c_resubscribe := c_resubscribe p;
     c_checks := S (c_checks p) |}.

(** What the socket and the clock can do. *)
Inductive Event :=
| Subscribed                 (* the awaited socket is there in time *)
| TimedOut                   (* the 30 s of timeout_exec are over first *)
| Resubscribe                (* a one-minute timeout to subscribe again fires *)
| Message                    (* a NewBlock message arrives *)
| Terminate (id : nat)       (* the termination timeout [id] fires *)
| Close                      (* the socket reports that it closed *)
| Interval (id : nat).       (* the interval [id] fires *)

(** An event that cannot happen in a state (a timer that is not alive, an
    await that nobody is at) leaves the state as it is. *)
Definition step (ev : Event) (p : State) : State :=
  match ev with
  | Subscribed => if decide (0 < c_subscribing p)%nat then after_await false p else p
  | TimedOut => if decide (0 < c_subscribing p)%nat then after_await true p else p
  | Resubscribe => if decide (0 < c_resubscribe p)%nat then on_resubscribe p else p
  | Message => on_message p
  | Terminate id => if decide (id ∈ timeouts p) then on_terminate id p else p
  | Close => on_close p
  | Interval id => if decide (id ∈ intervals p) then on_interval p else p
  end.

Definition run (evs : list Event) (p : State) : State :=
  fold_left (fun p ev => step ev p) evs p.

(** The module as loaded: both variables 0, then [subscribe_new_blocks()]. *)
Definition start : State :=
  subscribe_new_blocks
    {| i_regularly_check := 0; i_terminate := 0;
       intervals := ∅; timeouts := ∅; c_handles := 0;
       c_subscribing := 0; c_resubscribe := 0; c_checks := 0 |}.

(** The timers alive are those the two variables name. *)
Definition tidy (p : State) : Prop :=
  intervals p ⊆ {[ i_regularly_check p ]}
  /\ timeouts p ⊆ {[ i_terminate p ]}
  /\ (0%nat ∉ intervals p) /\ (0%nat ∉ timeouts p)
  /\ (i_regularly_check p <= c_handles p)%nat
  /\ (i_terminate p <= c_handles p)%nat.

End Pacer.

(** * Ticks that overlap

    [check_queue] is an async function called with [void]: a call runs up
    to its next [await] and hands control back, so that an enqueue, or
    another call of [check_queue], runs before it goes on.  Here a tick in
    flight is a value, its locals and the call it awaits, and the answer to
    that call is an event of its own. *)

(** The call a tick awaits. *)
Inductive Awaits :=
| AwaitsSign                      (* create_and_sign_tx_direct(...) *)
| AwaitsBroadcast                 (* broadcast_result(...) *)
| AwaitsAuth (sequence : string). (* auth(k_wallet), m_expected[1] in hand *)

(** The answer to an awaited call. *)
Inductive Answer :=
| Signed (a : Awaited SignedTx)
| Broadcast (a : Awaited TxResultTuple)
| Authed (a : Awaited SlimAuthInfo).

Module Overlap.

(** The locals of a tick in flight. *)
Record InFlight := {
  f_dequeued : list Enqueued;     (* a_dequeued, as the last build left it *)
  f_postponed : list Enqueued;    (* a_postponed of this iteration *)
  f_retry : nat;                  (* i_retry *)
  f_auth : option SlimAuthInfo;   (* z_auth *)
  f_awaits : Awaits;
}.

Record World := {
  server : Server;
  flying : list InFlight;         (* the ticks in flight, oldest first *)
}.

Definition world_start : World := {| server := server_start; flying := [] |}.

(** From the head of the loop body to the call of the signer: a fresh
    [a_postponed], the batch, the sum of the limits, the call. *)
Definition begin_round (i_retry : nat) (z_auth : option SlimAuthInfo)
    (a_dequeued : list Enqueued) (s : Server) : InFlight * Server :=
  let b := build_batch a_dequeued in
  ({| f_dequeued := r_dequeued b;
      f_postponed := a_postponed b;
      f_retry := i_retry;
      f_auth := z_auth;
      f_awaits := AwaitsSign |},
   {| a_enqueued := a_enqueued s;
      c_clearing := c_clearing s;
      c_deferred := c_deferred s;
      settled := settled s;
      a_signed := a_signed s ++
        [{| sc_msgs := a_out b;
            sc_limit := sum_limits (r_dequeued b);
            sc_auth := z_auth |}] |}).

(** The catch block: forward the error to each callback, exit. *)
Definition caught (e_process : Error) (f : InFlight) (s : Server) : Server :=
  {| a_enqueued := a_enqueued s;
     c_clearing := c_clearing s;
     c_deferred := c_deferred s;
     settled := settled s ++ settle_all (f_dequeued f) (Rejected e_process);
     a_signed := a_signed s |}.

(** Un-postpone, [break], resolve each dequeued message, [c_clearing = 1]. *)
Definition finished (a_results : TxResultTuple) (f : InFlight) (s : Server) : Server :=
  {| a_enqueued := a_enqueued s ++ f_postponed f;
     c_clearing := 1;
     c_deferred := c_deferred s;
     settled := settled s ++ settle_all (f_dequeued f) (Resolved a_results);
     a_signed := a_signed s |}.

Definition awaiting (a : Awaits) (f : InFlight) : InFlight :=
  {| f_dequeued := f_dequeued f;
     f_postponed := f_postponed f;
     f_retry := f_retry f;
     f_auth := f_auth f;
     f_awaits := a |}.

(** A tick goes on with the answer to the call it awaits, up to its next
    [await] or to its end ([None] for the tick: it is over).  An answer to
    a call the tick does not await is no event for it. *)
Definition resume (a : Answer) (f : InFlight) (s : Server)
  : option (option InFlight * Server) :=
  match f_awaits f, a with
  | AwaitsSign, Signed (Fulfilled _) => Some (Some (awaiting AwaitsBroadcast f), s)
  | AwaitsSign, Signed (Threw e) => Some (None, caught e f s)
  | AwaitsBroadcast, Broadcast (Fulfilled a_results) =>
      match mismatched_sequence (f_retry f) a_results with
      | Some sequence => Some (Some (awaiting (AwaitsAuth sequence) f), s)
      | None => Some (None, finished a_results f s)
      end
  | AwaitsBroadcast, Broadcast (Threw e) => Some (None, caught e f s)
  | AwaitsAuth sequence, Authed (Fulfilled a_auth) =>
      let '(f', s') :=
        begin_round (S (f_retry f)) (Some (a_auth.1, sequence)) (f_dequeued f) s in
      Some (Some f', s')
  | AwaitsAuth _, Authed (Threw e) => Some (None, caught e f s)
  | _, _ => None
  end.

(** A call of [check_queue], up to its return or its first [await]. *)
Definition call_check_queue (w : World) : World :=
  let s := server w in
  if decide (c_clearing s > 0) then
    {| server := {| a_enqueued := a_enqueued s;
                    c_clearing := c_clearing s - 1;
                    c_deferred := c_deferred s;
                    settled := settled s;
                    a_signed := a_signed s |};
       flying := flying w |}
  else
    match a_enqueued s with
    | [] => w
    | _ :: _ =>
        (* a_dequeued = a_enqueued.slice(); a_enqueued.length = 0 *)
        let '(f, s') :=
          begin_round 0 None (a_enqueued s)
            {| a_enqueued := [];
               c_clearing := c_clearing s;
               c_deferred := c_deferred s;
               settled := settled s;
               a_signed := a_signed s |} in
        {| server := s'; flying := flying w ++ [f] |}
    end.

Inductive Event :=
| Calls_enqueue (msg : bytes) (limit : Z) (grantee : string)
| Calls_check_queue
| Settles (k : nat) (a : Answer).  (* the call the [k]-th tick awaits is answered *)

Definition step (ev : Event) (w : World) : World :=
  match ev with
  | Calls_enqueue msg limit grantee =>
      {| server := (enqueue msg limit grantee (server w)).2; flying := flying w |}
  | Calls_check_queue => call_check_queue w
  | Settles k a =>
      match flying w !! k with
      | Some f =>
          match resume a f (server w) with
          | Some (Some f', s') => {| server := s'; flying := <[k := f']> (flying w) |}
          | Some (None, s') => {| server := s'; flying := delete k (flying w) |}
          | None => w
          end
      | None => w
      end
  end.

Definition run (evs : list Event) (w : World) : World :=
  fold_left (fun w ev => step ev w) evs w.

Definition is_enqueue_call (ev : Event) : Prop :=
  match ev with Calls_enqueue _ _ _ => True | _ => False end.

(** The answers a gateway gives to one tick, in the order of its awaits. *)
Fixpoint answers (gw : Gateway) (fuel : nat) (i_retry : nat)
    (z_auth : option SlimAuthInfo) (t : Tick) : list Answer :=
  match fuel with
  | O => []
  | S fuel' =>
      match create_and_sign_tx_direct gw i_retry (sign_call z_auth t) with
      | Threw e => [Signed (Threw e)]
      | Fulfilled tx =>
          Signed (Fulfilled tx) ::
          match broadcast_result gw i_retry tx with
          | Threw e => [Broadcast (Threw e)]
          | Fulfilled a_results =>
              Broadcast (Fulfilled a_results) ::
              match mismatched_sequence i_retry a_results with
              | None => []
              | Some sequence =>
                  match auth gw i_retry with
                  | Threw e => [Authed (Threw e)]
                  | Fulfilled a_auth =>
                      Authed (Fulfilled a_auth) ::
                      answers gw fuel' (S i_retry)
                        (Some (a_auth.1, sequence)) (attempted z_auth t)
                  end
              end
          end
      end
  end.


End Overlap.

(** * The earlier revision of the server

    The first half of [server.ts] is the server as it was before requests
    carried their grantee: the NewBlock callback works on the queue itself,
    puts every queued message into the transaction, and lets two blocks pass
    after a submission.  The chain gateway, the retry test and the
    settlements are those of the later revision. *)

Module Earlier.

(** The queue entry: [[atu8_msg, xg_limit, fke_granted]]. *)
Record Enqueued := {
  atu8_msg : bytes;
  xg_limit : Z;
  fke_granted : nat;
}.

Record Server := {
  a_enqueued : list Enqueued;       (* the queue *)
  c_clearing : Z;                   (* blocks still to skip *)
  c_deferred : nat;                 (* deferred promises created so far *)
  settled : list (nat * Settlement);(* resolver calls, oldest first *)
  a_signed : list SignCall;         (* transactions handed to the signer *)
}.

Definition server_start : Server :=
  {| a_enqueued := []; c_clearing := 0; c_deferred := 0;
     settled := []; a_signed := [] |}.

(** One iteration up to the call of the signer: [a_msgs] is every payload of
    the dequeued list, [xg_limit] the sum of its limits. *)
Definition sign_call (z_auth : option SlimAuthInfo) (a_dequeued : list Enqueued)
  : SignCall :=
  {| sc_msgs := map atu8_msg a_dequeued;
     sc_limit := fold_left (fun xg_sum q => xg_sum + xg_limit q) a_dequeued 0;
     sc_auth := z_auth |}.

(** [for(let i_retry=0; ; i_retry++)], with fuel as in the later revision;
    the dequeued list is not changed by the loop. *)
Fixpoint retry_transaction (gw : Gateway) (fuel : nat) (i_retry : nat)
    (z_auth : option SlimAuthInfo) (a_dequeued : list Enqueued)
    (calls : list SignCall) : option (LoopExit * list SignCall) :=
  match fuel with
  | O => None
  | S fuel' =>
      let calls' := calls ++ [sign_call z_auth a_dequeued] in
      match create_and_sign_tx_direct gw i_retry (sign_call z_auth a_dequeued) with
      | Threw e => Some (Caught e, calls')
      | Fulfilled tx =>
          match broadcast_result gw i_retry tx with
          | Threw e => Some (Caught e, calls')
          | Fulfilled a_results =>
              match mismatched_sequence i_retry a_results with
              | Some sequence =>
                  match auth gw i_retry with
                  | Threw e => Some (Caught e, calls')
                  | Fulfilled a_auth =>
                      retry_transaction gw fuel' (S i_retry)
                        (Some (a_auth.1, sequence)) a_dequeued calls'
                  end
              | None => Some (Broke a_results, calls')
              end
          end
      end
  end.

(** [for(const [,, fke_granted] of a_dequeued) fke_granted(...)] *)
Definition settle_all (a_dequeued : list Enqueued) (w : Settlement)
  : list (nat * Settlement) :=
  map (fun q => (fke_granted q, w)) a_dequeued.

(** The NewBlock callback, run to its end. *)
Definition on_new_block (fuel : nat) (gw : Gateway) (s : Server) : option Server :=
  if decide (c_clearing s > 0) then
    Some {| a_enqueued := a_enqueued s;
            c_clearing := c_clearing s - 1;
            c_deferred := c_deferred s;
            settled := settled s;
            a_signed := a_signed s |}
  else
    match a_enqueued s with
    | [] => Some s
    | _ :: _ =>
        (* a_dequeued = a_enqueued.slice(); a_enqueued.length = 0 *)
        match retry_transaction gw fuel 0 None (a_enqueued s) (a_signed s) with
        | None => None
        | Some (Caught e_process, calls) =>
            Some {| a_enqueued := [];
                    c_clearing := c_clearing s;
                    c_deferred := c_deferred s;
                    settled := settled s ++ settle_all (a_enqueued s) (Rejected e_process);
                    a_signed := calls |}
        | Some (Broke a_results, calls) =>
            Some {| a_enqueued := [];
                    c_clearing := 2;
                    c_deferred := c_deferred s;
                    settled := settled s ++ settle_all (a_enqueued s) (Resolved a_results);
                    a_signed := calls |}
        end
    end.

(** [enqueue(atu8_msg, xg_limit)] *)
Definition enqueue (msg : bytes) (limit : Z) (s : Server) : nat * Server :=
  let dp_granted := c_deferred s in
  (dp_granted,
   {| a_enqueued := a_enqueued s ++
        [{| atu8_msg := msg; xg_limit := limit; fke_granted := dp_granted |}];
      c_clearing := c_clearing s;
      c_deferred := S (c_deferred s);
      settled := settled s;
      a_signed := a_signed s |}).

(** *** Callbacks that overlap

    The callback is async as well: it runs up to its next [await], and
    another block or an enqueue can come before it goes on. *)

(** The locals of a callback in flight; the loop leaves [a_dequeued] as it
    is. *)
Record InFlight := {
  f_dequeued : list Enqueued;
  f_retry : nat;
  f_auth : option SlimAuthInfo;
  f_awaits : Awaits;
}.

Record World := {
  server : Server;
  flying : list InFlight;
}.

Definition begin_round (i_retry : nat) (z_auth : option SlimAuthInfo)
    (a_dequeued : list Enqueued) (s : Server) : InFlight * Server :=
  ({| f_dequeued := a_dequeued;
      f_retry := i_retry;
      f_auth := z_auth;
      f_awaits := AwaitsSign |},
   {| a_enqueued := a_enqueued s;
      c_clearing := c_clearing s;
      c_deferred := c_deferred s;
      settled := settled s;
      a_signed := a_signed s ++ [sign_call z_auth a_dequeued] |}).

Definition caught (e_process : Error) (f : InFlight) (s : Server) : Server :=
  {| a_enqueued := a_enqueued s;
     c_clearing := c_clearing s;
     c_deferred := c_deferred s;
     settled := settled s ++ settle_all (f_dequeued f) (Rejected e_process);
     a_signed := a_signed s |}.

(** [break], resolve each dequeued message, [c_clearing = 2]. *)
Definition finished (a_results : TxResultTuple) (f : InFlight) (s : Server) : Server :=
  {| a_enqueued := a_enqueued s;
     c_clearing := 2;
     c_deferred := c_deferred s;
     settled := settled s ++ settle_all (f_dequeued f) (Resolved a_results);
     a_signed := a_signed s |}.

Definition awaiting (a : Awaits) (f : InFlight) : InFlight :=
  {| f_dequeued := f_dequeued f;
     f_retry := f_retry f;
     f_auth := f_auth f;
     f_awaits := a |}.

Definition resume (a : Answer) (f : InFlight) (s : Server)
  : option (option InFlight * Server) :=
  match f_awaits f, a with
  | AwaitsSign, Signed (Fulfilled _) => Some (Some (awaiting AwaitsBroadcast f), s)
  | AwaitsSign, Signed (Threw e) => Some (None, caught e f s)
  | AwaitsBroadcast, Broadcast (Fulfilled a_results) =>
      match mismatched_sequence (f_retry f) a_results with
      | Some sequence => Some (Some (awaiting (AwaitsAuth sequence) f), s)
      | None => Some (None, finished a_results f s)
      end
  | AwaitsBroadcast, Broadcast (Threw e) => Some (None, caught e f s)
  | AwaitsAuth sequence, Authed (Fulfilled a_auth) =>
      let '(f', s') :=
        begin_round (S (f_retry f)) (Some (a_auth.1, sequence)) (f_dequeued f) s in
      Some (Some f', s')
  | AwaitsAuth _, Authed (Threw e) => Some (None, caught e f s)
  | _, _ => None
  end.

(** A NewBlock message: the callback up to its return or its first
    [await]. *)
Definition new_block (w : World) : World :=
  let s := server w in
  if decide (c_clearing s > 0) then
    {| server := {| a_enqueued := a_enqueued s;
                    c_clearing := c_clearing s - 1;
                    c_deferred := c_deferred s;
                    settled := settled s;
                    a_signed := a_signed s |};
       flying := flying w |}
  else
    match a_enqueued s with
    | [] => w
    | _ :: _ =>
        let '(f, s') :=
          begin_round 0 None (a_enqueued s)
            {| a_enqueued := [];
               c_clearing := c_clearing s;
               c_deferred := c_deferred s;
               settled := settled s;
               a_signed := a_signed s |} in
        {| server := s'; flying := flying w ++ [f] |}
    end.

Inductive Event :=
| Calls_enqueue (msg : bytes) (limit : Z)
| NewBlock
| Settles (k : nat) (a : Answer).

Definition step (ev : Event) (w : World) : World :=
  match ev with
  | Calls_enqueue msg limit =>
      {| server := (enqueue msg limit (server w)).2; flying := flying w |}
  | NewBlock => new_block w
  | Settles k a =>
      match flying w !! k with
      | Some f =>
          match resume a f (server w) with
          | Some (Some f', s') => {| server := s'; flying := <[k := f']> (flying w) |}
          | Some (None, s') => {| server := s'; flying := delete k (flying w) |}
          | None => w
          end
      | None => w
      end
  end.

Definition run (evs : list Event) (w : World) : World :=
  fold_left (fun w ev => step ev w) evs w.

Definition is_block (ev : Event) : bool :=
  match ev with NewBlock => true | _ => false end.

(** The blocks among the events. *)
Definition blocks (evs : list Event) : nat :=
  length (List.filter is_block evs).

End Earlier.

(** * Properties *)

(** ** Base64 text determines the bytes

    The sets of the batch builder hold base64 text; comparing the text is
    comparing the bytes. *)

Lemma sextet_index_char (n : N) :
  (n < 64)%N -> Base64.sextet_index (Base64.sextet_char n) = Some n.
Proof.
  intros Hn. rewrite <- (N2Nat.id n).
  assert (Hk : (N.to_nat n < 64)%nat) by lia.
  remember (N.to_nat n) as k eqn:Heqk. clear Heqk Hn n.
  do 64 (destruct k as [|k]; [vm_compute; reflexivity|]). lia.
Qed.

Section Sextets.

Local Open Scope N_scope.

Lemma div_mod_eq (a b d : N) : d <> 0 -> a / d = b / d -> a mod d = b mod d -> a = b.
Proof.
  intros Hd Hq Hr. rewrite (N.div_mod a d Hd), (N.div_mod b d Hd). congruence.
Qed.

Lemma join_16 (hi lo hi' lo' : N) :
  lo < 16 -> lo' < 16 -> hi * 16 + lo = hi' * 16 + lo' -> hi = hi' /\ lo = lo'.
Proof. lia. Qed.

Lemma join_4 (hi lo hi' lo' : N) :
  lo < 4 -> lo' < 4 -> hi * 4 + lo = hi' * 4 + lo' -> hi = hi' /\ lo = lo'.
Proof. lia. Qed.

Lemma high_nibble (m : N) : m < 256 -> m / 16 < 16.
Proof. intros H. apply N.Div0.div_lt_upper_bound; lia. Qed.

Lemma high_pair (o : N) : o < 256 -> o / 64 < 4.
Proof. intros H. apply N.Div0.div_lt_upper_bound; lia. Qed.

Lemma high_sextet (n : N) : n < 256 -> n / 4 < 64.
Proof. intros H. apply N.Div0.div_lt_upper_bound; lia. Qed.

Lemma sextet_bound_2 (n m : N) : m < 256 -> (n mod 4) * 16 + m / 16 < 64.
Proof.
  intros Hm. pose proof (N.mod_upper_bound n 4). pose proof (high_nibble m Hm). lia.
Qed.

Lemma sextet_bound_3 (m o : N) : o < 256 -> (m mod 16) * 4 + o / 64 < 64.
Proof.
  intros Ho. pose proof (N.mod_upper_bound m 16). pose proof (high_pair o Ho). lia.
Qed.

Lemma sextet_bound_4 (o : N) : o mod 64 < 64.
Proof. apply N.mod_upper_bound. lia. Qed.

Lemma sextet_bound_2' (n : N) : (n mod 4) * 16 < 64.
Proof. pose proof (N.mod_upper_bound n 4). lia. Qed.

Lemma sextet_bound_3' (m : N) : (m mod 16) * 4 < 64.
Proof. pose proof (N.mod_upper_bound m 16). lia. Qed.

Lemma sextets_one (n n' : N) :
  n / 4 = n' / 4 -> (n mod 4) * 16 = (n' mod 4) * 16 -> n = n'.
Proof. intros H1 H2. apply (div_mod_eq n n' 4); lia. Qed.

Lemma sextets_two (n m n' m' : N) :
  m < 256 -> m' < 256 ->
  n / 4 = n' / 4 ->
  (n mod 4) * 16 + m / 16 = (n' mod 4) * 16 + m' / 16 ->
  (m mod 16) * 4 = (m' mod 16) * 4 ->
  n = n' /\ m = m'.
Proof.
  intros Hm Hm' H1 H2 H3.
  apply join_16 in H2 as [H2 H2']; [|by apply high_nibble..].
  split; [apply (div_mod_eq n n' 4); lia|apply (div_mod_eq m m' 16); lia].
Qed.

Lemma sextets_three (n m o n' m' o' : N) :
  m < 256 -> o < 256 -> m' < 256 -> o' < 256 ->
  n / 4 = n' / 4 ->
  (n mod 4) * 16 + m / 16 = (n' mod 4) * 16 + m' / 16 ->
  (m mod 16) * 4 + o / 64 = (m' mod 16) * 4 + o' / 64 ->
  o mod 64 = o' mod 64 ->
  n = n' /\ m = m' /\ o = o'.
Proof.
  intros Hm Ho Hm' Ho' H1 H2 H3 H4.
  apply join_16 in H2 as [H2 H2']; [|by apply high_nibble..].
  apply join_4 in H3 as [H3 H3']; [|by apply high_pair..].
  split; [apply (div_mod_eq n n' 4); lia|].
  split; [apply (div_mod_eq m m' 16); lia|apply (div_mod_eq o o' 64); lia].
Qed.
End Sextets.

Lemma sextet_char_inj (n m : N) :
  (n < 64)%N -> (m < 64)%N -> Base64.sextet_char n = Base64.sextet_char m -> n = m.
Proof.
  intros Hn Hm E. apply sextet_index_char in Hn, Hm. congruence.
Qed.

Lemma sextet_char_not_pad (n : N) : (n < 64)%N -> Base64.sextet_char n <> Base64.pad.
Proof.
  intros Hn E. apply sextet_index_char in Hn. rewrite E in Hn. vm_compute in Hn. discriminate.
Qed.

Lemma to_N_inj (a b : byte) : Byte.to_N a = Byte.to_N b -> a = b.
Proof.
  intros E. pose proof (Byte.of_to_N a) as Ha. pose proof (Byte.of_to_N b) as Hb.
  rewrite E in Ha. congruence.
Qed.

Lemma to_N_lt (a : byte) : (Byte.to_N a < 256)%N.
Proof. pose proof (Byte.to_N_bounded a). lia. Qed.

Lemma bytes_ind3 (P : bytes -> Prop) :
  P [] -> (forall a, P [a]) -> (forall a b, P [a; b]) ->
  (forall a b c rest, P rest -> P (a :: b :: c :: rest)) ->
  forall l, P l.
Proof.
  intros H0 H1 H2 H3.
  assert (H : forall l, P l /\ (forall a, P (a :: l)) /\ (forall a b, P (a :: b :: l))).
  { induction l as [|x l (IH0 & IH1 & IH2)]; [by repeat split|].
    split; [apply IH1|]. split; [intros a; apply IH2|]. intros a b. by apply H3. }
  intros l. apply H.
Qed.

Lemma String_eq (c c' : ascii) (s s' : string) :
  String c s = String c' s' -> c = c' /\ s = s'.
Proof. intros [= -> ->]. done. Qed.

Ltac quartet E :=
  apply String_eq in E as [?E1 E]; apply String_eq in E as [?E2 E];
  apply String_eq in E as [?E3 E]; apply String_eq in E as [?E4 E].

Ltac sextet_bound :=
  first [ apply high_sextet; apply to_N_lt
        | apply sextet_bound_2; apply to_N_lt
        | apply sextet_bound_3; apply to_N_lt
        | apply sextet_bound_4 | apply sextet_bound_2' | apply sextet_bound_3' ].

Ltac padded H :=
  exfalso;
  first [ apply sextet_char_not_pad in H; [exact H|sextet_bound]
        | symmetry in H; apply sextet_char_not_pad in H; [exact H|sextet_bound] ].

Ltac sextet_eq H := apply sextet_char_inj in H; [|sextet_bound..].

Lemma bytes_to_base64_inj (l l' : bytes) :
  Base64.bytes_to_base64 l = Base64.bytes_to_base64 l' -> l = l'.
Proof.
  revert l'. induction l as [|a|a b|a b c rest IH] using bytes_ind3;
    intros l'; destruct l' as [|a' [|b' [|c' rest']]];
    cbn [Base64.bytes_to_base64]; intros E;
    try discriminate; try reflexivity; quartet E.
  - sextet_eq E1. sextet_eq E2.
    f_equal. apply to_N_inj. by apply sextets_one.
  - padded E3.
  - padded E3.
  - padded E3.
  - sextet_eq E1. sextet_eq E2. sextet_eq E3.
    destruct (sextets_two (Byte.to_N a) (Byte.to_N b) (Byte.to_N a') (Byte.to_N b'))
      as [Ha Hb]; [apply to_N_lt..|done|done|done|].
    apply to_N_inj in Ha, Hb. by subst.
  - padded E4.
  - padded E3.
  - padded E4.
  - sextet_eq E1. sextet_eq E2. sextet_eq E3. sextet_eq E4.
    destruct (sextets_three (Byte.to_N a) (Byte.to_N b) (Byte.to_N c)
                (Byte.to_N a') (Byte.to_N b') (Byte.to_N c'))
      as (Ha & Hb & Hc); [apply to_N_lt..|done|done|done|done|].
    apply to_N_inj in Ha, Hb, Hc. apply IH in E. by subst.
Qed.

(** ** Lists: [remove] and [sum_limits] *)

Lemma sum_limits_from (l : list Enqueued) (z : Z) :
  fold_left (fun xg_sum q => xg_sum + xg_limit q) l z = z + sum_limits l.
Proof.
  unfold sum_limits. revert z.
  induction l as [|q l IH]; intros z; simpl; [lia|].
  rewrite (IH (z + xg_limit q)), (IH (0 + xg_limit q)). lia.
Qed.

Lemma sum_limits_cons (q : Enqueued) (l : list Enqueued) :
  sum_limits (q :: l) = xg_limit q + sum_limits l.
Proof. unfold sum_limits at 1. simpl. rewrite sum_limits_from. lia. Qed.

Lemma sum_limits_app (l1 l2 : list Enqueued) :
  sum_limits (l1 ++ l2) = sum_limits l1 + sum_limits l2.
Proof.
  induction l1 as [|q l1 IH]; simpl; [reflexivity|].
  rewrite !sum_limits_cons, IH. lia.
Qed.

Lemma remove_subseteq (l : list Enqueued) (q : Enqueued) : remove l q ⊆ l.
Proof.
  induction l as [|x l IH]; simpl; [done|].
  destruct (decide (x = q)) as [_|_].
  - intros y Hy. by right.
  - intros y Hy. apply elem_of_cons in Hy as [->|Hy]; [left|right; by apply IH].
Qed.

Lemma remove_length (l : list Enqueued) (q : Enqueued) :
  (length (remove l q) <= length l)%nat.
Proof. induction l as [|x l IH]; simpl; [lia|]. case_decide; simpl; lia. Qed.

Lemma sum_limits_remove (l : list Enqueued) (q : Enqueued) :
  q ∈ l -> sum_limits (remove l q) = sum_limits l - xg_limit q.
Proof.
  induction l as [|x l IH]; intros Hin; [by apply elem_of_nil in Hin|].
  simpl. case_decide as Hx.
  - subst x. rewrite sum_limits_cons. lia.
  - apply elem_of_cons in Hin as [Heq|Hin]; [congruence|].
    rewrite !sum_limits_cons, IH by done. lia.
Qed.

(** ** The reduce callback, case by case *)

Lemma reduce_callback_duplicate (q : Enqueued) (s : Reduction) :
  safe_bytes_to_base64 (atu8_msg q) ∈ as_msgs s ->
  reduce_callback q s = s.
Proof. intros H. unfold reduce_callback. by rewrite decide_True. Qed.

Lemma reduce_callback_postpone (q : Enqueued) (s : Reduction) :
  safe_bytes_to_base64 (atu8_msg q) ∉ as_msgs s ->
  sa_grantee q ∈ as_grantees s ->
  reduce_callback q s =
    {| r_dequeued := remove (r_dequeued s) q;
       as_grantees := as_grantees s;
       as_msgs := as_msgs s ∪ {[ safe_bytes_to_base64 (atu8_msg q) ]};
       a_out := a_out s;
       a_postponed := a_postponed s ++ [q] |}.
Proof.
  intros H1 H2. unfold reduce_callback.
  rewrite decide_False by done. by rewrite decide_True.
Qed.

Lemma reduce_callback_accept (q : Enqueued) (s : Reduction) :
  safe_bytes_to_base64 (atu8_msg q) ∉ as_msgs s ->
  sa_grantee q ∉ as_grantees s ->
  reduce_callback q s =
    {| r_dequeued := r_dequeued s;
       as_grantees := as_grantees s ∪ {[ sa_grantee q ]};
       as_msgs := as_msgs s ∪ {[ safe_bytes_to_base64 (atu8_msg q) ]};
       a_out := a_out s ++ [atu8_msg q];
       a_postponed := a_postponed s |}.
Proof.
  intros H1 H2. unfold reduce_callback.
  rewrite decide_False by done. by rewrite decide_False.
Qed.

(** A proof about the callback splits into its three branches. *)
Ltac callback_cases q s :=
  destruct (decide (safe_bytes_to_base64 (atu8_msg q) ∈ as_msgs s)) as [?Hdup|?Hnew];
  [ rewrite (reduce_callback_duplicate q s) by assumption
  | destruct (decide (sa_grantee q ∈ as_grantees s)) as [?Hclaimed|?Hfree];
    [ rewrite (reduce_callback_postpone q s) by assumption
    | rewrite (reduce_callback_accept q s) by assumption ] ].

(** ** What the reduction keeps invariant *)

(** Gas: whatever leaves the dequeued list is on the postponed list. *)
Lemma reduce_callback_limits (q : Enqueued) (s : Reduction) :
  q ∈ r_dequeued s ->
  sum_limits (r_dequeued (reduce_callback q s))
  + sum_limits (a_postponed (reduce_callback q s))
  = sum_limits (r_dequeued s) + sum_limits (a_postponed s).
Proof.
  intros Hin. callback_cases q s; simpl; try lia.
  rewrite sum_limits_remove, sum_limits_app by done.
  rewrite sum_limits_cons. change (sum_limits []) with 0. lia.
Qed.

Lemma array_reduce_limits (n k : nat) (s : Reduction) :
  sum_limits (r_dequeued (array_reduce n k s))
  + sum_limits (a_postponed (array_reduce n k s))
  = sum_limits (r_dequeued s) + sum_limits (a_postponed s).
Proof.
  revert k s. induction n as [|n IH]; intros k s; simpl; [reflexivity|].
  destruct (r_dequeued s !! k) as [q|] eqn:Hk; [|apply IH].
  rewrite IH. apply reduce_callback_limits.
  by eapply list_elem_of_lookup_2.
Qed.

(** Requests: the dequeued and postponed lists only ever hold drained ones. *)
Lemma reduce_callback_subseteq (q : Enqueued) (s : Reduction) (l : list Enqueued) :
  q ∈ r_dequeued s ->
  r_dequeued s ⊆ l -> a_postponed s ⊆ l ->
  r_dequeued (reduce_callback q s) ⊆ l ∧ a_postponed (reduce_callback q s) ⊆ l.
Proof.
  intros Hin Hd Hp. callback_cases q s; simpl; try done.
  split.
  - etrans; [apply remove_subseteq|done].
  - intros y Hy. apply elem_of_app in Hy as [Hy|Hy]; [by apply Hp|].
    apply list_elem_of_singleton in Hy as ->. by apply Hd.
Qed.

Lemma array_reduce_subseteq (n k : nat) (s : Reduction) (l : list Enqueued) :
  r_dequeued s ⊆ l -> a_postponed s ⊆ l ->
  r_dequeued (array_reduce n k s) ⊆ l ∧ a_postponed (array_reduce n k s) ⊆ l.
Proof.
  revert k s. induction n as [|n IH]; intros k s Hd Hp; simpl; [done|].
  destruct (r_dequeued s !! k) as [q|] eqn:Hk; [|by apply IH].
  destruct (reduce_callback_subseteq q s l) as [? ?]; try done.
  - by eapply list_elem_of_lookup_2.
  - by apply IH.
Qed.

Lemma build_batch_subseteq (a_dequeued : list Enqueued) :
  r_dequeued (build_batch a_dequeued) ⊆ a_dequeued
  ∧ a_postponed (build_batch a_dequeued) ⊆ a_dequeued.
Proof.
  apply array_reduce_subseteq; simpl; [done|].
  intros y Hy. by apply elem_of_nil in Hy.
Qed.

Lemma build_batch_limits (a_dequeued : list Enqueued) :
  sum_limits (r_dequeued (build_batch a_dequeued))
  = sum_limits a_dequeued - sum_limits (a_postponed (build_batch a_dequeued)).
Proof.
  pose proof (array_reduce_limits (length a_dequeued) 0 (reduction_start a_dequeued)) as H.
  unfold build_batch. simpl in H. change (sum_limits []) with 0 in H. lia.
Qed.

(** ** The retry loop *)

(** The test in the code and the condition in the specification agree. *)
Lemma mismatched_sequence_retryable (i_retry : nat) (r : TxResultTuple) (sequence : string) :
  mismatched_sequence i_retry r = Some sequence <-> retryable i_retry r sequence.
Proof.
  unfold mismatched_sequence, retryable. split.
  - intros H.
    destruct (decide (xc_code r = 0)) as [?|Hc]; [discriminate|].
    destruct (g_meta r) as [m|]; [|discriminate].
    destruct (decide (codespace m = Some "sdk")) as [Hs|?]; [|discriminate].
    destruct (decide (code m = Some 32)) as [H32|?]; [|discriminate].
    destruct (decide (i_retry < 2)%nat) as [Hlt|?]; [|discriminate].
    split; [done|]. by exists m.
  - intros [Hc (m & -> & Hs & H32 & Hre & Hlt)].
    rewrite decide_False by done. by rewrite !decide_True.
Qed.

Lemma mismatched_sequence_none (i_retry : nat) (r : TxResultTuple) :
  mismatched_sequence i_retry r = None <-> forall sequence, ~ retryable i_retry r sequence.
Proof.
  split.
  - intros H sequence Hr. apply mismatched_sequence_retryable in Hr. congruence.
  - intros H. destruct (mismatched_sequence i_retry r) as [sequence|] eqn:E; [|done].
    apply mismatched_sequence_retryable in E. by destruct (H sequence).
Qed.

(** One round of the loop, unfolded. *)
Lemma retry_transaction_round (gw : Gateway) (fuel i_retry : nat)
    (z_auth : option SlimAuthInfo) (t : Tick) :
  retry_transaction gw (S fuel) i_retry z_auth t =
    match create_and_sign_tx_direct gw i_retry (sign_call z_auth t) with
    | Threw e => Some (Caught e, attempted z_auth t)
    | Fulfilled tx =>
        match broadcast_result gw i_retry tx with
        | Threw e => Some (Caught e, attempted z_auth t)
        | Fulfilled a_results =>
            match mismatched_sequence i_retry a_results with
            | Some sequence =>
                match auth gw i_retry with
                | Threw e => Some (Caught e, attempted z_auth t)
                | Fulfilled a_auth =>
                    retry_transaction gw fuel (S i_retry)
                      (Some (a_auth.1, sequence)) (attempted z_auth t)
                end
            | None => Some (Broke a_results, unpostponed z_auth t)
            end
        end
    end.
Proof. reflexivity. Qed.

(** The loop always terminates: three rounds are enough from the start, and
    fewer from a later iteration. *)
Lemma retry_transaction_total (gw : Gateway) (fuel i_retry : nat)
    (z_auth : option SlimAuthInfo) (t : Tick) :
  (3 <= fuel + i_retry)%nat -> (1 <= fuel)%nat ->
  is_Some (retry_transaction gw fuel i_retry z_auth t).
Proof.
  revert i_retry z_auth t.
  induction fuel as [|fuel IH]; intros i_retry z_auth t Hfuel Hpos; [lia|].
  rewrite retry_transaction_round.
  destruct (create_and_sign_tx_direct gw i_retry _) as [tx|e]; [|by eexists].
  destruct (broadcast_result gw i_retry tx) as [r|e]; [|by eexists].
  destruct (mismatched_sequence i_retry r) as [sequence|] eqn:E; [|by eexists].
  destruct (auth gw i_retry) as [a|e]; [|by eexists].
  apply mismatched_sequence_retryable in E as [_ (m & _ & _ & _ & _ & Hlt)].
  apply IH; lia.
Qed.

(** More fuel never changes an answer. *)
Lemma retry_transaction_fuel (gw : Gateway) (fuel fuel' i_retry : nat)
    (z_auth : option SlimAuthInfo) (t : Tick) (x : LoopExit * Tick) :
  retry_transaction gw fuel i_retry z_auth t = Some x ->
  (fuel <= fuel')%nat ->
  retry_transaction gw fuel' i_retry z_auth t = Some x.
Proof.
  revert fuel' i_retry z_auth t.
  induction fuel as [|fuel IH]; intros fuel' i_retry z_auth t H Hle; [discriminate|].
  destruct fuel' as [|fuel']; [lia|].
  rewrite retry_transaction_round in *.
  destruct (create_and_sign_tx_direct gw i_retry _) as [tx|e]; [|done].
  destruct (broadcast_result gw i_retry tx) as [r|e]; [|done].
  destruct (mismatched_sequence i_retry r) as [sequence|]; [|done].
  destruct (auth gw i_retry) as [a|e]; [|done].
  apply IH; [done|lia].
Qed.

(** What a finished loop leaves behind: the dequeued list has only shrunk,
    the queue has only gained drained requests, and the signer was called at
    least once and, counting the iterations before, at most three times. *)
Lemma retry_transaction_frame (gw : Gateway) (fuel i_retry : nat)
    (z_auth : option SlimAuthInfo) (t t' : Tick) (x : LoopExit) :
  retry_transaction gw fuel i_retry z_auth t = Some (x, t') ->
  t_dequeued t' ⊆ t_dequeued t
  /\ (forall q, q ∈ t_enqueued t' -> q ∈ t_enqueued t \/ q ∈ t_dequeued t)
  /\ exists calls, t_signed t' = t_signed t ++ calls
       /\ (1 <= length calls)%nat
       /\ ((i_retry <= 2)%nat -> (length calls + i_retry <= 3)%nat).
Proof.
  revert i_retry z_auth t.
  induction fuel as [|fuel IH]; intros i_retry z_auth t H; [discriminate|].
  rewrite retry_transaction_round in H.
  destruct (build_batch_subseteq (t_dequeued t)) as [Hd Hp].
  assert (Hcaught : forall e, Some (Caught e, attempted z_auth t) = Some (x, t') ->
    t_dequeued t' ⊆ t_dequeued t
    /\ (forall q, q ∈ t_enqueued t' -> q ∈ t_enqueued t \/ q ∈ t_dequeued t)
    /\ exists calls, t_signed t' = t_signed t ++ calls
         /\ (1 <= length calls)%nat
         /\ ((i_retry <= 2)%nat -> (length calls + i_retry <= 3)%nat)).
  { intros e [= <- <-]. simpl. split; [done|]. split; [by left|].
    eexists; split; [reflexivity|]. simpl. lia. }
  destruct (create_and_sign_tx_direct gw i_retry _) as [tx|e]; [|by eapply Hcaught].
  destruct (broadcast_result gw i_retry tx) as [r|e]; [|by eapply Hcaught].
  destruct (mismatched_sequence i_retry r) as [sequence|] eqn:E.
  - destruct (auth gw i_retry) as [a|e]; [|by eapply Hcaught].
    apply mismatched_sequence_retryable in E as [_ (m & _ & _ & _ & _ & Hlt)].
    apply IH in H as (H1 & H2 & calls & H3 & H4 & H5). simpl in *.
    split; [by etrans|]. split.
    + intros q Hq. destruct (H2 q Hq) as [?|?]; [by left|right; by apply Hd].
    + exists (sign_call z_auth t :: calls). rewrite H3, <- app_assoc. simpl.
      split; [done|]. split; [lia|]. intros _. lia.
  - injection H as <- <-. simpl. split; [done|]. split.
    + intros q Hq. apply elem_of_app in Hq as [?|?]; [by left|right; by apply Hp].
    + eexists; split; [reflexivity|]. simpl. lia.
Qed.

(** ** [check_queue], path by path *)

Lemma check_queue_clearing (fuel : nat) (gw : Gateway) (s : Server) :
  c_clearing s > 0 ->
  check_queue fuel gw s =
    Some {| a_enqueued := a_enqueued s;
            c_clearing := c_clearing s - 1;
            c_deferred := c_deferred s;
            settled := settled s;
            a_signed := a_signed s |}.
Proof. intros H. unfold check_queue. by rewrite decide_True. Qed.

Lemma check_queue_idle (fuel : nat) (gw : Gateway) (s : Server) :
  ~ c_clearing s > 0 -> a_enqueued s = [] ->
  check_queue fuel gw s = Some s.
Proof. intros H E. unfold check_queue. rewrite decide_False by done. by rewrite E. Qed.

Lemma check_queue_submit (fuel : nat) (gw : Gateway) (s : Server) :
  ~ c_clearing s > 0 -> a_enqueued s <> [] ->
  check_queue fuel gw s =
    match retry_transaction gw fuel 0 None (drained s) with
    | None => None
    | Some (Caught e_process, t) =>
        Some {| a_enqueued := t_enqueued t;
                c_clearing := c_clearing s;
                c_deferred := c_deferred s;
                settled := settled s ++ settle_all (t_dequeued t) (Rejected e_process);
                a_signed := t_signed t |}
    | Some (Broke a_results, t) =>
        Some {| a_enqueued := t_enqueued t;
                c_clearing := 1;
                c_deferred := c_deferred s;
                settled := settled s ++ settle_all (t_dequeued t) (Resolved a_results);
                a_signed := t_signed t |}
    end.
Proof.
  intros H E. unfold check_queue, drained. rewrite decide_False by done.
  destruct (a_enqueued s) as [|q l]; [congruence|reflexivity].
Qed.

(** A block tick always returns. *)
Lemma check_queue_total (fuel : nat) (gw : Gateway) (s : Server) :
  (3 <= fuel)%nat -> is_Some (check_queue fuel gw s).
Proof.
  intros Hfuel.
  destruct (decide (c_clearing s > 0)) as [H|H].
  { rewrite check_queue_clearing by done. by eexists. }
  destruct (decide (a_enqueued s = [])) as [E|E].
  { rewrite check_queue_idle by done. by eexists. }
  rewrite check_queue_submit by done.
  destruct (retry_transaction_total gw fuel 0 None (drained s)) as [[x t] ->]; [lia..|].
  destruct x; by eexists.
Qed.

(** A tick that submits calls the signer at least once and at most three
    times. *)
Lemma check_queue_attempts (fuel : nat) (gw : Gateway) (s s' : Server) :
  ~ c_clearing s > 0 -> a_enqueued s <> [] ->
  check_queue fuel gw s = Some s' ->
  exists calls, a_signed s' = a_signed s ++ calls
    /\ (1 <= length calls <= 3)%nat.
Proof.
  intros H E Hs'. rewrite check_queue_submit in Hs' by done.
  destruct (retry_transaction gw fuel 0 None (drained s)) as [[x t]|] eqn:Hloop;
    [|discriminate].
  apply retry_transaction_frame in Hloop as (_ & _ & calls & Hc & H1 & H3).
  exists calls. simpl in Hc.
  destruct x; injection Hs' as <-; simpl; (split; [done|lia]).
Qed.

(** The cooldown counter of a running server is 0 or 1. *)
Lemma step_clearing_range (ev : Event) (s : Server) :
  0 <= c_clearing s <= 1 -> 0 <= c_clearing (step ev s) <= 1.
Proof.
  intros Hr. destruct ev as [msg limit grantee|gw]; simpl; [done|].
  destruct (check_queue_total RETRY_ROUNDS gw s) as [s' Hs']; [unfold RETRY_ROUNDS; lia|].
  rewrite Hs'. simpl.
  destruct (decide (c_clearing s > 0)) as [H|H].
  { rewrite check_queue_clearing in Hs' by done. injection Hs' as <-. simpl. lia. }
  destruct (decide (a_enqueued s = [])) as [E|E].
  { rewrite check_queue_idle in Hs' by done. by injection Hs' as <-. }
  rewrite check_queue_submit in Hs' by done.
  destruct (retry_transaction gw RETRY_ROUNDS 0 None (drained s)) as [[[r|e] t]|];
    [..|discriminate]; injection Hs' as <-; simpl; lia.
Qed.

Lemma run_clearing_range (evs : list Event) (s : Server) :
  0 <= c_clearing s <= 1 -> 0 <= c_clearing (run evs s) <= 1.
Proof.
  revert s. induction evs as [|ev evs IH]; intros s Hr; [done|].
  apply IH. by apply step_clearing_range.
Qed.

(** ** Promises that nobody holds any more *)

Lemma settlements_of_settle_all (dp : nat) (l : list Enqueued) (w : Settlement) :
  dp ∉ map fke_granted l ->
  filter (fun p : nat * Settlement => p.1 = dp) (settle_all l w) = [].
Proof.
  induction l as [|q l IH]; intros Hn; [done|].
  simpl in *. apply not_elem_of_cons in Hn as [Hq Hl].
  rewrite filter_cons_False by (simpl; congruence). by apply IH.
Qed.

Lemma not_elem_of_map_subseteq (dp : nat) (l l' : list Enqueued) :
  l' ⊆ l -> dp ∉ map fke_granted l -> dp ∉ map fke_granted l'.
Proof.
  intros Hsub Hn Hin. apply Hn.
  apply list_elem_of_fmap in Hin as (q & -> & Hq).
  apply list_elem_of_fmap. exists q. split; [done|]. by apply Hsub.
Qed.

(** A promise that was created, and whose resolver is not in the queue, is
    never settled again, whatever happens next. *)
Lemma step_orphan (ev : Event) (dp : nat) (s : Server) :
  (dp < c_deferred s)%nat -> dp ∉ map fke_granted (a_enqueued s) ->
  (dp < c_deferred (step ev s))%nat
  /\ (dp ∉ map fke_granted (a_enqueued (step ev s)))
  /\ settlements_of dp (step ev s) = settlements_of dp s.
Proof.
  intros Hlt Hn. destruct ev as [msg limit grantee|gw]; simpl.
  - split; [lia|]. split; [|done].
    rewrite map_app. simpl. intros Hin.
    apply elem_of_app in Hin as [?|Hin]; [done|].
    apply list_elem_of_singleton in Hin. lia.
  - destruct (check_queue_total RETRY_ROUNDS gw s) as [s' Hs']; [unfold RETRY_ROUNDS; lia|].
    rewrite Hs'. simpl.
    destruct (decide (c_clearing s > 0)) as [H|H].
    { rewrite check_queue_clearing in Hs' by done. by injection Hs' as <-. }
    destruct (decide (a_enqueued s = [])) as [E|E].
    { rewrite check_queue_idle in Hs' by done. by injection Hs' as <-. }
    rewrite check_queue_submit in Hs' by done.
    destruct (retry_transaction gw RETRY_ROUNDS 0 None (drained s)) as [[x t]|] eqn:Hloop;
      [|discriminate].
    apply retry_transaction_frame in Hloop as (Hd & Hq & _). simpl in Hd, Hq.
    assert (Hnq : dp ∉ map fke_granted (t_enqueued t)).
    { eapply not_elem_of_map_subseteq; [|exact Hn].
      intros q Hin. destruct (Hq q Hin) as [Hin'|?]; [|done].
      by apply elem_of_nil in Hin'. }
    assert (Hnd : dp ∉ map fke_granted (t_dequeued t)).
    { by eapply not_elem_of_map_subseteq. }
    destruct x; injection Hs' as <-; simpl; (split; [done|]); (split; [done|]);
      unfold settlements_of; simpl;
      by rewrite filter_app, settlements_of_settle_all, app_nil_r.
Qed.

Lemma run_orphan (evs : list Event) (dp : nat) (s : Server) :
  (dp < c_deferred s)%nat -> dp ∉ map fke_granted (a_enqueued s) ->
  settlements_of dp (run evs s) = settlements_of dp s.
Proof.
  revert s. induction evs as [|ev evs IH]; intros s Hlt Hn; [done|].
  destruct (step_orphan ev dp s Hlt Hn) as (H1 & H2 & H3).
  simpl. unfold run in IH. rewrite IH by done. done.
Qed.

(** ** The batch: one request per grantee, one copy per payload *)

Lemma with_verdict_cons (v v' : Verdict) (q : Enqueued) (vs : list (Enqueued * Verdict)) :
  with_verdict v ((q, v') :: vs) =
    if decide (v' = v) then q :: with_verdict v vs else with_verdict v vs.
Proof.
  unfold with_verdict. rewrite filter_cons. simpl.
  by destruct (decide (v' = v)).
Qed.

Lemma verdict_duplicate (q : Enqueued) (s : Reduction) :
  safe_bytes_to_base64 (atu8_msg q) ∈ as_msgs s -> verdict q s = Duplicate.
Proof. intros H. unfold verdict. by rewrite decide_True. Qed.

Lemma verdict_postponed (q : Enqueued) (s : Reduction) :
  safe_bytes_to_base64 (atu8_msg q) ∉ as_msgs s -> sa_grantee q ∈ as_grantees s ->
  verdict q s = Postponed.
Proof. intros H1 H2. unfold verdict. rewrite decide_False by done. by rewrite decide_True. Qed.

Lemma verdict_accepted (q : Enqueued) (s : Reduction) :
  safe_bytes_to_base64 (atu8_msg q) ∉ as_msgs s -> sa_grantee q ∉ as_grantees s ->
  verdict q s = Accepted.
Proof. intros H1 H2. unfold verdict. rewrite decide_False by done. by rewrite decide_False. Qed.

(** As [callback_cases], for goals that also mention the verdict. *)
Ltac visit_cases q s :=
  destruct (decide (safe_bytes_to_base64 (atu8_msg q) ∈ as_msgs s)) as [?Hdup|?Hnew];
  [ rewrite (reduce_callback_duplicate q s), (verdict_duplicate q s) by assumption
  | destruct (decide (sa_grantee q ∈ as_grantees s)) as [?Hclaimed|?Hfree];
    [ rewrite (reduce_callback_postpone q s), (verdict_postponed q s) by assumption
    | rewrite (reduce_callback_accept q s), (verdict_accepted q s) by assumption ] ];
  rewrite with_verdict_cons; simpl.

(** The batch is the payloads of the accepted requests, in order. *)
Lemma array_reduce_a_out (n k : nat) (s : Reduction) :
  a_out (array_reduce n k s)
  = a_out s ++ map atu8_msg (with_verdict Accepted (visits n k s)).
Proof.
  revert k s. induction n as [|n IH]; intros k s; simpl; [by rewrite app_nil_r|].
  destruct (r_dequeued s !! k) as [q|]; [|apply IH].
  rewrite IH. visit_cases q s; try done.
  simpl. by rewrite <- app_assoc.
Qed.

(** The postponed list is the postponed requests, in order. *)
Lemma array_reduce_a_postponed (n k : nat) (s : Reduction) :
  a_postponed (array_reduce n k s)
  = a_postponed s ++ with_verdict Postponed (visits n k s).
Proof.
  revert k s. induction n as [|n IH]; intros k s; simpl; [by rewrite app_nil_r|].
  destruct (r_dequeued s !! k) as [q|]; [|apply IH].
  rewrite IH. visit_cases q s; try done.
  simpl. by rewrite <- app_assoc.
Qed.

(** Accepted requests have pairwise different grantees, none of them claimed
    before. *)
Lemma visits_grantees (n k : nat) (s : Reduction) :
  NoDup (map sa_grantee (with_verdict Accepted (visits n k s)))
  /\ (forall q, q ∈ with_verdict Accepted (visits n k s) -> sa_grantee q ∉ as_grantees s).
Proof.
  revert k s. induction n as [|n IH]; intros k s; simpl.
  { split; [constructor|]. intros q Hq. by apply elem_of_nil in Hq. }
  destruct (r_dequeued s !! k) as [q|]; [|apply IH].
  visit_cases q s.
  - apply IH.
  - match goal with |- context [visits n (S k) ?s'] =>
      destruct (IH (S k) s') as [Hnd Hfresh] end.
    split; [done|]. intros q' Hq'. by apply Hfresh in Hq'.
  - match goal with |- context [visits n (S k) ?s'] =>
      destruct (IH (S k) s') as [Hnd Hfresh] end.
    simpl in Hfresh. split.
    + constructor; [|done]. intros Hin.
      apply list_elem_of_fmap in Hin as (q' & Heq & Hq').
      apply Hfresh in Hq'. apply Hq'. rewrite <- Heq.
      apply elem_of_union_r. by apply elem_of_singleton.
    + intros q' Hq'. apply elem_of_cons in Hq' as [->|Hq']; [done|].
      apply Hfresh in Hq'. intros Hin. apply Hq'. by apply elem_of_union_l.
Qed.

(** Accepted requests have pairwise different base64 keys, none seen before. *)
Lemma visits_msgs (n k : nat) (s : Reduction) :
  NoDup (map (fun q => safe_bytes_to_base64 (atu8_msg q))
           (with_verdict Accepted (visits n k s)))
  /\ (forall q, q ∈ with_verdict Accepted (visits n k s) ->
        safe_bytes_to_base64 (atu8_msg q) ∉ as_msgs s).
Proof.
  revert k s. induction n as [|n IH]; intros k s; simpl.
  { split; [constructor|]. intros q Hq. by apply elem_of_nil in Hq. }
  destruct (r_dequeued s !! k) as [q|]; [|apply IH].
  visit_cases q s.
  - apply IH.
  - match goal with |- context [visits n (S k) ?s'] =>
      destruct (IH (S k) s') as [Hnd Hfresh] end.
    simpl in Hfresh. split; [done|].
    intros q' Hq'. apply Hfresh in Hq'. intros Hin. apply Hq'.
    by apply elem_of_union_l.
  - match goal with |- context [visits n (S k) ?s'] =>
      destruct (IH (S k) s') as [Hnd Hfresh] end.
    simpl in Hfresh. split.
    + constructor; [|done]. intros Hin.
      apply list_elem_of_fmap in Hin as (q' & Heq & Hq').
      apply Hfresh in Hq'. apply Hq'. rewrite <- Heq.
      apply elem_of_union_r. by apply elem_of_singleton.
    + intros q' Hq'. apply elem_of_cons in Hq' as [->|Hq']; [done|].
      apply Hfresh in Hq'. intros Hin. apply Hq'. by apply elem_of_union_l.
Qed.

Lemma build_batch_a_out (a_dequeued : list Enqueued) :
  a_out (build_batch a_dequeued) = map atu8_msg (batch_requests a_dequeued).
Proof. unfold build_batch, batch_requests. by rewrite array_reduce_a_out. Qed.

(** In every batch, each grantee has at most one request among those whose
    payloads were placed into it. *)
Lemma batch_grantees_unique (a_dequeued : list Enqueued) :
  NoDup (map sa_grantee (batch_requests a_dequeued)).
Proof. apply visits_grantees. Qed.

(** In every batch, the payloads are pairwise different byte strings. *)
Lemma batch_payloads_distinct (a_dequeued : list Enqueued) :
  NoDup (a_out (build_batch a_dequeued)).
Proof.
  rewrite build_batch_a_out.
  pose proof (proj1 (visits_msgs (length a_dequeued) 0 (reduction_start a_dequeued))) as H.
  fold (batch_requests a_dequeued) in H.
  change (map (fun q => safe_bytes_to_base64 (atu8_msg q)) (batch_requests a_dequeued))
    with (((fun q => safe_bytes_to_base64 (atu8_msg q)) <$> batch_requests a_dequeued)) in H.
  rewrite (list_fmap_compose atu8_msg safe_bytes_to_base64) in H.
  by apply NoDup_fmap_1 in H.
Qed.

(** The callback calls a request a duplicate only when its key is already
    in [as_msgs], put there by an earlier request, accepted or postponed, with
    the very same bytes. *)
Lemma visits_duplicate (n k : nat) (s : Reduction)
    (l1 l2 : list (Enqueued * Verdict)) (q : Enqueued) :
  visits n k s = l1 ++ (q, Duplicate) :: l2 ->
  safe_bytes_to_base64 (atu8_msg q) ∈ as_msgs s
  \/ exists q' v', (q', v') ∈ l1 /\ v' <> Duplicate /\ atu8_msg q' = atu8_msg q.
Proof.
  revert k s l1. induction n as [|n IH]; intros k s l1 Hv; simpl in Hv.
  { by destruct l1. }
  destruct (r_dequeued s !! k) as [q0|]; [|by eapply IH].
  destruct l1 as [|x l1]; simpl in Hv.
  - injection Hv as -> Hd _. left. unfold verdict in Hd.
    destruct (decide (safe_bytes_to_base64 (atu8_msg q) ∈ as_msgs s)); [done|].
    by destruct (decide (sa_grantee q ∈ as_grantees s)).
  - injection Hv as <- Hv. apply IH in Hv as [Hin|(q' & v' & Hin & Hv' & Heq)].
    + revert Hin. unfold reduce_callback, verdict.
      destruct (decide (safe_bytes_to_base64 (atu8_msg q0) ∈ as_msgs s)) as [?|Hnew];
        [by left|].
      assert (Hkey : safe_bytes_to_base64 (atu8_msg q) ∈
                       as_msgs s ∪ {[ safe_bytes_to_base64 (atu8_msg q0) ]} ->
        safe_bytes_to_base64 (atu8_msg q) ∈ as_msgs s
        \/ atu8_msg q0 = atu8_msg q).
      { intros Hin. apply elem_of_union in Hin as [?|Hin]; [by left|right].
        apply elem_of_singleton in Hin. symmetry. by apply bytes_to_base64_inj. }
      destruct (decide (sa_grantee q0 ∈ as_grantees s)); simpl; intros Hin;
        (destruct (Hkey Hin) as [?|Heq]; [by left|right]);
        eexists q0, _; (split; [by left|]); by split.
    + right. exists q', v'. split; [by right|]. by split.
Qed.

Lemma duplicate_has_earlier_twin (a_dequeued : list Enqueued)
    (l1 l2 : list (Enqueued * Verdict)) (q : Enqueued) :
  visits (length a_dequeued) 0 (reduction_start a_dequeued) = l1 ++ (q, Duplicate) :: l2 ->
  exists q' v', (q', v') ∈ l1 /\ v' <> Duplicate /\ atu8_msg q' = atu8_msg q.
Proof.
  intros Hv. apply visits_duplicate in Hv as [Hin|?]; [|done].
  simpl in Hin. by apply elem_of_empty in Hin.
Qed.

(** ** A claim from request to reply *)

(** GET /claim/secret1user with no allowance on record: the handler enqueues
    one grant and waits; the next block submits a batch of that one message;
    the handler wakes up and replies 200 with the meta and events of the
    outcome; the block after that only counts the cooldown down. *)
Example claim_end_to_end :
  let env := Scenario.env_with (Fulfilled Scenario.twenty_bytes) None in
  let h := Http.handler (Http.get_claim env (Scenario.get_request "secret1user")) in
  let '(waiting, s1) := Http.launch h server_start in
  let s2 := step (EvBlock Scenario.gw_ok) s1 in
  let '(reply, s3) := Http.resume waiting s2 in
  let s4 := step (EvBlock Scenario.gw_ok) s3 in
  length (a_enqueued s1) = 1%nat
  /\ map (fun c => length (sc_msgs c)) (a_signed s2) = [1%nat]
  /\ reply = Http.Replied 200
               (Http.BodyGranted None (h_events Scenario.SUCCESS))
  /\ c_clearing s3 = 1
  /\ c_clearing s4 = 0
  /\ a_signed s4 = a_signed s2.
Proof. vm_compute. repeat split; reflexivity. Qed.

(** * The claims *)

Section Claims.

Import Scenario.

(** C1 (the code departs from it).  Every enqueued request is to have its
    promise settled exactly once.  Two requests for one grantee are drained
    together; the second is postponed, that is, taken off the dequeued list.
    When the signer throws, or when the first broadcast reports a sequence
    mismatch and the loop goes round again, the postponed request is not put
    back on the queue: its promise is not settled by this tick and, its
    resolver being held nowhere, by nothing that happens afterwards. *)
Theorem postponed_request_never_settled :
  let s0 := queued [("secret1a", "p1"); ("secret1a", "p2")] in
  (exists s, check_queue RETRY_ROUNDS gw_down s0 = Some s
     /\ settlements_of 0 s = [Rejected "fetch failed"]
     /\ a_enqueued s = []
     /\ forall evs, settlements_of 1 (run evs s) = [])
  /\ (exists s, check_queue RETRY_ROUNDS gw_retry_once s0 = Some s
     /\ settlements_of 0 s = [Resolved SUCCESS]
     /\ a_enqueued s = []
     /\ forall evs, settlements_of 1 (run evs s) = []).
Proof.
  split; eexists; (split; [vm_compute; reflexivity|]);
    (split; [vm_compute; reflexivity|]); (split; [vm_compute; reflexivity|]);
    intros evs; (rewrite run_orphan;
      [vm_compute; reflexivity | vm_compute; lia | vm_compute; apply not_elem_of_nil]).
Qed.

(** C2 (the code departs from it).  A later request for a grantee that is
    already claimed, with a payload not seen before, is to be removed from
    the dequeued list and postponed.  With three such requests in one drain the
    callback runs on the first two only: removing the second moves the third
    to the index the reduction has just left, so the third is not postponed;
    it stays dequeued and its promise is resolved with the outcome of a
    transaction that carries the first payload alone. *)
Theorem request_after_postponed_one_is_passed_over :
  let r0 := request 0 "secret1a" "p1" in
  let r1 := request 1 "secret1a" "p2" in
  let r2 := request 2 "secret1a" "p3" in
  let b := build_batch [r0; r1; r2] in
  visits 3 0 (reduction_start [r0; r1; r2]) = [(r0, Accepted); (r1, Postponed)]
  /\ a_out b = [payload "p1"]
  /\ a_postponed b = [r1]
  /\ r_dequeued b = [r0; r2]
  /\ exists s,
       check_queue RETRY_ROUNDS gw_ok
         (queued [("secret1a", "p1"); ("secret1a", "p2"); ("secret1a", "p3")]) = Some s
       /\ map sc_msgs (a_signed s) = [[payload "p1"]]
       /\ a_enqueued s = [r1]
       /\ settlements_of 2 s = [Resolved SUCCESS].
Proof.
  repeat (split; [vm_compute; reflexivity|]).
  eexists. split; [vm_compute; reflexivity|].
  repeat split; vm_compute; reflexivity.
Qed.

(** C6 (the code departs from it).  A request whose payload equals an earlier
    payload of the same drain is to be dropped from the batch while its
    promise is still resolved with the batch outcome.  Here the fourth request
    repeats the payload of the third; the third is passed over by the
    reduction (the second was removed in front of it), so the fourth meets an
    unseen payload and a claimed grantee and is postponed: its promise is not
    resolved with the outcome of this batch. *)
Theorem repeated_payload_postponed_not_dropped :
  let r0 := request 0 "secret1a" "p1" in
  let r1 := request 1 "secret1a" "p2" in
  let r2 := request 2 "secret1a" "p3" in
  let r3 := request 3 "secret1a" "p3" in
  let b := build_batch [r0; r1; r2; r3] in
  atu8_msg r3 = atu8_msg r2
  /\ visits 4 0 (reduction_start [r0; r1; r2; r3])
     = [(r0, Accepted); (r1, Postponed); (r3, Postponed)]
  /\ a_out b = [payload "p1"]
  /\ a_postponed b = [r1; r3]
  /\ r_dequeued b = [r0; r2]
  /\ exists s,
       check_queue RETRY_ROUNDS gw_ok
         (queued [("secret1a", "p1"); ("secret1a", "p2");
                  ("secret1a", "p3"); ("secret1a", "p3")]) = Some s
       /\ a_enqueued s = [r1; r3]
       /\ settlements_of 2 s = [Resolved SUCCESS]
       /\ settlements_of 3 s = [].
Proof.
  repeat (split; [vm_compute; reflexivity|]).
  eexists. split; [vm_compute; reflexivity|].
  repeat split; vm_compute; reflexivity.
Qed.


(** C4 as stated fails: two requests of 15000 gas each for one grantee are
    drained together, the second is postponed, and the transaction is signed
    with a gas limit of 15000, not with the 30000 of all drained requests. *)
Lemma gas_limit_leaves_out_postponed :
  let s := queued [("secret1a", "p1"); ("secret1a", "p2")] in
  exists s' call,
    check_queue RETRY_ROUNDS gw_ok s = Some s'
    /\ a_signed s' = [call]
    /\ a_postponed (build_batch (a_enqueued s)) = [request 1 "secret1a" "p2"]
    /\ sum_limits (a_enqueued s) = 30000
    /\ sc_limit call = 15000
    /\ sc_limit call <> sum_limits (a_enqueued s).
Proof.
  eexists _, _. split; [vm_compute; reflexivity|].
  split; [vm_compute; reflexivity|].
  split; [vm_compute; reflexivity|].
  split; [vm_compute; reflexivity|].
  split; [vm_compute; reflexivity|]. vm_compute. discriminate.
Qed.

(** C4, amended.  The gas limit of the transaction a drain submits is the sum
    of the gas limits of the drained requests less those of the requests the
    batch builder postponed: requests with a repeated payload count,
    postponed ones do not.  The same holds in every round of the retry loop,
    for the dequeued list that round starts from. *)
Theorem gas_limit_sums_requests_not_postponed (fuel : nat) (gw : Gateway) (s s' : Server) :
  ~ c_clearing s > 0 -> a_enqueued s <> [] ->
  check_queue fuel gw s = Some s' ->
  (exists call rest,
      a_signed s' = a_signed s ++ call :: rest
      /\ sc_msgs call = a_out (build_batch (a_enqueued s))
      /\ sc_limit call = sum_limits (a_enqueued s)
                         - sum_limits (a_postponed (build_batch (a_enqueued s))))
  /\ (forall z_auth t,
        sc_limit (sign_call z_auth t)
        = sum_limits (t_dequeued t)
          - sum_limits (a_postponed (build_batch (t_dequeued t)))).
Proof.
  intros H E Hs'. split; [|intros z_auth t; apply build_batch_limits].
  rewrite check_queue_submit in Hs' by done.
  destruct fuel as [|fuel]; [discriminate|].
  destruct (retry_transaction gw (S fuel) 0 None (drained s)) as [[x t]|] eqn:Hloop;
    [|discriminate].
  assert (Hsigned : exists rest, t_signed t = a_signed s ++ sign_call None (drained s) :: rest).
  { rewrite retry_transaction_round in Hloop.
    destruct (create_and_sign_tx_direct gw 0 _) as [tx|e];
      [|injection Hloop as <- <-; by exists []].
    destruct (broadcast_result gw 0 tx) as [r|e];
      [|injection Hloop as <- <-; by exists []].
    destruct (mismatched_sequence 0 r) as [sequence|];
      [|injection Hloop as <- <-; by exists []].
    destruct (auth gw 0) as [a|e]; [|injection Hloop as <- <-; by exists []].
    apply retry_transaction_frame in Hloop as (_ & _ & calls & Hc & _).
    exists calls. rewrite Hc. simpl. by rewrite <- app_assoc. }
  destruct Hsigned as [rest Hrest].
  exists (sign_call None (drained s)), rest.
  split; [destruct x; injection Hs' as <-; exact Hrest|].
  split; [reflexivity|]. apply build_batch_limits.
Qed.

Lemma gas_limit_sums_requests_not_postponed_witness :
  let s := queued [("secret1a", "p1"); ("secret1a", "p1"); ("secret1a", "p2")] in
  exists s',
    check_queue RETRY_ROUNDS gw_ok s = Some s'
    /\ exists call rest,
         a_signed s' = a_signed s ++ call :: rest
         /\ sc_msgs call = a_out (build_batch (a_enqueued s))
         /\ sc_limit call = sum_limits (a_enqueued s)
                            - sum_limits (a_postponed (build_batch (a_enqueued s))).
Proof.
  intros s. eexists. split; [vm_compute; reflexivity|].
  eapply (proj1 (gas_limit_sums_requests_not_postponed RETRY_ROUNDS gw_ok s _ _ _ _)).
  Unshelve.
  - vm_compute. discriminate.
  - vm_compute. discriminate.
  - vm_compute. reflexivity.
Defined.

(** C5.  A tick entered while the cooldown counter is positive takes one off
    the counter and does nothing else: the queue, the settled promises and
    the calls to the signer are as before.  A tick whose submission comes to
    an outcome (the loop is left through [break], with a success or with a
    failure it gives in to) returns with the counter at 1. *)
Theorem cooldown_skips_then_is_rearmed (fuel : nat) (gw : Gateway) (s : Server) :
  (c_clearing s > 0 ->
     check_queue fuel gw s =
       Some {| a_enqueued := a_enqueued s;
               c_clearing := c_clearing s - 1;
               c_deferred := c_deferred s;
               settled := settled s;
               a_signed := a_signed s |})
  /\ (forall r t,
        ~ c_clearing s > 0 -> a_enqueued s <> [] ->
        retry_transaction gw fuel 0 None (drained s) = Some (Broke r, t) ->
        exists s', check_queue fuel gw s = Some s'
          /\ c_clearing s' = 1
          /\ settled s' = settled s ++ settle_all (t_dequeued t) (Resolved r)).
Proof.
  split.
  - apply check_queue_clearing.
  - intros r t H E Hloop. rewrite check_queue_submit, Hloop by done.
    eexists. split; [reflexivity|]. by split.
Qed.

Lemma cooldown_skips_then_is_rearmed_witness :
  let s := queued [("secret1a", "p1")] in
  exists s1 s2,
    check_queue RETRY_ROUNDS gw_ok s = Some s1
    /\ c_clearing s1 = 1
    /\ check_queue RETRY_ROUNDS gw_ok s1 = Some s2
    /\ c_clearing s2 = 0
    /\ a_signed s2 = a_signed s1.
Proof.
  intros s.
  destruct (proj2 (cooldown_skips_then_is_rearmed RETRY_ROUNDS gw_ok s)
              SUCCESS (unpostponed None (drained s)))
    as (s1 & Hs1 & Hc1 & Hset); [vm_compute; discriminate..|reflexivity|].
  exists s1. eexists. split; [exact Hs1|]. split; [exact Hc1|].
  split; [apply (proj1 (cooldown_skips_then_is_rearmed RETRY_ROUNDS gw_ok s1)); lia|].
  split; [simpl; lia|reflexivity].
Defined.

(** C10.  On a running server, when the loop is left through [catch] (the
    signer, the broadcast or the account lookup threw), every request still
    on the dequeued list has its promise rejected with that error and the
    cooldown counter is not touched: it keeps the value it had on entry,
    which is 0, and a tick that follows, with a request enqueued in between,
    goes to the signer at once. *)
Theorem thrown_submission_leaves_cooldown (evs : list Event) (fuel : nat)
    (gw : Gateway) (e : Error) (t : Tick) :
  let s := run evs server_start in
  ~ c_clearing s > 0 -> a_enqueued s <> [] ->
  retry_transaction gw fuel 0 None (drained s) = Some (Caught e, t) ->
  exists s',
    check_queue fuel gw s = Some s'
    /\ c_clearing s' = c_clearing s
    /\ c_clearing s' = 0
    /\ settled s' = settled s ++ settle_all (t_dequeued t) (Rejected e)
    /\ forall msg limit grantee gw' rounds, (3 <= rounds)%nat ->
         exists s'' calls,
           check_queue rounds gw' (enqueue msg limit grantee s').2 = Some s''
           /\ a_signed s'' = a_signed s' ++ calls
           /\ (1 <= length calls)%nat.
Proof.
  intros s Hc E Hloop.
  assert (Hzero : c_clearing s = 0).
  { pose proof (run_clearing_range evs server_start) as Hr. simpl in Hr.
    fold s in Hr. lia. }
  rewrite check_queue_submit by done. rewrite Hloop.
  eexists. split; [reflexivity|]. simpl. split; [done|]. split; [done|]. split; [done|].
  intros msg limit grantee gw' rounds Hrounds.
  match goal with |- context [check_queue _ _ ?s1] => set (s_next := s1) end.
  assert (Hc' : ~ c_clearing s_next > 0) by (simpl; lia).
  assert (E' : a_enqueued s_next <> []).
  { simpl. intros Happ. by apply app_eq_nil in Happ as [_ ?]. }
  destruct (check_queue_total rounds gw' s_next) as [s'' Hs'']; [done|].
  destruct (check_queue_attempts _ _ _ _ Hc' E' Hs'') as (calls & Hcalls & Hlen).
  exists s'', calls. split; [done|]. split; [exact Hcalls|lia].
Qed.

Lemma thrown_submission_leaves_cooldown_witness :
  let s := queued [("secret1a", "p1"); ("secret1b", "p2")] in
  exists s',
    check_queue RETRY_ROUNDS gw_down s = Some s'
    /\ c_clearing s' = 0
    /\ settled s' = [(0%nat, Rejected "fetch failed"); (1%nat, Rejected "fetch failed")].
Proof.
  intros s.
  destruct (thrown_submission_leaves_cooldown
              (enqueue_all [("secret1a", "p1"); ("secret1b", "p2")])
              RETRY_ROUNDS gw_down "fetch failed" (attempted None (drained s)))
    as (s' & Hs' & _ & Hc & Hset & _);
    [vm_compute; discriminate|vm_compute; discriminate|reflexivity|].
  exists s'. split; [exact Hs'|]. split; [exact Hc|]. rewrite Hset. reflexivity.
Defined.

(** C7.  For a valid address whose existing allowance is a basic allowance,
    with a first spend limit equal to the decimal text of [XG_ALLOWANCE] and an
    expiration more than 3,600,000 ms after now, [claim] replies 400 with
    the error "Existing feegrant is full and hasn't expired yet" and enqueues
    nothing: the server is as it was. *)
Theorem full_unexpired_feegrant_is_refused (env : Http.Env)
    (d_req : Http.FastifyRequest) (sa : string) (g : Http.Grant)
    (a : Http.Allowance) (c : Http.Coin) (rest : list Http.Coin)
    (xt_expiration : Z) (s : Server) :
  Http.verify_address env (Some sa) = Some sa ->
  Http.queryCosmosFeegrantAllowance env (Http.k_wallet_addr env) sa = Fulfilled (Some g) ->
  Http.allowance g = Some a ->
  Http.at_type a = Some Http.SI_MESSAGE_TYPE_COSMOS_FEEGRANT_BASIC_ALLOWANCE ->
  Http.spend_limit a = Some (c :: rest) ->
  Http.amount c = pretty (Http.XG_ALLOWANCE env) ->
  Http.Date_getTime env (Http.expiration a) = Some xt_expiration ->
  xt_expiration - Http.Date_now_check env > 3600000 ->
  Http.handler (Http.claim env d_req (Some sa))
  = Http.Send 400 (Http.BodyError "Existing feegrant is full and hasn't expired yet")
  /\ Http.launch (Http.handler (Http.claim env d_req (Some sa))) s
     = (Http.Replied 400
          (Http.BodyError "Existing feegrant is full and hasn't expired yet"), s).
Proof.
  intros Hv Hq Ha Hty Hlim Hamt Hexp Hrem.
  assert (Hh : Http.handler (Http.claim env d_req (Some sa))
    = Http.Send 400 (Http.BodyError "Existing feegrant is full and hasn't expired yet")).
  { simpl. unfold Http.claim_handler. rewrite Hv, Hq, Ha.
    rewrite decide_True by done.
    unfold Http.amount_is_full, Http.more_than_an_hour_left.
    rewrite Hlim, Hexp. by rewrite !bool_decide_eq_true_2. }
  split; [exact Hh|]. by rewrite Hh.
Qed.

Lemma full_unexpired_feegrant_is_refused_witness :
  let env := env_with (Fulfilled twenty_bytes) (Some full_grant) in
  Http.handler (Http.claim env (get_request "secret1user") (Some "secret1user"))
  = Http.Send 400 (Http.BodyError "Existing feegrant is full and hasn't expired yet")
  /\ Http.launch (Http.handler (Http.claim env (get_request "secret1user")
                                  (Some "secret1user"))) server_start
     = (Http.Replied 400
          (Http.BodyError "Existing feegrant is full and hasn't expired yet"),
        server_start).
Proof.
  intros env.
  eapply (full_unexpired_feegrant_is_refused env (get_request "secret1user")
            "secret1user" full_grant _ _ _ 1704074400000 server_start);
    reflexivity.
Defined.

(** C8.  For an address that does not begin with "secret1", or that
    [bech32_decode] throws on, or whose decoded payload is not 20 bytes long,
    [claim] replies 400 with the error "Invalid bech32 address" and enqueues
    nothing: the server, its queue included, is as it was. *)
Theorem invalid_address_is_refused (env : Http.Env) (d_req : Http.FastifyRequest)
    (sa : string) (s : Server) :
  String.prefix "secret1" sa = false
  \/ (exists e, Http.bech32_decode env sa = Threw e)
  \/ (exists atu8_data, Http.bech32_decode env sa = Fulfilled atu8_data
                        /\ length atu8_data <> 20%nat) ->
  Http.handler (Http.claim env d_req (Some sa))
  = Http.Send 400 (Http.BodyError "Invalid bech32 address")
  /\ Http.launch (Http.handler (Http.claim env d_req (Some sa))) s
     = (Http.Replied 400 (Http.BodyError "Invalid bech32 address"), s)
  /\ a_enqueued (Http.launch (Http.handler (Http.claim env d_req (Some sa))) s).2
     = a_enqueued s.
Proof.
  intros Hbad.
  assert (Hv : Http.verify_address env (Some sa) = None).
  { unfold Http.verify_address.
    destruct Hbad as [Hp|[[e He]|(d & Hd & Hlen)]].
    - by rewrite Hp.
    - rewrite He. by destruct (String.prefix "secret1" sa).
    - rewrite Hd, decide_False by done. by destruct (String.prefix "secret1" sa). }
  assert (Hh : Http.handler (Http.claim env d_req (Some sa))
    = Http.Send 400 (Http.BodyError "Invalid bech32 address")).
  { simpl. unfold Http.claim_handler. by rewrite Hv. }
  rewrite Hh. by repeat split.
Qed.

Lemma invalid_address_is_refused_witness :
  let env := env_with (Fulfilled twenty_bytes) None in
  let s := queued [("secret1a", "p1")] in
  String.prefix "secret1" "abc" = false
  /\ Http.handler (Http.claim env (get_request "abc") (Some "abc"))
     = Http.Send 400 (Http.BodyError "Invalid bech32 address")
  /\ a_enqueued (Http.launch (Http.handler (Http.claim env (get_request "abc")
                                              (Some "abc"))) s).2
     = a_enqueued s.
Proof.
  intros env s. split; [reflexivity|].
  destruct (invalid_address_is_refused env (get_request "abc") "abc" s) as (H1 & _ & H3).
  - left. reflexivity.
  - split; [exact H1|exact H3].
Defined.




End Claims.


(** * Further properties *)

(** ** The batch builder loses nothing *)

Lemma remove_Permutation (l : list Enqueued) (q : Enqueued) :
  q ∈ l -> l ≡ₚ q :: remove l q.
Proof.
  induction l as [|x l IH]; intros Hin; [by apply elem_of_nil in Hin|].
  simpl. destruct (decide (x = q)) as [->|Hne]; [done|].
  apply elem_of_cons in Hin as [->|Hin]; [done|].
  rewrite (IH Hin) at 1. apply Permutation_swap.
Qed.

Lemma reduce_callback_partition (q : Enqueued) (s : Reduction) :
  q ∈ r_dequeued s ->
  r_dequeued (reduce_callback q s) ++ a_postponed (reduce_callback q s)
  ≡ₚ r_dequeued s ++ a_postponed s.
Proof.
  intros Hin. callback_cases q s; simpl; try done.
  rewrite (remove_Permutation (r_dequeued s) q Hin) at 2.
  rewrite app_assoc. simpl. rewrite <- Permutation_cons_append.
  by rewrite Permutation_middle.
Qed.

Lemma array_reduce_partition (n k : nat) (s : Reduction) :
  r_dequeued (array_reduce n k s) ++ a_postponed (array_reduce n k s)
  ≡ₚ r_dequeued s ++ a_postponed s.
Proof.
  revert k s. induction n as [|n IH]; intros k s; simpl; [done|].
  destruct (r_dequeued s !! k) as [q|] eqn:Hk; [|apply IH].
  rewrite IH. apply reduce_callback_partition. by eapply list_elem_of_lookup_2.
Qed.

(** X1.  The batch builder neither loses nor doubles a request: the requests
    left on the dequeued list together with the postponed ones are the
    drained requests, each as often as it was drained. *)
Theorem build_batch_partition (a_dequeued : list Enqueued) :
  r_dequeued (build_batch a_dequeued) ++ a_postponed (build_batch a_dequeued)
  ≡ₚ a_dequeued.
Proof.
  unfold build_batch. rewrite array_reduce_partition. simpl. by rewrite app_nil_r.
Qed.

(** ** The head of the queue always goes out *)

Lemma remove_other_head (q0 q : Enqueued) (rest : list Enqueued) :
  q <> q0 -> remove (q0 :: rest) q = q0 :: remove rest q.
Proof. intros Hne. simpl. by rewrite decide_False by congruence. Qed.

Lemma array_reduce_keeps_head (n k : nat) (s : Reduction) (q0 : Enqueued)
    (rest : list Enqueued) :
  r_dequeued s = q0 :: rest ->
  safe_bytes_to_base64 (atu8_msg q0) ∈ as_msgs s ->
  exists rest', r_dequeued (array_reduce n k s) = q0 :: rest'.
Proof.
  revert k s rest. induction n as [|n IH]; intros k s rest Hd Hseen; simpl; [by eauto|].
  destruct (r_dequeued s !! k) as [q|]; [|by eapply IH].
  callback_cases q s.
  - by eapply IH.
  - eapply IH; simpl.
    + rewrite Hd. apply remove_other_head. intros ->. done.
    + by apply elem_of_union_l.
  - eapply IH; simpl; [done|]. by apply elem_of_union_l.
Qed.

(** The first request of a drain is always accepted: it stays at the head of
    the dequeued list, and its payload is the first message of the batch. *)
Lemma build_batch_head (q : Enqueued) (l : list Enqueued) :
  exists rest out,
    r_dequeued (build_batch (q :: l)) = q :: rest
    /\ a_out (build_batch (q :: l)) = atu8_msg q :: out.
Proof.
  unfold build_batch. simpl.
  rewrite reduce_callback_accept by (simpl; apply not_elem_of_empty).
  match goal with |- context [array_reduce _ 1 ?s'] => set (s1 := s') end.
  destruct (array_reduce_keeps_head (length l) 1 s1 q l) as [rest Hrest];
    [done|simpl; apply elem_of_union_r; by apply elem_of_singleton|].
  exists rest. eexists. split; [exact Hrest|].
  rewrite array_reduce_a_out. reflexivity.
Qed.

(** ** Why a request is postponed *)

(** As [visit_cases], for goals that mention several verdict lists. *)
Ltac visit_all_cases q s :=
  destruct (decide (safe_bytes_to_base64 (atu8_msg q) ∈ as_msgs s)) as [?Hdup|?Hnew];
  [ rewrite (reduce_callback_duplicate q s), (verdict_duplicate q s) by assumption
  | destruct (decide (sa_grantee q ∈ as_grantees s)) as [?Hclaimed|?Hfree];
    [ rewrite (reduce_callback_postpone q s), (verdict_postponed q s) by assumption
    | rewrite (reduce_callback_accept q s), (verdict_accepted q s) by assumption ] ];
  rewrite !with_verdict_cons; simpl.

Lemma visits_postponed_conflict (n k : nat) (s : Reduction) (q : Enqueued) :
  q ∈ with_verdict Postponed (visits n k s) ->
  (sa_grantee q ∈ as_grantees s
   \/ sa_grantee q ∈ map sa_grantee (with_verdict Accepted (visits n k s)))
  /\ (safe_bytes_to_base64 (atu8_msg q) ∉ as_msgs s)
  /\ (forall q', q' ∈ with_verdict Accepted (visits n k s) ->
        safe_bytes_to_base64 (atu8_msg q') <> safe_bytes_to_base64 (atu8_msg q)).
Proof.
  revert k s. induction n as [|n IH]; intros k s; simpl.
  { intros Hin. by apply elem_of_nil in Hin. }
  destruct (r_dequeued s !! k) as [q0|]; [|apply IH].
  visit_all_cases q0 s.
  - apply IH.
  - intros Hin. apply elem_of_cons in Hin as [->|Hin].
    + split; [by left|]. split; [done|].
      intros q' Hq' Heq. apply visits_msgs in Hq'. apply Hq'. simpl.
      rewrite Heq. apply elem_of_union_r. by apply elem_of_singleton.
    + apply IH in Hin as (Hg & Hm & Hacc). simpl in Hg, Hm.
      split; [done|]. split; [|done]. intros ?. apply Hm. by apply elem_of_union_l.
  - intros Hin. apply IH in Hin as (Hg & Hm & Hacc). simpl in Hg, Hm.
    split; [|split].
    + destruct Hg as [Hg|Hg]; [|right; by right].
      apply elem_of_union in Hg as [?|Hg]; [by left|].
      apply elem_of_singleton in Hg. right. rewrite Hg. by left.
    + intros ?. apply Hm. by apply elem_of_union_l.
    + intros q' Hq'. apply elem_of_cons in Hq' as [->|Hq']; [|by apply Hacc].
      intros Heq. apply Hm. rewrite <- Heq. apply elem_of_union_r.
      by apply elem_of_singleton.
Qed.

(** X2.  A request is postponed only for a real conflict, and what is
    postponed is not sent: a postponed request has the grantee of a request
    whose payload is in the batch, with other bytes than that payload, and its
    own payload is not in the batch. *)
Theorem postponed_for_a_conflict (a_dequeued : list Enqueued) (q : Enqueued) :
  q ∈ a_postponed (build_batch a_dequeued) ->
  (exists q', q' ∈ batch_requests a_dequeued
     /\ sa_grantee q' = sa_grantee q
     /\ atu8_msg q' <> atu8_msg q)
  /\ atu8_msg q ∉ a_out (build_batch a_dequeued).
Proof.
  unfold build_batch at 1. rewrite array_reduce_a_postponed. simpl.
  intros Hin. apply visits_postponed_conflict in Hin as (Hg & _ & Hacc).
  fold (batch_requests a_dequeued) in Hg, Hacc. split.
  - destruct Hg as [Hg|Hg]; [by apply elem_of_empty in Hg|].
    apply list_elem_of_fmap in Hg as (q' & Heq & Hq').
    exists q'. split; [done|]. split; [done|].
    intros Hp. apply (Hacc q' Hq'). by rewrite Hp.
  - rewrite build_batch_a_out. intros Hp.
    apply list_elem_of_fmap in Hp as (q' & Heq & Hq').
    apply (Hacc q' Hq'). by rewrite Heq.
Qed.

Lemma postponed_for_a_conflict_witness :
  let r0 := Scenario.request 0 "secret1a" "p1" in
  let r1 := Scenario.request 1 "secret1a" "p2" in
  r1 ∈ a_postponed (build_batch [r0; r1])
  /\ (exists q', q' ∈ batch_requests [r0; r1]
        /\ sa_grantee q' = sa_grantee r1 /\ atu8_msg q' <> atu8_msg r1)
  /\ atu8_msg r1 ∉ a_out (build_batch [r0; r1]).
Proof.
  intros r0 r1.
  assert (Hin : r1 ∈ a_postponed (build_batch [r0; r1])).
  { vm_compute. apply list_elem_of_singleton. reflexivity. }
  split; [exact Hin|]. exact (postponed_for_a_conflict [r0; r1] r1 Hin).
Defined.

(** ** The reduction as one pass over the list *)

Lemma array_reduce_past_end (n k : nat) (s : Reduction) :
  (length (r_dequeued s) <= k)%nat -> array_reduce n k s = s.
Proof.
  revert k. induction n as [|n IH]; intros k Hk; simpl; [done|].
  rewrite (lookup_ge_None_2 (r_dequeued s) k) by done. apply IH. lia.
Qed.

Lemma remove_middle (P R : list Enqueued) (q : Enqueued) :
  q ∉ P -> remove (P ++ q :: R) q = P ++ R.
Proof.
  induction P as [|x P IH]; intros Hn; simpl.
  - by rewrite decide_True.
  - apply not_elem_of_cons in Hn as [Hne Hn].
    rewrite decide_False by congruence. by rewrite IH.
Qed.

Lemma array_reduce_walk (n : nat) (P R : list Enqueued) (s : Reduction)
    (kept : list Enqueued) (out : list bytes) (post : list Enqueued) :
  r_dequeued s = P ++ R -> NoDup (P ++ R) -> (length R <= n)%nat ->
  walk R (as_grantees s) (as_msgs s) = (kept, out, post) ->
  r_dequeued (array_reduce n (length P) s) = P ++ kept
  /\ a_out (array_reduce n (length P) s) = a_out s ++ out
  /\ a_postponed (array_reduce n (length P) s) = a_postponed s ++ post.
Proof.
  revert P R s kept out post.
  induction n as [|n IH]; intros P R s kept out post Hd Hnd Hlen Hw.
  { destruct R; [|simpl in Hlen; lia]. injection Hw as <- <- <-.
    simpl. by rewrite Hd, !app_nil_r. }
  destruct R as [|q R1].
  { injection Hw as <- <- <-. rewrite array_reduce_past_end.
    - by rewrite Hd, !app_nil_r.
    - rewrite Hd, app_nil_r. lia. }
  simpl. rewrite Hd, list_lookup_middle by done. simpl in Hw, Hlen.
  assert (HP : forall x, length (P ++ [x]) = S (length P)).
  { intros x. rewrite length_app. simpl. lia. }
  destruct (decide (safe_bytes_to_base64 (atu8_msg q) ∈ as_msgs s)) as [Hdup|Hnew].
  - rewrite reduce_callback_duplicate by done.
    destruct (walk R1 (as_grantees s) (as_msgs s)) as [[kept1 out1] post1] eqn:Hw1.
    injection Hw as <- <- <-.
    destruct (IH (P ++ [q]) R1 s kept1 out1 post1) as (H1 & H2 & H3);
      [by rewrite Hd, <- app_assoc|by rewrite <- app_assoc|lia|done|].
    rewrite HP in H1, H2, H3. by rewrite H1, <- app_assoc.
  - destruct (decide (sa_grantee q ∈ as_grantees s)) as [Hclaimed|Hfree].
    + rewrite reduce_callback_postpone by done.
      assert (HqP : q ∉ P).
      { apply NoDup_app in Hnd as (_ & Hdisj & _). intros Hin.
        apply (Hdisj q Hin). by left. }
      destruct R1 as [|q2 R2].
      * injection Hw as <- <- <-. rewrite array_reduce_past_end.
        -- simpl. rewrite Hd, remove_middle by done. by rewrite !app_nil_r.
        -- simpl. rewrite Hd, remove_middle, app_nil_r by done. lia.
      * destruct (walk R2 (as_grantees s)
                    (as_msgs s ∪ {[ safe_bytes_to_base64 (atu8_msg q) ]}))
          as [[kept1 out1] post1] eqn:Hw1.
        injection Hw as <- <- <-.
        match goal with |- context [array_reduce n _ ?s'] => set (s1 := s') end.
        destruct (IH (P ++ [q2]) R2 s1 kept1 out1 post1) as (H1 & H2 & H3).
        -- simpl. rewrite Hd, remove_middle by done. by rewrite <- app_assoc.
        -- rewrite <- app_assoc. simpl.
           eapply sublist_NoDup; [exact Hnd|].
           apply sublist_app; [done|]. by apply sublist_cons.
        -- simpl in Hlen. lia.
        -- exact Hw1.
        -- rewrite HP in H1, H2, H3. rewrite H1, H2, H3. simpl.
           by rewrite <- !app_assoc.
    + rewrite reduce_callback_accept by done.
      destruct (walk R1 (as_grantees s ∪ {[ sa_grantee q ]})
                  (as_msgs s ∪ {[ safe_bytes_to_base64 (atu8_msg q) ]}))
        as [[kept1 out1] post1] eqn:Hw1.
      injection Hw as <- <- <-.
      match goal with |- context [array_reduce n _ ?s'] => set (s1 := s') end.
      destruct (IH (P ++ [q]) R1 s1 kept1 out1 post1) as (H1 & H2 & H3);
        [simpl; by rewrite Hd, <- app_assoc|by rewrite <- app_assoc|lia|exact Hw1|].
      rewrite HP in H1, H2, H3. rewrite H1, H2, H3. simpl.
      by rewrite <- !app_assoc.
Qed.

(** X3.  When the drained tuples are all different (as they are: each holds
    its own resolver), the reduce over the array it splices is the single
    pass [walk]: after a request is postponed, the request behind it is kept
    on the dequeued list without being examined. *)
Theorem build_batch_is_walk (a_dequeued : list Enqueued) :
  NoDup a_dequeued ->
  (r_dequeued (build_batch a_dequeued),
   a_out (build_batch a_dequeued),
   a_postponed (build_batch a_dequeued)) = walk a_dequeued ∅ ∅.
Proof.
  intros Hnd.
  destruct (walk a_dequeued ∅ ∅) as [[kept out] post] eqn:Hw.
  destruct (array_reduce_walk (length a_dequeued) [] a_dequeued
              (reduction_start a_dequeued) kept out post) as (H1 & H2 & H3);
    [done..|].
  unfold build_batch. simpl in H1, H2, H3. by rewrite H1, H2, H3.
Qed.

Lemma build_batch_is_walk_witness :
  let l := [Scenario.request 0 "secret1a" "p1"; Scenario.request 1 "secret1a" "p2";
            Scenario.request 2 "secret1b" "p3"; Scenario.request 3 "secret1b" "p4"] in
  (r_dequeued (build_batch l), a_out (build_batch l), a_postponed (build_batch l))
  = walk l ∅ ∅
  /\ walk l ∅ ∅
     = ([Scenario.request 0 "secret1a" "p1"; Scenario.request 2 "secret1b" "p3";
         Scenario.request 3 "secret1b" "p4"],
        [Scenario.payload "p1"; Scenario.payload "p4"],
        [Scenario.request 1 "secret1a" "p2"]).
Proof.
  intros l. split; [|vm_compute; reflexivity].
  apply build_batch_is_walk.
  apply (bool_decide_unpack _). vm_compute. exact I.
Defined.

Lemma walk_sublist (n : nat) (R : list Enqueued) (grantees msgs : gset string)
    (kept : list Enqueued) (out : list bytes) (post : list Enqueued) :
  (length R <= n)%nat ->
  walk R grantees msgs = (kept, out, post) ->
  kept `sublist_of` R /\ out `sublist_of` map atu8_msg R /\ post `sublist_of` R.
Proof.
  revert R grantees msgs kept out post.
  induction n as [|n IH]; intros R grantees msgs kept out post Hlen Hw.
  { destruct R; [|simpl in Hlen; lia]. by injection Hw as <- <- <-. }
  destruct R as [|q R1]; [by injection Hw as <- <- <-|].
  simpl in Hw, Hlen.
  destruct (decide (safe_bytes_to_base64 (atu8_msg q) ∈ msgs)).
  - destruct (walk R1 grantees msgs) as [[kept1 out1] post1] eqn:Hw1.
    injection Hw as <- <- <-.
    apply IH in Hw1 as (H1 & H2 & H3); [|lia].
    split; [by apply sublist_skip|]. split; by apply sublist_cons.
  - destruct (decide (sa_grantee q ∈ grantees)).
    + destruct R1 as [|q2 R2].
      * injection Hw as <- <- <-.
        split; [apply sublist_nil_l|]. split; [apply sublist_nil_l|done].
      * destruct (walk R2 grantees (msgs ∪ {[ safe_bytes_to_base64 (atu8_msg q) ]}))
          as [[kept1 out1] post1] eqn:Hw1.
        injection Hw as <- <- <-.
        apply IH in Hw1 as (H1 & H2 & H3); [|simpl in Hlen; lia].
        split; [apply sublist_cons; by apply sublist_skip|].
        split; [simpl; by do 2 apply sublist_cons|].
        apply sublist_skip. by apply sublist_cons.
    + destruct (walk R1 (grantees ∪ {[ sa_grantee q ]})
                  (msgs ∪ {[ safe_bytes_to_base64 (atu8_msg q) ]}))
        as [[kept1 out1] post1] eqn:Hw1.
      injection Hw as <- <- <-.
      apply IH in Hw1 as (H1 & H2 & H3); [|lia].
      split; [by apply sublist_skip|].
      split; [simpl; by apply sublist_skip|by apply sublist_cons].
Qed.

(** X4.  The batch builder keeps the order of the queue: the dequeued list it
    leaves, the batch, and the postponed list each follow the order in which
    the requests were drained (each is the drained list, or its payloads,
    with entries taken out). *)
Theorem build_batch_keeps_order (a_dequeued : list Enqueued) :
  NoDup a_dequeued ->
  r_dequeued (build_batch a_dequeued) `sublist_of` a_dequeued
  /\ a_out (build_batch a_dequeued) `sublist_of` map atu8_msg a_dequeued
  /\ a_postponed (build_batch a_dequeued) `sublist_of` a_dequeued.
Proof.
  intros Hnd.
  destruct (walk a_dequeued ∅ ∅) as [[kept out] post] eqn:Hw.
  destruct (array_reduce_walk (length a_dequeued) [] a_dequeued
              (reduction_start a_dequeued) kept out post) as (H1 & H2 & H3);
    [done..|].
  unfold build_batch. simpl in H1, H2, H3. rewrite H1, H2, H3.
  by eapply walk_sublist.
Qed.

Lemma build_batch_keeps_order_witness :
  let l := [Scenario.request 0 "secret1a" "p1"; Scenario.request 1 "secret1a" "p2";
            Scenario.request 2 "secret1b" "p3"] in
  r_dequeued (build_batch l) `sublist_of` l
  /\ a_out (build_batch l) `sublist_of` map atu8_msg l
  /\ a_postponed (build_batch l) `sublist_of` l.
Proof.
  intros l. apply build_batch_keeps_order.
  apply (bool_decide_unpack _). vm_compute. exact I.
Defined.

(** ** A drain without collisions *)

Lemma walk_without_collisions (R : list Enqueued) (grantees msgs : gset string) :
  NoDup (map sa_grantee R) -> NoDup (map atu8_msg R) ->
  (forall q, q ∈ R -> (sa_grantee q ∉ grantees)
                      /\ (safe_bytes_to_base64 (atu8_msg q) ∉ msgs)) ->
  walk R grantees msgs = (R, map atu8_msg R, []).
Proof.
  revert grantees msgs.
  induction R as [|q R IH]; intros grantees msgs Hg Hm Hfresh; [done|].
  simpl in *. apply NoDup_cons in Hg as [Hgq Hg]. apply NoDup_cons in Hm as [Hmq Hm].
  destruct (Hfresh q) as [Hq1 Hq2]; [by left|].
  rewrite decide_False by done. rewrite decide_False by done.
  rewrite IH; [done..|].
  intros q' Hq'. destruct (Hfresh q') as [H1 H2]; [by right|]. split.
  - intros Hin. apply elem_of_union in Hin as [?|Hin]; [done|].
    apply elem_of_singleton in Hin. apply Hgq. rewrite <- Hin.
    by apply (list_elem_of_fmap_2 sa_grantee).
  - intros Hin. apply elem_of_union in Hin as [?|Hin]; [done|].
    apply elem_of_singleton in Hin. apply bytes_to_base64_inj in Hin.
    apply Hmq. rewrite <- Hin. by apply (list_elem_of_fmap_2 atu8_msg).
Qed.

Lemma build_batch_without_collisions (l : list Enqueued) :
  NoDup (map sa_grantee l) -> NoDup (map atu8_msg l) ->
  r_dequeued (build_batch l) = l
  /\ a_out (build_batch l) = map atu8_msg l
  /\ a_postponed (build_batch l) = [].
Proof.
  intros Hg Hm.
  destruct (array_reduce_walk (length l) [] l (reduction_start l)
              l (map atu8_msg l) []) as (H1 & H2 & H3); [done| |done| |done].
  - by apply (NoDup_fmap_1 sa_grantee).
  - apply walk_without_collisions; [done..|].
    intros q _. simpl. split; apply not_elem_of_empty.
Qed.

(** ** One round that comes to an outcome *)

Lemma check_queue_first_round (fuel : nat) (gw : Gateway) (s : Server)
    (tx : SignedTx) (r : TxResultTuple) :
  ~ c_clearing s > 0 -> a_enqueued s <> [] ->
  create_and_sign_tx_direct gw 0 (sign_call None (drained s)) = Fulfilled tx ->
  broadcast_result gw 0 tx = Fulfilled r ->
  (forall sequence, ~ retryable 0 r sequence) ->
  check_queue (S fuel) gw s =
    Some {| a_enqueued := a_postponed (build_batch (a_enqueued s));
            c_clearing := 1;
            c_deferred := c_deferred s;
            settled := settled s
                       ++ settle_all (r_dequeued (build_batch (a_enqueued s))) (Resolved r);
            a_signed := a_signed s ++ [sign_call None (drained s)] |}.
Proof.
  intros H E Hsign Hcast Hfinal. apply mismatched_sequence_none in Hfinal.
  rewrite check_queue_submit, retry_transaction_round by done.
  by rewrite Hsign, Hcast, Hfinal.
Qed.

Lemma check_queue_first_throw (fuel : nat) (gw : Gateway) (s : Server) (e : Error) :
  ~ c_clearing s > 0 -> a_enqueued s <> [] ->
  create_and_sign_tx_direct gw 0 (sign_call None (drained s)) = Threw e
  \/ (exists tx, create_and_sign_tx_direct gw 0 (sign_call None (drained s)) = Fulfilled tx
                 /\ broadcast_result gw 0 tx = Threw e) ->
  check_queue (S fuel) gw s =
    Some {| a_enqueued := [];
            c_clearing := c_clearing s;
            c_deferred := c_deferred s;
            settled := settled s
                       ++ settle_all (r_dequeued (build_batch (a_enqueued s))) (Rejected e);
            a_signed := a_signed s ++ [sign_call None (drained s)] |}.
Proof.
  intros H E Hthrow.
  rewrite check_queue_submit, retry_transaction_round by done.
  destruct Hthrow as [->|(tx & -> & ->)]; reflexivity.
Qed.

(** X5.  A tick whose first round comes to an outcome that is not retried
    deals with every drained request in exactly one way: its promise is
    resolved with that outcome now, or the request is back on the queue for
    a later batch.  The two groups together are the drained requests, each as
    often as drained; one transaction was signed, and the cooldown is armed. *)
Theorem outcome_settles_or_requeues (fuel : nat) (gw : Gateway) (s : Server)
    (tx : SignedTx) (r : TxResultTuple) :
  ~ c_clearing s > 0 -> a_enqueued s <> [] ->
  create_and_sign_tx_direct gw 0 (sign_call None (drained s)) = Fulfilled tx ->
  broadcast_result gw 0 tx = Fulfilled r ->
  (forall sequence, ~ retryable 0 r sequence) ->
  exists s' resolved,
    check_queue (S fuel) gw s = Some s'
    /\ settled s' = settled s ++ settle_all resolved (Resolved r)
    /\ resolved ++ a_enqueued s' ≡ₚ a_enqueued s
    /\ (exists call, a_signed s' = a_signed s ++ [call])
    /\ c_clearing s' = 1.
Proof.
  intros H E Hsign Hcast Hfinal.
  rewrite (check_queue_first_round fuel gw s tx r) by done.
  eexists _, _. split; [reflexivity|]. simpl. split; [reflexivity|].
  split; [|split; [by eexists|done]].
  unfold build_batch. rewrite array_reduce_partition. simpl. by rewrite app_nil_r.
Qed.

Lemma outcome_settles_or_requeues_witness :
  let s := Scenario.queued [("secret1a", "p1"); ("secret1a", "p2"); ("secret1b", "p3")] in
  exists s' resolved,
    check_queue 3 Scenario.gw_ok s = Some s'
    /\ settled s' = settled s ++ settle_all resolved (Resolved Scenario.SUCCESS)
    /\ resolved ++ a_enqueued s' ≡ₚ a_enqueued s
    /\ (exists call, a_signed s' = a_signed s ++ [call])
    /\ c_clearing s' = 1.
Proof.
  intros s.
  apply (outcome_settles_or_requeues 2 Scenario.gw_ok s Scenario.signed Scenario.SUCCESS).
  - vm_compute. discriminate.
  - vm_compute. discriminate.
  - reflexivity.
  - reflexivity.
  - intros sequence [Hcode _]. by apply Hcode.
Defined.

(** X6.  A drain in which no two requests share a grantee or a payload goes
    out whole: the signer gets every payload, in queue order, with the sum of
    all gas limits.  If the outcome is not retried, every drained promise is
    resolved with it, the queue is empty and the cooldown is armed; if the
    signer or the broadcast throws, every drained promise is rejected with
    the error and the cooldown is left alone. *)
Theorem tick_without_collisions (fuel : nat) (gw : Gateway) (s : Server) :
  ~ c_clearing s > 0 -> a_enqueued s <> [] ->
  NoDup (map sa_grantee (a_enqueued s)) -> NoDup (map atu8_msg (a_enqueued s)) ->
  let call := {| sc_msgs := map atu8_msg (a_enqueued s);
                 sc_limit := sum_limits (a_enqueued s);
                 sc_auth := None |} in
  (forall tx r,
      create_and_sign_tx_direct gw 0 call = Fulfilled tx ->
      broadcast_result gw 0 tx = Fulfilled r ->
      (forall sequence, ~ retryable 0 r sequence) ->
      check_queue (S fuel) gw s =
        Some {| a_enqueued := [];
                c_clearing := 1;
                c_deferred := c_deferred s;
                settled := settled s ++ settle_all (a_enqueued s) (Resolved r);
                a_signed := a_signed s ++ [call] |})
  /\ (forall e,
        create_and_sign_tx_direct gw 0 call = Threw e
        \/ (exists tx, create_and_sign_tx_direct gw 0 call = Fulfilled tx
                       /\ broadcast_result gw 0 tx = Threw e) ->
        check_queue (S fuel) gw s =
          Some {| a_enqueued := [];
                  c_clearing := c_clearing s;
                  c_deferred := c_deferred s;
                  settled := settled s ++ settle_all (a_enqueued s) (Rejected e);
                  a_signed := a_signed s ++ [call] |}).
Proof.
  intros H E Hg Hm call.
  destruct (build_batch_without_collisions (a_enqueued s) Hg Hm) as (Hd & Ho & Hp).
  assert (Hcall : sign_call None (drained s) = call).
  { unfold sign_call, call. simpl. by rewrite Hd, Ho. }
  split.
  - intros tx r Hsign Hcast Hfinal.
    rewrite (check_queue_first_round fuel gw s tx r) by (done || by rewrite Hcall).
    by rewrite Hd, Hp, Hcall.
  - intros e Hthrow.
    rewrite (check_queue_first_throw fuel gw s e) by (done || by rewrite Hcall).
    by rewrite Hd, Hcall.
Qed.

Lemma tick_without_collisions_witness :
  let s := Scenario.queued [("secret1a", "p1"); ("secret1b", "p2")] in
  check_queue 3 Scenario.gw_ok s =
    Some {| a_enqueued := [];
            c_clearing := 1;
            c_deferred := 2;
            settled := settle_all (a_enqueued s) (Resolved Scenario.SUCCESS);
            a_signed := [{| sc_msgs := [Scenario.payload "p1"; Scenario.payload "p2"];
                            sc_limit := 30000; sc_auth := None |}] |}.
Proof.
  intros s.
  assert (Hc : ~ c_clearing s > 0) by (vm_compute; discriminate).
  assert (E : a_enqueued s <> []) by (vm_compute; discriminate).
  assert (Hg : NoDup (map sa_grantee (a_enqueued s))).
  { apply (bool_decide_unpack _). vm_compute. exact I. }
  assert (Hm : NoDup (map atu8_msg (a_enqueued s))).
  { apply (bool_decide_unpack _). vm_compute. exact I. }
  destruct (tick_without_collisions 2 Scenario.gw_ok s Hc E Hg Hm) as [Hok _].
  rewrite (Hok Scenario.signed Scenario.SUCCESS eq_refl eq_refl).
  - reflexivity.
  - intros sequence [Hcode _]. by apply Hcode.
Defined.

(** ** What holds of a running server *)

Lemma NoDup_submseteq_up {A : Type} (l1 l2 : list A) :
  l1 ⊆+ l2 -> NoDup l2 -> NoDup l1.
Proof.
  intros Hsub Hnd. apply submseteq_Permutation in Hsub as [k Hk].
  rewrite Hk in Hnd. by apply NoDup_app in Hnd as (? & _ & _).
Qed.

(** Whatever way the loop is left, the requests on its two lists were on
    them before: none is made up, none is doubled. *)
Lemma retry_transaction_submseteq (gw : Gateway) (fuel i_retry : nat)
    (z_auth : option SlimAuthInfo) (t t' : Tick) (x : LoopExit) :
  retry_transaction gw fuel i_retry z_auth t = Some (x, t') ->
  t_dequeued t' ++ t_enqueued t' ⊆+ t_dequeued t ++ t_enqueued t.
Proof.
  revert i_retry z_auth t.
  induction fuel as [|fuel IH]; intros i_retry z_auth t H; [discriminate|].
  rewrite retry_transaction_round in H.
  pose proof (array_reduce_partition (length (t_dequeued t)) 0
                (reduction_start (t_dequeued t))) as Hperm.
  simpl in Hperm. rewrite app_nil_r in Hperm. fold (build_batch (t_dequeued t)) in Hperm.
  assert (Hatt : t_dequeued (attempted z_auth t) ++ t_enqueued (attempted z_auth t)
                 ⊆+ t_dequeued t ++ t_enqueued t).
  { simpl. apply submseteq_skips_r.
    etrans; [|apply Permutation_submseteq, Hperm]. by apply submseteq_inserts_r. }
  destruct (create_and_sign_tx_direct gw i_retry _) as [tx|e];
    [|by injection H as <- <-].
  destruct (broadcast_result gw i_retry tx) as [r|e]; [|by injection H as <- <-].
  destruct (mismatched_sequence i_retry r) as [sequence|].
  - destruct (auth gw i_retry) as [a|e]; [|by injection H as <- <-].
    apply IH in H. by etrans.
  - injection H as <- <-. simpl. apply Permutation_submseteq.
    etrans; [|apply Permutation_app_tail, Hperm].
    rewrite <- app_assoc. apply Permutation_app_head, Permutation_app_comm.
Qed.

Lemma enqueue_in_order (msg : bytes) (limit : Z) (grantee : string) (s : Server) :
  promises_in_order s -> promises_in_order (enqueue msg limit grantee s).2.
Proof.
  intros [Hnd Hlt]. unfold promises_in_order, known_promises in *. simpl.
  rewrite map_app. simpl. split.
  - rewrite <- app_assoc. simpl.
    eapply NoDup_Permutation_proper; [symmetry; apply Permutation_middle|].
    apply NoDup_cons. split; [|done]. intros Hin. apply Hlt in Hin. lia.
  - intros dp Hin. rewrite <- app_assoc in Hin. simpl in Hin.
    apply elem_of_app in Hin as [Hin|Hin].
    + assert (dp < c_deferred s)%nat; [|lia]. apply Hlt. apply elem_of_app. by left.
    + apply elem_of_cons in Hin as [->|Hin]; [lia|].
      assert (dp < c_deferred s)%nat; [|lia]. apply Hlt. apply elem_of_app. by right.
Qed.

Lemma settle_all_promises (l : list Enqueued) (w : Settlement) :
  map fst (settle_all l w) = map fke_granted l.
Proof. unfold settle_all. rewrite map_map. reflexivity. Qed.

Lemma check_queue_in_order (fuel : nat) (gw : Gateway) (s s' : Server) :
  promises_in_order s -> check_queue fuel gw s = Some s' -> promises_in_order s'.
Proof.
  intros [Hnd Hlt] Hs'.
  destruct (decide (c_clearing s > 0)) as [H|H].
  { rewrite check_queue_clearing in Hs' by done. by injection Hs' as <-. }
  destruct (decide (a_enqueued s = [])) as [E|E].
  { rewrite check_queue_idle in Hs' by done. by injection Hs' as <-. }
  rewrite check_queue_submit in Hs' by done.
  destruct (retry_transaction gw fuel 0 None (drained s)) as [[x t]|] eqn:Hloop;
    [|discriminate].
  apply retry_transaction_submseteq in Hloop. simpl in Hloop.
  rewrite app_nil_r in Hloop.
  assert (Hsub : forall w,
    map fke_granted (t_enqueued t) ++ map fst (settled s ++ settle_all (t_dequeued t) w)
    ⊆+ known_promises s).
  { intros w. unfold known_promises.
    rewrite map_app, settle_all_promises.
    rewrite (Permutation_app_comm (map fst (settled s))), app_assoc.
    apply submseteq_skips_r. rewrite <- map_app.
    rewrite (Permutation_app_comm (t_enqueued t)).
    by apply (fmap_submseteq fke_granted). }
  unfold promises_in_order, known_promises.
  destruct x; injection Hs' as <-; simpl; (split;
    [ eapply NoDup_submseteq_up; [apply Hsub|exact Hnd]
    | intros dp Hin; apply Hlt; eapply elem_of_submseteq; [exact Hin|apply Hsub] ]).
Qed.

Lemma run_in_order (evs : list Event) (s : Server) :
  promises_in_order s -> promises_in_order (run evs s).
Proof.
  revert s. induction evs as [|ev evs IH]; intros s Hs; [done|].
  apply IH. destruct ev as [msg limit grantee|gw]; simpl.
  - by apply enqueue_in_order.
  - destruct (check_queue RETRY_ROUNDS gw s) as [s'|] eqn:Hs'; [|done].
    by eapply check_queue_in_order.
Qed.

Lemma server_start_in_order : promises_in_order server_start.
Proof. split; [constructor|]. intros dp Hin. by apply elem_of_nil in Hin. Qed.

Lemma filter_first_none (dp : nat) (l : list (nat * Settlement)) :
  dp ∉ map fst l -> filter (fun p : nat * Settlement => p.1 = dp) l = [].
Proof.
  induction l as [|[dp' w] l IH]; intros Hn; [done|].
  simpl in Hn. apply not_elem_of_cons in Hn as [Hne Hn].
  rewrite filter_cons_False by (simpl; congruence). by apply IH.
Qed.

Lemma filter_first_at_most_once (dp : nat) (l : list (nat * Settlement)) :
  NoDup (map fst l) ->
  (length (filter (fun p : nat * Settlement => p.1 = dp) l) <= 1)%nat.
Proof.
  induction l as [|[dp' w] l IH]; intros Hnd; simpl; [lia|].
  simpl in Hnd. apply NoDup_cons in Hnd as [Hn Hnd].
  rewrite filter_cons. simpl. destruct (decide (dp' = dp)) as [->|Hne]; [|by apply IH].
  rewrite filter_first_none by done. simpl. lia.
Qed.

(** X7.  On a server run from its start, by any enqueues and block ticks with
    any answers of the chain, no promise is settled twice, a promise whose
    resolver still waits in the queue has not been settled, and no resolver
    is in the queue twice. *)
Theorem settled_at_most_once (evs : list Event) (dp : nat) :
  let s := run evs server_start in
  (length (settlements_of dp s) <= 1)%nat
  /\ (dp ∈ map fke_granted (a_enqueued s) -> settlements_of dp s = [])
  /\ NoDup (map fke_granted (a_enqueued s)).
Proof.
  intros s.
  destruct (run_in_order evs server_start server_start_in_order) as [Hnd _].
  fold s in Hnd. unfold known_promises in Hnd.
  apply NoDup_app in Hnd as (Hq & Hdisj & Hs).
  split; [|split; [|done]].
  - unfold settlements_of. rewrite length_map. by apply filter_first_at_most_once.
  - intros Hin. unfold settlements_of. rewrite filter_first_none; [done|].
    by apply Hdisj.
Qed.

(** X8.  On a server run from its start the cooldown counter is 0 or 1: it
    is never negative and never asks for more than one quiet block. *)
Theorem cooldown_is_zero_or_one (evs : list Event) :
  c_clearing (run evs server_start) = 0 \/ c_clearing (run evs server_start) = 1.
Proof.
  pose proof (run_clearing_range evs server_start) as Hr. simpl in Hr. lia.
Qed.

(** ** Every transaction that is signed *)

Lemma sign_call_well_formed (z_auth : option SlimAuthInfo) (t : Tick) :
  t_dequeued t <> [] ->
  well_formed_call (sign_call z_auth t) /\ t_dequeued (attempted z_auth t) <> [].
Proof.
  intros Hne. destruct (t_dequeued t) as [|q l] eqn:Hd; [done|].
  destruct (build_batch_head q l) as (rest & out & Hrest & Hout).
  unfold well_formed_call, sign_call, attempted. simpl. rewrite Hd, Hrest.
  split; [|done]. split; [by rewrite Hout|apply batch_payloads_distinct].
Qed.

Lemma retry_transaction_well_formed (gw : Gateway) (fuel i_retry : nat)
    (z_auth : option SlimAuthInfo) (t t' : Tick) (x : LoopExit) :
  t_dequeued t <> [] -> Forall well_formed_call (t_signed t) ->
  retry_transaction gw fuel i_retry z_auth t = Some (x, t') ->
  Forall well_formed_call (t_signed t').
Proof.
  revert i_retry z_auth t.
  induction fuel as [|fuel IH]; intros i_retry z_auth t Hne Hall H; [discriminate|].
  rewrite retry_transaction_round in H.
  destruct (sign_call_well_formed z_auth t Hne) as [Hwf Hne'].
  assert (Hatt : Forall well_formed_call (t_signed (attempted z_auth t))).
  { simpl. apply Forall_app. split; [done|]. by constructor. }
  destruct (create_and_sign_tx_direct gw i_retry _) as [tx|e];
    [|by injection H as <- <-].
  destruct (broadcast_result gw i_retry tx) as [r|e]; [|by injection H as <- <-].
  destruct (mismatched_sequence i_retry r) as [sequence|].
  - destruct (auth gw i_retry) as [a|e]; [|by injection H as <- <-].
    by eapply IH.
  - by injection H as <- <-.
Qed.

Lemma check_queue_well_formed (fuel : nat) (gw : Gateway) (s s' : Server) :
  Forall well_formed_call (a_signed s) -> check_queue fuel gw s = Some s' ->
  Forall well_formed_call (a_signed s').
Proof.
  intros Hall Hs'.
  destruct (decide (c_clearing s > 0)) as [H|H].
  { rewrite check_queue_clearing in Hs' by done. by injection Hs' as <-. }
  destruct (decide (a_enqueued s = [])) as [E|E].
  { rewrite check_queue_idle in Hs' by done. by injection Hs' as <-. }
  rewrite check_queue_submit in Hs' by done.
  destruct (retry_transaction gw fuel 0 None (drained s)) as [[x t]|] eqn:Hloop;
    [|discriminate].
  apply retry_transaction_well_formed in Hloop; [|done..].
  by destruct x; injection Hs' as <-.
Qed.

(** X9.  Every transaction the server ever hands to the signer carries at
    least one message and no message twice, on the first attempt and on
    every retry. *)
Theorem signed_transactions_well_formed (evs : list Event) (call : SignCall) :
  call ∈ a_signed (run evs server_start) ->
  sc_msgs call <> [] /\ NoDup (sc_msgs call).
Proof.
  assert (Hall : forall s, Forall well_formed_call (a_signed s) ->
                           Forall well_formed_call (a_signed (run evs s))).
  { induction evs as [|ev evs IH]; intros s Hs; [done|].
    apply IH. destruct ev as [msg limit grantee|gw]; simpl; [done|].
    destruct (check_queue RETRY_ROUNDS gw s) as [s'|] eqn:Hs'; [|done].
    by eapply check_queue_well_formed. }
  intros Hin. specialize (Hall server_start (List.Forall_nil _)).
  rewrite Forall_forall in Hall. by apply Hall.
Qed.

Lemma signed_transactions_well_formed_witness :
  let evs := Scenario.enqueue_all [("secret1a", "p1"); ("secret1a", "p1"); ("secret1a", "p2")]
             ++ [EvBlock Scenario.gw_retry_once] in
  let call := {| sc_msgs := [Scenario.payload "p1"]; sc_limit := 30000;
                 sc_auth := Some ("7", "42") |} in
  call ∈ a_signed (run evs server_start)
  /\ sc_msgs call <> [] /\ NoDup (sc_msgs call).
Proof.
  intros evs call.
  assert (Hin : call ∈ a_signed (run evs server_start)).
  { vm_compute. right. left. }
  split; [exact Hin|]. exact (signed_transactions_well_formed evs call Hin).
Defined.

(** ** Who is in the batch *)

Lemma remove_keeps (l : list Enqueued) (q x : Enqueued) :
  x ∈ l -> x <> q -> x ∈ remove l q.
Proof.
  induction l as [|y l IH]; intros Hin Hne; [done|]. simpl.
  destruct (decide (y = q)) as [->|Hy].
  - apply elem_of_cons in Hin as [->|Hin]; done.
  - apply elem_of_cons in Hin as [->|Hin]; [by left|right; by apply IH].
Qed.

(** A request whose payload has been seen is never taken off the list. *)
Lemma array_reduce_keeps_seen (n k : nat) (s : Reduction) (x : Enqueued) :
  x ∈ r_dequeued s ->
  safe_bytes_to_base64 (atu8_msg x) ∈ as_msgs s ->
  x ∈ r_dequeued (array_reduce n k s).
Proof.
  revert k s. induction n as [|n IH]; intros k s Hin Hseen; simpl; [done|].
  destruct (r_dequeued s !! k) as [q|]; [|by apply IH].
  callback_cases q s.
  - by apply IH.
  - apply IH; simpl; [|by apply elem_of_union_l].
    apply remove_keeps; [done|]. by intros ->.
  - apply IH; simpl; [done|by apply elem_of_union_l].
Qed.

Lemma visits_stay (n k : nat) (s : Reduction) (x : Enqueued) (v : Verdict) :
  (x, v) ∈ visits n k s -> v <> Postponed ->
  x ∈ r_dequeued (array_reduce n k s).
Proof.
  revert k s. induction n as [|n IH]; intros k s Hin Hv; simpl in *.
  { by apply elem_of_nil in Hin. }
  destruct (r_dequeued s !! k) as [q|] eqn:Hk; [|by apply IH].
  apply elem_of_cons in Hin as [[= -> ->]|Hin]; [|by apply IH].
  apply list_elem_of_lookup_2 in Hk.
  unfold verdict in Hv. unfold reduce_callback.
  destruct (decide (safe_bytes_to_base64 (atu8_msg q) ∈ as_msgs s)).
  - by apply array_reduce_keeps_seen.
  - destruct (decide (sa_grantee q ∈ as_grantees s)); [done|].
    apply array_reduce_keeps_seen; simpl; [done|].
    apply elem_of_union_r. by apply elem_of_singleton.
Qed.

Lemma with_verdict_elem (v : Verdict) (vs : list (Enqueued * Verdict)) (x : Enqueued) :
  x ∈ with_verdict v vs <-> (x, v) ∈ vs.
Proof.
  unfold with_verdict. rewrite list_elem_of_fmap. split.
  - intros ([x' v'] & -> & Hin). apply list_elem_of_filter in Hin as [Hv Hin].
    simpl in Hv. by subst.
  - intros Hin. exists (x, v). split; [done|]. by apply list_elem_of_filter.
Qed.

(** X10.  The batch is made of the payloads of the accepted requests, in
    order; no two accepted requests have the same grantee; and every accepted
    request stays on the dequeued list, so that it is its promise that gets
    the outcome of the transaction which carries its payload. *)
Theorem batch_one_request_per_grantee (a_dequeued : list Enqueued) :
  a_out (build_batch a_dequeued) = map atu8_msg (batch_requests a_dequeued)
  /\ NoDup (map sa_grantee (batch_requests a_dequeued))
  /\ (forall q, q ∈ batch_requests a_dequeued ->
        q ∈ r_dequeued (build_batch a_dequeued) /\ q ∈ a_dequeued).
Proof.
  split; [apply build_batch_a_out|]. split; [apply visits_grantees|].
  intros q Hq. apply with_verdict_elem in Hq.
  assert (Hin : q ∈ r_dequeued (build_batch a_dequeued)).
  { eapply visits_stay; [exact Hq|done]. }
  split; [done|]. by apply (proj1 (build_batch_subseteq a_dequeued)).
Qed.

(** X11.  The callback treats a request as a duplicate only if a request it
    examined earlier in the same reduction, and accepted or postponed, has
    the very same bytes; the duplicate is left on the dequeued list, to be
    settled with the others. *)
Theorem duplicate_of_equal_bytes (a_dequeued : list Enqueued)
    (l1 l2 : list (Enqueued * Verdict)) (q : Enqueued) :
  visits (length a_dequeued) 0 (reduction_start a_dequeued) = l1 ++ (q, Duplicate) :: l2 ->
  (exists q' v', (q', v') ∈ l1 /\ v' <> Duplicate /\ atu8_msg q' = atu8_msg q)
  /\ q ∈ r_dequeued (build_batch a_dequeued).
Proof.
  intros Hv. split.
  - apply visits_duplicate in Hv as [Hin|?]; [|done].
    simpl in Hin. by apply elem_of_empty in Hin.
  - eapply (visits_stay _ _ _ q Duplicate); [|done].
    rewrite Hv. apply elem_of_app. right. by left.
Qed.

Lemma duplicate_of_equal_bytes_witness :
  let r0 := Scenario.request 0 "secret1a" "p1" in
  let r1 := Scenario.request 1 "secret1a" "p1" in
  (exists q' v', (q', v') ∈ [(r0, Accepted)] /\ v' <> Duplicate /\ atu8_msg q' = atu8_msg r1)
  /\ r1 ∈ r_dequeued (build_batch [r0; r1]).
Proof.
  intros r0 r1.
  apply (duplicate_of_equal_bytes [r0; r1] [(r0, Accepted)] []).
  vm_compute. reflexivity.
Defined.

(** ** The quiet block *)

Section OverlapFacts.

Import Overlap.

Lemma run_enqueue_calls (evs : list Event) (w : World) :
  Forall is_enqueue_call evs ->
  flying (run evs w) = flying w
  /\ c_clearing (server (run evs w)) = c_clearing (server w)
  /\ settled (server (run evs w)) = settled (server w)
  /\ a_signed (server (run evs w)) = a_signed (server w)
  /\ exists added, a_enqueued (server (run evs w)) = a_enqueued (server w) ++ added
       /\ length added = length evs.
Proof.
  revert w. induction evs as [|ev evs IH]; intros w Hall.
  { repeat split; try done. exists []. by rewrite app_nil_r. }
  apply Forall_cons in Hall as [Hev Hall].
  destruct ev as [msg limit grantee| |k a]; [|done..].
  destruct (IH (step (Calls_enqueue msg limit grantee) w) Hall)
    as (H0 & H1 & H2 & H3 & added & H4 & H5).
  change (run (Calls_enqueue msg limit grantee :: evs) w)
    with (run evs (step (Calls_enqueue msg limit grantee) w)).
  rewrite H0, H1, H2, H3, H4. simpl. repeat split; try done.
  eexists. rewrite <- app_assoc. split; [reflexivity|]. simpl. by rewrite H5.
Qed.

(** X12.  A tick that is alone in flight and gets an outcome of its
    broadcast that is not retried ends there: it resolves its dequeued
    promises, arms the cooldown and leaves no tick in flight.  With nothing
    but enqueues in between, the next call of [check_queue] is a quiet one:
    it signs nothing, settles nothing, starts no tick and leaves the queue
    as it is; and the call after that, finding the queue not empty, empties
    it and calls the signer. *)
Theorem one_quiet_block_after_submission (w : World) (f : InFlight)
    (r : TxResultTuple) (evs1 evs2 : list Event) :
  flying w = [f] -> f_awaits f = AwaitsBroadcast ->
  mismatched_sequence (f_retry f) r = None ->
  Forall is_enqueue_call evs1 -> Forall is_enqueue_call evs2 ->
  evs1 ++ evs2 <> [] ->
  let w1 := step (Settles 0 (Broadcast (Fulfilled r))) w in
  let w2 := step Calls_check_queue (run evs1 w1) in
  let w3 := step Calls_check_queue (run evs2 w2) in
  (flying w1 = [] /\ c_clearing (server w1) = 1
   /\ settled (server w1)
      = settled (server w) ++ settle_all (f_dequeued f) (Resolved r))
  /\ (flying w2 = [] /\ a_signed (server w2) = a_signed (server w1)
      /\ settled (server w2) = settled (server w1)
      /\ a_enqueued (server w2) = a_enqueued (server (run evs1 w1)))
  /\ (exists f' call,
        flying w3 = [f'] /\ f_awaits f' = AwaitsSign
        /\ a_signed (server w3) = a_signed (server w2) ++ [call]
        /\ settled (server w3) = settled (server w2)
        /\ a_enqueued (server w3) = []).
Proof.
  intros Hfly Haw Hfinal Hall1 Hall2 Hevs w1 w2 w3.
  assert (Hw1 : w1 = {| server := finished r f (server w); flying := [] |}).
  { unfold w1. simpl. rewrite Hfly. simpl. unfold resume. by rewrite Haw, Hfinal. }
  assert (Hf1 : flying w1 = []) by (by rewrite Hw1).
  assert (Hc1 : c_clearing (server w1) = 1) by (by rewrite Hw1).
  destruct (run_enqueue_calls evs1 w1 Hall1) as (F1 & C1 & S1 & G1 & added1 & Q1 & L1).
  assert (Hstep2 : w2 = {| server :=
                             {| a_enqueued := a_enqueued (server (run evs1 w1));
                                c_clearing := c_clearing (server (run evs1 w1)) - 1;
                                c_deferred := c_deferred (server (run evs1 w1));
                                settled := settled (server (run evs1 w1));
                                a_signed := a_signed (server (run evs1 w1)) |};
                           flying := flying (run evs1 w1) |}).
  { unfold w2. simpl. unfold call_check_queue.
    by rewrite decide_True by (rewrite C1, Hc1; lia). }
  assert (Hf2 : flying w2 = []) by (by rewrite Hstep2; simpl; rewrite F1).
  assert (Hc2 : c_clearing (server w2) = 0)
    by (rewrite Hstep2; simpl; rewrite C1, Hc1; lia).
  assert (Hs2 : settled (server w2) = settled (server w1)) by (by rewrite Hstep2).
  assert (Hg2 : a_signed (server w2) = a_signed (server w1)) by (by rewrite Hstep2).
  assert (Hq2 : a_enqueued (server w2) = a_enqueued (server (run evs1 w1)))
    by (by rewrite Hstep2).
  destruct (run_enqueue_calls evs2 w2 Hall2) as (F2 & C2 & S2 & G2 & added2 & Q2 & L2).
  split; [by rewrite Hw1|]. split; [done|].
  assert (Hq : a_enqueued (server (run evs2 w2)) <> []).
  { rewrite Q2, Hq2, Q1. intros Hnil.
    apply app_eq_nil in Hnil as [Hnil ->]. apply app_eq_nil in Hnil as [_ ->].
    destruct evs1; [|done]. destruct evs2; done. }
  unfold w3. simpl. unfold call_check_queue.
  rewrite decide_False by (rewrite C2, Hc2; lia).
  destruct (a_enqueued (server (run evs2 w2))) as [|q l] eqn:E; [done|].
  simpl. rewrite F2, S2, G2, Hf2. simpl. by eexists _, _.
Qed.

Lemma one_quiet_block_after_submission_witness :
  let w := run [Calls_enqueue (Scenario.payload "p1") 15000 "secret1a";
                Calls_check_queue;
                Settles 0 (Signed (Fulfilled Scenario.signed))] world_start in
  let w1 := step (Settles 0 (Broadcast (Fulfilled Scenario.SUCCESS))) w in
  let w2 := step Calls_check_queue
              (run [Calls_enqueue (Scenario.payload "p2") 15000 "secret1b"] w1) in
  let w3 := step Calls_check_queue (run [] w2) in
  settled (server w1) = [(0%nat, Resolved Scenario.SUCCESS)]
  /\ a_signed (server w2) = a_signed (server w1)
  /\ exists f' call,
       flying w3 = [f'] /\ f_awaits f' = AwaitsSign
       /\ a_signed (server w3) = a_signed (server w2) ++ [call]
       /\ settled (server w3) = settled (server w2)
       /\ a_enqueued (server w3) = [].
Proof.
  intros w w1 w2 w3.
  destruct (one_quiet_block_after_submission w
              {| f_dequeued := [Scenario.request 0 "secret1a" "p1"];
                 f_postponed := []; f_retry := 0; f_auth := None;
                 f_awaits := AwaitsBroadcast |}
              Scenario.SUCCESS
              [Calls_enqueue (Scenario.payload "p2") 15000 "secret1b"] [])
    as ((_ & _ & H1) & (_ & H2 & _) & H3).
  - reflexivity.
  - reflexivity.
  - reflexivity.
  - repeat constructor.
  - constructor.
  - discriminate.
  - split; [exact H1|]. split; [exact H2|exact H3].
Defined.

(** ** A tick that nothing comes between *)

Lemma unbroken_rounds (gw : Gateway) (fuel i_retry : nat)
    (z_auth : option SlimAuthInfo) (t t' : Tick) (x : LoopExit)
    (c : Z) (d : nat) (st : list (nat * Settlement)) :
  retry_transaction gw fuel i_retry z_auth t = Some (x, t') ->
  let s0 := {| a_enqueued := t_enqueued t; c_clearing := c; c_deferred := d;
               settled := st; a_signed := t_signed t |} in
  run (map (Settles 0) (answers gw fuel i_retry z_auth t))
    {| server := (begin_round i_retry z_auth (t_dequeued t) s0).2;
       flying := [(begin_round i_retry z_auth (t_dequeued t) s0).1] |}
  = {| server :=
         match x with
         | Caught e =>
             {| a_enqueued := t_enqueued t'; c_clearing := c; c_deferred := d;
                settled := st ++ settle_all (t_dequeued t') (Rejected e);
                a_signed := t_signed t' |}
         | Broke r =>
             {| a_enqueued := t_enqueued t'; c_clearing := 1; c_deferred := d;
                settled := st ++ settle_all (t_dequeued t') (Resolved r);
                a_signed := t_signed t' |}
         end;
       flying := [] |}.
Proof.
  revert i_retry z_auth t.
  induction fuel as [|fuel IH]; intros i_retry z_auth t H; [discriminate|].
  rewrite retry_transaction_round in H. simpl answers.
  destruct (create_and_sign_tx_direct gw i_retry _) as [tx|e].
  2:{ injection H as <- <-. reflexivity. }
  destruct (broadcast_result gw i_retry tx) as [r|e].
  2:{ injection H as <- <-. reflexivity. }
  destruct (mismatched_sequence i_retry r) as [sequence|] eqn:E.
  2:{ injection H as <- <-. simpl. unfold resume. simpl. rewrite E. reflexivity. }
  destruct (auth gw i_retry) as [a|e].
  2:{ injection H as <- <-. simpl. unfold resume. simpl. rewrite E. reflexivity. }
  specialize (IH (S i_retry) (Some (a.1, sequence)) (attempted z_auth t) H).
  simpl. unfold resume. simpl. rewrite E. simpl. exact IH.
Qed.

(** X26.  The tick run to its end is the tick that nothing comes between:
    when [check_queue] is called with no tick in flight and the answers of
    the chain come in before anything else happens, the server is left as
    [check_queue] run in one piece leaves it, and no tick is in flight. *)
Theorem check_queue_is_an_unbroken_tick (fuel : nat) (gw : Gateway) (s s' : Server) :
  check_queue fuel gw s = Some s' ->
  run (Calls_check_queue :: map (Settles 0) (answers gw fuel 0 None (drained s)))
    {| server := s; flying := [] |}
  = {| server := s'; flying := [] |}.
Proof.
  intros H.
  assert (Hidle : forall l w, flying w = [] -> run (map (Settles 0) l) w = w).
  { induction l as [|a l IHl]; intros w Hw; [done|]. simpl. rewrite Hw. simpl.
    by apply IHl. }
  change (run (Calls_check_queue :: ?l) ?w) with (run l (call_check_queue w)).
  unfold check_queue in H. unfold call_check_queue. simpl.
  destruct (decide (c_clearing s > 0)) as [Hc|Hc].
  { injection H as <-. by apply Hidle. }
  destruct (a_enqueued s) as [|q l] eqn:Hq.
  { injection H as <-. rewrite Hidle by done. by destruct s; simpl in *; subst. }
  destruct (retry_transaction gw fuel 0 None (drained s)) as [[x t']|] eqn:Hloop;
    [|discriminate].
  pose proof (unbroken_rounds gw fuel 0 None (drained s) t' x
                (c_clearing s) (c_deferred s) (settled s) Hloop) as Hrun.
  rewrite <- Hq. etrans; [exact Hrun|]. destruct x; by injection H as <-.
Qed.

Lemma check_queue_is_an_unbroken_tick_witness :
  let s := Scenario.queued [("secret1a", "p1"); ("secret1a", "p2")] in
  exists s',
    check_queue 3 Scenario.gw_retry_once s = Some s'
    /\ answers Scenario.gw_retry_once 3 0 None (drained s)
       = [Signed (Fulfilled Scenario.signed);
          Broadcast (Fulfilled (Scenario.mismatch "42"));
          Authed (Fulfilled ("7", "41"));
          Signed (Fulfilled Scenario.signed);
          Broadcast (Fulfilled Scenario.SUCCESS)]
    /\ run (Calls_check_queue ::
              map (Settles 0) (answers Scenario.gw_retry_once 3 0 None (drained s)))
         {| server := s; flying := [] |}
       = {| server := s'; flying := [] |}.
Proof.
  intros s. eexists. split; [vm_compute; reflexivity|]. split; [reflexivity|].
  apply (check_queue_is_an_unbroken_tick 3 Scenario.gw_retry_once s).
  vm_compute. reflexivity.
Defined.

End OverlapFacts.

(** ** What a claim can come to *)

Section ClaimReplies.

Import Http HttpRuns.

Variable env : Env.

(** X13.  For a valid address with a basic allowance on record, [claim]
    refuses (400, nothing enqueued) exactly when the first spend limit is the
    configured amount and the expiration parses to more than 3,600,000 ms
    from now.  In every other case (amount used in part, no spend limit, an
    expiration that does not parse, one hour left to the millisecond or less)
    it enqueues the revocation for the grantee with 15000 gas; a non-zero
    outcome of that ends the claim with 425 and the chain's reason, and only
    a zero outcome leads on to the grant. *)
Theorem refused_exactly_when_full_and_fresh (sa : string) (g : Grant) (a : Allowance) :
  verify_address env (Some sa) = Some sa ->
  queryCosmosFeegrantAllowance env (k_wallet_addr env) sa = Fulfilled (Some g) ->
  allowance g = Some a ->
  at_type a = Some SI_MESSAGE_TYPE_COSMOS_FEEGRANT_BASIC_ALLOWANCE ->
  let full := exists c rest, spend_limit a = Some (c :: rest)
                             /\ amount c = pretty (XG_ALLOWANCE env) in
  let fresh := exists xt, Date_getTime env (expiration a) = Some xt
                          /\ xt - Date_now_check env > 3600000 in
  (full /\ fresh ->
     claim_handler env (Some sa)
     = Send 400 (BodyError "Existing feegrant is full and hasn't expired yet"))
  /\ (~ (full /\ fresh) ->
      exists k,
        claim_handler env (Some sa)
        = AwaitEnqueue (encode_revoke env (k_wallet_addr env) sa) 15000 sa k
        /\ (forall r, xc_code r <> 0 ->
              k r = Send 425 (BodyError
                      ("Failed to revoke existing feegrant; reason: " ++ sx_res r)))
        /\ (forall r, xc_code r = 0 -> k r = grant_step env sa)).
Proof.
  intros Hv Hq Ha Hty full fresh.
  assert (Hfull : amount_is_full env (spend_limit a) = true <-> full).
  { unfold amount_is_full, full. split.
    - destruct (spend_limit a) as [[|c rest]|]; try discriminate.
      intros H. apply bool_decide_eq_true_1 in H. by exists c, rest.
    - intros (c & rest & -> & Hc). by apply bool_decide_eq_true_2. }
  assert (Hfresh : more_than_an_hour_left env (expiration a) = true <-> fresh).
  { unfold more_than_an_hour_left, fresh. split.
    - destruct (Date_getTime env (expiration a)) as [xt|]; [|discriminate].
      intros H. apply bool_decide_eq_true_1 in H. by exists xt.
    - intros (xt & -> & Hxt). by apply bool_decide_eq_true_2. }
  unfold claim_handler. rewrite Hv, Hq, Ha. rewrite decide_True by done. split.
  - intros [Hf1 Hf2]. apply Hfull in Hf1. apply Hfresh in Hf2. by rewrite Hf1, Hf2.
  - intros Hnot.
    destruct (amount_is_full env (spend_limit a)
              && more_than_an_hour_left env (expiration a)) eqn:Hb.
    + apply andb_true_iff in Hb as [Hb1 Hb2]. destruct Hnot. split.
      * by apply Hfull.
      * by apply Hfresh.
    + eexists. split; [reflexivity|]. split; intros r Hr.
      * by rewrite decide_False.
      * by rewrite decide_True.
Qed.

(** X14.  For a valid address whose grant on record has no allowance of the
    basic type (the allowance is missing, or its '@type' is missing or
    another), [claim] replies 500 "Discovered non-basic allowance" and
    enqueues nothing. *)
Theorem non_basic_allowance_is_an_error (sa : string) (g : Grant) (s : Server) :
  verify_address env (Some sa) = Some sa ->
  queryCosmosFeegrantAllowance env (k_wallet_addr env) sa = Fulfilled (Some g) ->
  (allowance g = None
   \/ exists a, allowance g = Some a
                /\ at_type a <> Some SI_MESSAGE_TYPE_COSMOS_FEEGRANT_BASIC_ALLOWANCE) ->
  claim_handler env (Some sa) = Send 500 (BodyError "Discovered non-basic allowance")
  /\ launch (claim_handler env (Some sa)) s
     = (Replied 500 (BodyError "Discovered non-basic allowance"), s).
Proof.
  intros Hv Hq Hbad.
  assert (Hh : claim_handler env (Some sa)
               = Send 500 (BodyError "Discovered non-basic allowance")).
  { unfold claim_handler. rewrite Hv, Hq.
    destruct Hbad as [->|(a & -> & Hty)]; [done|]. by rewrite decide_False. }
  by rewrite Hh.
Qed.

Lemma grant_step_ends (sa : string) (calls : list EnqueueCall) (status : Z) (b : Body) :
  Ends (grant_step env sa) calls status b ->
  calls = [(encode_grant env (k_wallet_addr env) sa [("500000", "uscrt")]
              (Date_now_grant env + 86400000), 15000, sa)]
  /\ ((status = 200 /\ exists r, xc_code r = 0 /\ b = BodyGranted (g_meta r) (h_events r))
      \/ (status = 550 /\ exists r, xc_code r <> 0 /\ b = BodyChain (sx_res r))).
Proof.
  unfold grant_step. intros H. inversion H as [|msg limit sa' k r calls' st b' Hk]; subst.
  destruct (decide (xc_code r = 0)) as [Hr|Hr]; inversion Hk; subst.
  - split; [done|]. left. split; [done|]. by exists r.
  - split; [done|]. right. split; [done|]. by exists r.
Qed.

(** X15.  With no allowance on record, a claim for a valid address enqueues
    one message and no more: the grant of 500000 uscrt for 24 hours from now,
    with 15000 gas, for the address claimed.  It replies 200 with the meta and
    events of the outcome when the code is zero, and 550 with the chain's
    response otherwise. *)
Theorem first_claim_enqueues_one_grant (sa : string) (calls : list EnqueueCall)
    (status : Z) (b : Body) :
  verify_address env (Some sa) = Some sa ->
  queryCosmosFeegrantAllowance env (k_wallet_addr env) sa = Fulfilled None ->
  Ends (claim_handler env (Some sa)) calls status b ->
  calls = [(encode_grant env (k_wallet_addr env) sa [("500000", "uscrt")]
              (Date_now_grant env + 86400000), 15000, sa)]
  /\ ((status = 200 /\ exists r, xc_code r = 0 /\ b = BodyGranted (g_meta r) (h_events r))
      \/ (status = 550 /\ exists r, xc_code r <> 0 /\ b = BodyChain (sx_res r))).
Proof.
  intros Hv Hq. unfold claim_handler. rewrite Hv, Hq. apply grant_step_ends.
Qed.

Lemma verify_address_same (sa_grantee : option string) (sa : string) :
  verify_address env sa_grantee = Some sa -> sa_grantee = Some sa.
Proof.
  unfold verify_address. destruct sa_grantee as [sa'|]; [|discriminate].
  destruct (String.prefix "secret1" sa'); [|discriminate].
  destruct (bech32_decode env sa') as [d|]; [|discriminate].
  destruct (decide (length d = 20%nat)); [|discriminate]. by intros [= ->].
Qed.

(** X16.  Whatever the chain answers, a claim that comes to a reply has
    enqueued at most two messages, each with 15000 gas and each for the
    address claimed; it replies with one of 200, 400, 425, 500, 550; a 200 or
    550 comes only after something was enqueued, a 425 after exactly one
    message, and a 400 or 500 only when nothing was enqueued. *)
Theorem claim_replies (sa_grantee : option string) (calls : list EnqueueCall)
    (status : Z) (b : Body) :
  Ends (claim_handler env sa_grantee) calls status b ->
  (length calls <= 2)%nat
  /\ Forall (fun c : EnqueueCall => c.1.2 = 15000 /\ sa_grantee = Some c.2) calls
  /\ ((calls = [] /\ (status = 400 \/ status = 500))
      \/ (length calls = 1%nat /\ status = 425)
      \/ (calls <> [] /\ (status = 200 \/ status = 550))).
Proof.
  unfold claim_handler.
  destruct (verify_address env sa_grantee) as [sa|] eqn:Hv.
  2:{ intros H. inversion H; subst. split; [simpl; lia|]. split; [constructor|].
      left. split; [done|]. by left. }
  apply verify_address_same in Hv as ->.
  assert (Hgrant : forall calls status b,
    Ends (grant_step env sa) calls status b ->
    length calls = 1%nat
    /\ Forall (fun c : EnqueueCall => c.1.2 = 15000 /\ Some sa = Some c.2) calls
    /\ (status = 200 \/ status = 550)).
  { intros calls' st b' H. apply grant_step_ends in H as [-> Hst].
    split; [done|]. split; [by repeat constructor|].
    destruct Hst as [[-> _]|[-> _]]; [by left|by right]. }
  destruct (queryCosmosFeegrantAllowance env (k_wallet_addr env) sa) as [[g|]|e].
  - destruct (allowance g) as [a|].
    2:{ intros H. inversion H; subst. split; [simpl; lia|]. split; [constructor|].
        left. split; [done|]. by right. }
    destruct (decide (at_type a = Some SI_MESSAGE_TYPE_COSMOS_FEEGRANT_BASIC_ALLOWANCE)).
    2:{ intros H. inversion H; subst. split; [simpl; lia|]. split; [constructor|].
        left. split; [done|]. by right. }
    destruct (amount_is_full env (spend_limit a)
              && more_than_an_hour_left env (expiration a)).
    { intros H. inversion H; subst. split; [simpl; lia|]. split; [constructor|].
      left. split; [done|]. by left. }
    intros H. inversion H as [|msg limit sa' k r calls' st b' Hk]; subst.
    destruct (decide (xc_code r = 0)).
    + apply Hgrant in Hk as (Hlen & Hall & Hst).
      split; [simpl; lia|]. split; [by constructor|]. right. right. by split.
    + inversion Hk; subst. split; [simpl; lia|]. split; [by repeat constructor|].
      right. left. by split.
  - intros H. apply Hgrant in H as (Hlen & Hall & Hst).
    split; [lia|]. split; [done|]. right. right. split; [|done].
    by destruct calls.
  - intros H. inversion H.
Qed.

End ClaimReplies.

Lemma refused_exactly_when_full_and_fresh_witness :
  (* the allowance expires at 02:00:00; at 01:00:00 sharp there is one hour
     left, which is not more than one hour *)
  let env := Samples.env_at 1704070800000 (Some Scenario.full_grant) in
  exists k,
    Http.claim_handler env (Some "secret1user")
    = Http.AwaitEnqueue (Http.encode_revoke env (Http.k_wallet_addr env) "secret1user")
        15000 "secret1user" k
    /\ k (Scenario.mismatch "42")
       = Http.Send 425 (Http.BodyError
           "Failed to revoke existing feegrant; reason: account sequence mismatch").
Proof.
  intros env.
  destruct (refused_exactly_when_full_and_fresh env "secret1user" Scenario.full_grant
              _ eq_refl eq_refl eq_refl eq_refl) as [_ Hrevoke].
  destruct Hrevoke as (k & Hk & H425 & _).
  - intros [_ (xt & Hxt & Hgt)]. injection Hxt as <-. vm_compute in Hgt. discriminate.
  - exists k. split; [exact Hk|]. apply H425. vm_compute. discriminate.
Defined.

Lemma non_basic_allowance_is_an_error_witness :
  let env := Samples.env_at 1704067200000 (Some Samples.periodic_grant) in
  Http.claim_handler env (Some "secret1user")
  = Http.Send 500 (Http.BodyError "Discovered non-basic allowance")
  /\ Http.launch (Http.claim_handler env (Some "secret1user")) server_start
     = (Http.Replied 500 (Http.BodyError "Discovered non-basic allowance"), server_start).
Proof.
  intros env.
  apply (non_basic_allowance_is_an_error env "secret1user" Samples.periodic_grant
           server_start eq_refl eq_refl).
  right. eexists. split; [reflexivity|]. vm_compute. discriminate.
Defined.

Lemma first_claim_enqueues_one_grant_witness :
  let env := Samples.env_at 1704067200000 None in
  exists calls,
    HttpRuns.Ends (Http.claim_handler env (Some "secret1user")) calls 200
      (Http.BodyGranted None (h_events Scenario.SUCCESS))
    /\ calls = [(Http.encode_grant env "secret1granter" "secret1user"
                   [("500000", "uscrt")] 1704153600000, 15000, "secret1user")].
Proof.
  intros env.
  assert (Hends : HttpRuns.Ends (Http.claim_handler env (Some "secret1user"))
            [(Http.encode_grant env "secret1granter" "secret1user"
                [("500000", "uscrt")] 1704153600000, 15000, "secret1user")] 200
            (Http.BodyGranted None (h_events Scenario.SUCCESS))).
  { apply (HttpRuns.ends_await _ _ _ _ Scenario.SUCCESS). apply HttpRuns.ends_send. }
  eexists. split; [exact Hends|].
  exact (proj1 (first_claim_enqueues_one_grant env "secret1user" _ _ _
                  eq_refl eq_refl Hends)).
Defined.

Lemma claim_replies_witness :
  let env := Samples.env_at 1704070800000 (Some Scenario.full_grant) in
  exists calls,
    HttpRuns.Ends (Http.claim_handler env (Some "secret1user")) calls 550
      (Http.BodyChain "account sequence mismatch")
    /\ length calls = 2%nat
    /\ Forall (fun c : HttpRuns.EnqueueCall =>
                 c.1.2 = 15000 /\ Some "secret1user" = Some c.2) calls.
Proof.
  intros env.
  assert (Hends : exists calls,
    HttpRuns.Ends (Http.claim_handler env (Some "secret1user")) calls 550
      (Http.BodyChain "account sequence mismatch") /\ length calls = 2%nat).
  { eexists. split.
    - apply (HttpRuns.ends_await _ _ _ _ Scenario.SUCCESS).
      apply (HttpRuns.ends_await _ _ _ _ (Scenario.mismatch "42")).
      apply HttpRuns.ends_send.
    - reflexivity. }
  destruct Hends as (calls & Hends & Hlen).
  exists calls. split; [exact Hends|]. split; [exact Hlen|].
  exact (proj1 (proj2 (claim_replies env _ _ _ _ Hends))).
Defined.

(** ** What the pattern finds *)

Section Patterns.

#[local] Arguments String.append !_ _ / : simpl nomatch.


Lemma digits_at_split (s : string) :
  exists post, s = Regex.digits_at s +:+ post
    /\ all_digits (Regex.digits_at s) = true
    /\ starts_with_digit post = false.
Proof.
  induction s as [|c s (post & Hs & Hd & Hp)]; simpl.
  - by exists "".
  - destruct (Regex.is_digit c) eqn:Hc.
    + exists post. simpl. rewrite Hc, Hd. split; [by rewrite <- Hs|done].
    + exists (String c s). simpl. by rewrite Hc.
Qed.

Lemma digits_at_append (d post : string) :
  all_digits d = true -> starts_with_digit post = false ->
  Regex.digits_at (d +:+ post) = d.
Proof.
  intros Hd Hp. induction d as [|c d IH]; simpl in *.
  - destruct post as [|c post]; [done|]. simpl in *. by rewrite Hp.
  - apply andb_true_iff in Hd as [-> Hd]. by rewrite IH.
Qed.

Lemma after_literal_spec (lit s rest : string) :
  Regex.after_literal lit s = Some rest <-> s = lit +:+ rest.
Proof.
  revert s. induction lit as [|a lit IH]; intros s; simpl.
  - split; [by intros [= ->]|by intros ->].
  - destruct s as [|b s]; [done|].
    destruct (Ascii.eqb_spec a b) as [->|Hne].
    + rewrite IH. split; [by intros ->|by intros [= ->]].
    + split; [done|]. intros [= -> _]. done.
Qed.

Lemma match_here_sound (s d : string) :
  Regex.match_here s = Some d ->
  exists post, s = "expected " +:+ d +:+ post
    /\ d <> "" /\ all_digits d = true /\ starts_with_digit post = false.
Proof.
  unfold Regex.match_here.
  destruct (Regex.after_literal "expected " s) as [rest|] eqn:Hlit; [|done].
  apply after_literal_spec in Hlit as ->.
  destruct (digits_at_split rest) as (post & Hrest & Hd & Hp).
  destruct (Regex.digits_at rest) as [|c d'] eqn:Hdig; [done|].
  intros [= <-]. exists post. by rewrite <- Hrest.
Qed.

Lemma match_here_complete (d post : string) :
  d <> "" -> all_digits d = true -> starts_with_digit post = false ->
  Regex.match_here ("expected " +:+ d +:+ post) = Some d.
Proof.
  intros Hne Hd Hp. unfold Regex.match_here.
  rewrite (proj2 (after_literal_spec "expected " _ (d +:+ post))) by done.
  rewrite digits_at_append by done. by destruct d.
Qed.

Lemma exec_expected_parts (log d : string) :
  Regex.exec_expected log = Some d ->
  exists pre post,
    log = pre +:+ "expected " +:+ d +:+ post
    /\ d <> "" /\ all_digits d = true /\ starts_with_digit post = false.
Proof.
  induction log as [|c log IH]; simpl.
  - done.
  - destruct (Regex.match_here (String c log)) as [d'|] eqn:Hm.
    + intros [= ->]. destruct (match_here_sound _ _ Hm) as (post & Hs & Hne & Hd & Hp).
      by exists "", post.
    + intros H. apply IH in H as (pre & post & -> & Hrest).
      by exists (String c pre), post.
Qed.

Lemma exec_expected_some (pre rest : string) (c : ascii) :
  Regex.is_digit c = true ->
  is_Some (Regex.exec_expected (pre +:+ "expected " +:+ String c rest)).
Proof.
  intros Hc. induction pre as [|a pre IH].
  - destruct (digits_at_split (String c rest)) as (post & Hs & Hd & Hp).
    simpl in Hs, Hd. rewrite Hc in Hs, Hd. simpl in Hs.
    assert (Hm : Regex.match_here ("expected " +:+ String c rest)
                 = Some (String c (Regex.digits_at rest))).
    { rewrite Hs.
      apply (match_here_complete (String c (Regex.digits_at rest)) post); done. }
    change ("" +:+ "expected " +:+ String c rest) with ("expected " +:+ String c rest).
    destruct ("expected " +:+ String c rest) eqn:E; [discriminate|].
    simpl. rewrite Hm. by eexists.
  - change (String a pre +:+ "expected " +:+ String c rest)
      with (String a (pre +:+ "expected " +:+ String c rest)).
    simpl. destruct (Regex.match_here _); [by eexists|done].
Qed.

(** X17.  What [/expected (\d+)/] captures is a run of decimal digits, not
    empty, that stands in the log right after the word "expected" and a
    blank, taken to its full length (the next character is not a digit).
    And the pattern finds a sequence in every log that holds the word
    "expected", a blank and a digit: in those logs, and only in those, can the
    loop retry with a sequence override. *)
Theorem exec_expected_spec (log : string) :
  (forall d, Regex.exec_expected log = Some d ->
     exists pre post,
       log = pre +:+ "expected " +:+ d +:+ post
       /\ d <> "" /\ all_digits d = true /\ starts_with_digit post = false)
  /\ (is_Some (Regex.exec_expected log)
      <-> exists pre c rest,
            log = pre +:+ "expected " +:+ String c rest /\ Regex.is_digit c = true).
Proof.
  split; [apply exec_expected_parts|]. split.
  - intros [d Hd]. apply exec_expected_parts in Hd as (pre & post & -> & Hne & Hd & _).
    destruct d as [|c d]; [done|]. simpl in Hd. apply andb_true_iff in Hd as [Hc _].
    by exists pre, c, (d +:+ post).
  - intros (pre & c & rest & -> & Hc). by apply exec_expected_some.
Qed.

Lemma exec_expected_spec_witness :
  exists pre post,
    "account sequence mismatch, expected 42, got 41" = pre +:+ "expected " +:+ "42" +:+ post
    /\ all_digits "42" = true /\ starts_with_digit post = false.
Proof.
  destruct (proj1 (exec_expected_spec "account sequence mismatch, expected 42, got 41") "42")
    as (pre & post & H1 & _ & H3 & H4); [vm_compute; reflexivity|].
  by exists pre, post.
Defined.

(** *** Reading back the sequence the chain printed *)

Lemma pretty_N_char_digit (y : N) : Regex.is_digit (pretty_N_char y) = true.
Proof. unfold pretty_N_char. by repeat case_match. Qed.

Lemma pretty_N_go_digits (x : N) (s : string) :
  all_digits s = true -> all_digits (pretty_N_go x s) = true.
Proof.
  revert s. induction (N.lt_wf_0 x) as [x _ IH]; intros s Hs.
  destruct (decide (x = 0)%N) as [->|Hx]; [by rewrite pretty_N_go_0|].
  rewrite pretty_N_go_step by lia. apply IH; [apply N.div_lt; lia|].
  simpl. by rewrite pretty_N_char_digit.
Qed.

Lemma pretty_N_go_not_empty (x : N) (s : string) :
  s <> "" -> pretty_N_go x s <> "".
Proof.
  revert s. induction (N.lt_wf_0 x) as [x _ IH]; intros s Hs.
  destruct (decide (x = 0)%N) as [->|Hx]; [by rewrite pretty_N_go_0|].
  rewrite pretty_N_go_step by lia. apply IH; [apply N.div_lt; lia|done].
Qed.

Lemma pretty_N_digits (n : N) : all_digits (pretty n) = true /\ pretty n <> "".
Proof.
  unfold pretty, pretty_N. destruct (decide (n = 0)%N) as [->|Hn]; [done|].
  split; [by apply pretty_N_go_digits|].
  rewrite pretty_N_go_step by lia. by apply pretty_N_go_not_empty.
Qed.

Lemma exec_expected_skip (c : ascii) (s : string) :
  Regex.match_here (String c s) = None ->
  Regex.exec_expected (String c s) = Regex.exec_expected s.
Proof. intros H. simpl. by rewrite H. Qed.

Lemma exec_expected_here (s d : string) :
  Regex.match_here s = Some d -> Regex.exec_expected s = Some d.
Proof.
  intros H. destruct s as [|c s]; [by vm_compute in H|]. simpl. by rewrite H.
Qed.

Lemma exec_expected_mismatch_log (expected got : N) :
  Regex.exec_expected (sequence_mismatch_log expected got) = Some (pretty expected).
Proof.
  unfold sequence_mismatch_log.
  change ("account sequence mismatch, expected " +:+ pretty expected
          +:+ ", got " +:+ pretty got +:+ ": incorrect account sequence")
    with ("account sequence mismatch, " +:+ "expected " +:+ pretty expected
          +:+ ", got " +:+ pretty got +:+ ": incorrect account sequence").
  set (tail := "expected " +:+ pretty expected +:+ ", got " +:+ pretty got
               +:+ ": incorrect account sequence").
  change ("account sequence mismatch, " +:+ tail)
    with (String "a" (String "c" (String "c" (String "o" (String "u" (String "n"
         (String "t" (String " " (String "s" (String "e" (String "q" (String "u"
         (String "e" (String "n" (String "c" (String "e" (String " " (String "m"
         (String "i" (String "s" (String "m" (String "a" (String "t" (String "c"
         (String "h" (String "," (String " " tail))))))))))))))))))))))))))).
  do 27 (rewrite exec_expected_skip by reflexivity).
  apply exec_expected_here. unfold tail.
  destruct (pretty_N_digits expected) as [Hd Hne].
  by apply match_here_complete.
Qed.

(** ** The matcher against the pattern told in words *)

Lemma is_digit_decimal (c : ascii) :
  Regex.is_digit c = true <-> decimal_digit c.
Proof.
  unfold decimal_digit.
  destruct c as [[] [] [] [] [] [] [] []];
    (split; [intros H; first [discriminate H | apply (bool_decide_unpack _); vm_compute; exact I]
            |intros H; first [reflexivity
                             | exfalso; revert H; apply (bool_decide_unpack _); vm_compute; exact I]]).
Qed.

Lemma all_digits_decimal (d : string) :
  all_digits d = true <-> forall c, c ∈ list_ascii_of_string d -> decimal_digit c.
Proof.
  induction d as [|a d IH]; simpl.
  - split; [|done]. intros _ c Hc. by apply elem_of_nil in Hc.
  - rewrite andb_true_iff, IH, is_digit_decimal. split.
    + intros [Ha Hd] c Hc. apply elem_of_cons in Hc as [->|Hc]; [done|by apply Hd].
    + intros H. split; [apply H; by left|]. intros c Hc. apply H. by right.
Qed.

Lemma starts_with_digit_decimal (post : string) :
  starts_with_digit post = false <-> forall c rest, post = String c rest -> ~ decimal_digit c.
Proof.
  destruct post as [|a post]; simpl.
  - split; [|done]. by intros _ c rest.
  - split.
    + intros H c rest [= <- _] Hc. apply is_digit_decimal in Hc. congruence.
    + intros H. destruct (Regex.is_digit a) eqn:Ha; [|done].
      apply is_digit_decimal in Ha. by destruct (H a post eq_refl).
Qed.

Lemma match_here_digit (c : ascii) (rest : string) :
  Regex.is_digit c = true ->
  is_Some (Regex.match_here ("expected " +:+ String c rest)).
Proof.
  intros Hc.
  destruct (digits_at_split (String c rest)) as (post & Hs & Hd & Hp).
  simpl in Hs, Hd. rewrite Hc in Hs, Hd. simpl in Hs.
  exists (String c (Regex.digits_at rest)). rewrite Hs.
  by apply (match_here_complete (String c (Regex.digits_at rest)) post).
Qed.

(** The matcher finds [d] in [log] exactly when [d] is the expected
    sequence of [log] as told in words. *)
Lemma exec_expected_digits (log d : string) :
  Regex.exec_expected log = Some d <-> expected_digits log d.
Proof.
  unfold expected_digits. split.
  - revert d. induction log as [|a log IH]; intros d; [done|].
    destruct (Regex.match_here (String a log)) as [d'|] eqn:Hm.
    + rewrite (exec_expected_here _ _ Hm). intros [= ->].
      destruct (match_here_sound _ _ Hm) as (post & Hs & Hne & Hd & Hp).
      exists "", post. split; [done|]. split; [done|].
      split; [by apply all_digits_decimal|]. split; [by apply starts_with_digit_decimal|].
      intros pre' c rest _ _. simpl. lia.
    + rewrite (exec_expected_skip _ _ Hm). intros H.
      apply IH in H as (pre & post & -> & Hne & Hd & Hp & Hfirst).
      exists (String a pre), post. split; [done|]. split; [done|].
      split; [done|]. split; [done|].
      intros pre' c rest Hlog Hc. destruct pre' as [|a' pre'].
      * exfalso. apply is_digit_decimal in Hc.
        destruct (match_here_digit c rest Hc) as [x Hx].
        change ("" +:+ "expected " +:+ String c rest)
          with ("expected " +:+ String c rest) in Hlog.
        rewrite <- Hlog in Hx. congruence.
      * simpl in Hlog. injection Hlog as _ Hlog.
        specialize (Hfirst pre' c rest Hlog Hc). simpl. lia.
  - intros (pre & post & -> & Hne & Hd & Hp & Hfirst).
    apply all_digits_decimal in Hd. apply starts_with_digit_decimal in Hp.
    induction pre as [|a pre IH].
    + apply exec_expected_here. by apply match_here_complete.
    + change (String a pre +:+ "expected " +:+ d +:+ post)
        with (String a (pre +:+ "expected " +:+ d +:+ post)).
      destruct (Regex.match_here (String a (pre +:+ "expected " +:+ d +:+ post)))
        as [d'|] eqn:Hm.
      * exfalso.
        destruct (match_here_sound _ _ Hm) as (post' & Hs & Hne' & Hd' & _).
        destruct d' as [|c d']; [done|].
        simpl in Hd'. apply andb_true_iff in Hd' as [Hc _].
        apply is_digit_decimal in Hc.
        pose proof (Hfirst "" c (d' +:+ post') Hs Hc) as Hle. simpl in Hle. lia.
      * rewrite (exec_expected_skip _ _ Hm). apply IH.
        intros pre' c rest Hlog Hc.
        assert (Hlog' : String a pre +:+ "expected " +:+ d +:+ post
                        = String a pre' +:+ "expected " +:+ String c rest).
        { change (String a (pre +:+ "expected " +:+ d +:+ post)
                  = String a (pre' +:+ "expected " +:+ String c rest)).
          by rewrite Hlog. }
        pose proof (Hfirst (String a pre') c rest Hlog' Hc) as Hle. simpl in Hle. lia.
Qed.

(** The retry test of the loop against the condition told in words. *)
Lemma mismatched_sequence_names (i_retry : nat) (r : TxResultTuple) (sequence : string) :
  mismatched_sequence i_retry r = Some sequence
  <-> names_expected_sequence r sequence /\ (i_retry < 2)%nat.
Proof.
  rewrite mismatched_sequence_retryable. unfold retryable, names_expected_sequence.
  split.
  - intros [Hc (m & Hm & Hs & H32 & Hre & Hlt)].
    split; [|done]. split; [done|]. exists m.
    by rewrite <- exec_expected_digits.
  - intros [[Hc (m & Hm & Hs & H32 & Hre)] Hlt].
    split; [done|]. exists m. by rewrite exec_expected_digits.
Qed.

Lemma mismatched_sequence_unnamed (i_retry : nat) (r : TxResultTuple) :
  mismatched_sequence i_retry r = None
  <-> ((2 <= i_retry)%nat \/ forall sequence, ~ names_expected_sequence r sequence).
Proof.
  split.
  - intros H. destruct (decide (i_retry < 2)%nat) as [Hlt|Hge]; [right|left; lia].
    intros sequence Hn.
    assert (mismatched_sequence i_retry r = Some sequence)
      by (by apply mismatched_sequence_names).
    congruence.
  - intros H. destruct (mismatched_sequence i_retry r) as [sequence|] eqn:E; [|done].
    apply mismatched_sequence_names in E as [Hn Hlt].
    destruct H as [H|H]; [lia|by destruct (H sequence)].
Qed.

(** X18.  The sequence the chain prints is the sequence the loop retries
    with: for an outcome with a non-zero code, codespace "sdk", code 32 and
    the log "account sequence mismatch, expected N, got M: incorrect account
    sequence", on the first or second attempt, the retry test yields the
    decimal text of N, digit for digit. *)
Theorem sequence_read_back (expected got : N) (i_retry : nat)
    (r : TxResultTuple) (m : TxMeta) :
  (i_retry < 2)%nat -> xc_code r <> 0 -> g_meta r = Some m ->
  codespace m = Some "sdk" -> code m = Some 32 ->
  log m = Some (sequence_mismatch_log expected got) ->
  mismatched_sequence i_retry r = Some (pretty expected).
Proof.
  intros Hi Hc Hm Hs H32 Hlog. apply mismatched_sequence_retryable.
  split; [done|]. exists m. rewrite Hlog.
  split; [done|]. split; [done|]. split; [done|].
  split; [exact (exec_expected_mismatch_log expected got)|done].
Qed.

Lemma sequence_read_back_witness :
  mismatched_sequence 1
    {| xc_code := 32; sx_res := "";
       g_meta := Some {| codespace := Some "sdk"; code := Some 32;
                         log := Some (sequence_mismatch_log 1234 1230) |};
       atu8_result := []; h_events := [] |}
  = Some "1234".
Proof.
  eapply (sequence_read_back 1234 1230 1); try reflexivity; [lia|discriminate].
Defined.

End Patterns.

(** ** The retry rule *)

Section RetryRule.

Lemma retry_transaction_first_call (gw : Gateway) (fuel i_retry : nat)
    (z_auth : option SlimAuthInfo) (t t' : Tick) (x : LoopExit) :
  retry_transaction gw fuel i_retry z_auth t = Some (x, t') ->
  exists more, t_signed t' = t_signed t ++ sign_call z_auth t :: more.
Proof.
  destruct fuel as [|fuel]; [done|]. rewrite retry_transaction_round.
  destruct (create_and_sign_tx_direct gw i_retry _) as [tx|e];
    [|intros [= _ <-]; by exists []].
  destruct (broadcast_result gw i_retry tx) as [r|e]; [|intros [= _ <-]; by exists []].
  destruct (mismatched_sequence i_retry r) as [sequence|];
    [|intros [= _ <-]; by exists []].
  destruct (auth gw i_retry) as [a|e]; [|intros [= _ <-]; by exists []].
  intros H. apply retry_transaction_frame in H as (_ & _ & calls & Hc & _).
  exists calls. rewrite Hc. simpl. by rewrite <- app_assoc.
Qed.

(** X24.  The retry rule, round by round.  After a broadcast that returned
    an outcome: if fewer than two retries were made and the outcome names an
    expected sequence (non-zero code, codespace "sdk", code 32,
    [expected <digits>] in the log), the loop fetches the auth and goes
    round again; the next call of the signer carries the batch built anew
    from what is left of the dequeued list, with the fetched account number
    and the digits found as its auth; a throw of the account lookup ends the
    loop in the catch block.  In every other case, and always in the third
    round, the loop ends with this outcome.  A tick calls the signer at most
    three times. *)
Theorem retry_only_on_named_sequence (gw : Gateway) (fuel i_retry : nat)
    (z_auth : option SlimAuthInfo) (t : Tick) (tx : SignedTx) (r : TxResultTuple) :
  create_and_sign_tx_direct gw i_retry (sign_call z_auth t) = Fulfilled tx ->
  broadcast_result gw i_retry tx = Fulfilled r ->
  (forall sequence,
      names_expected_sequence r sequence -> (i_retry < 2)%nat ->
      (forall a_auth, auth gw i_retry = Fulfilled a_auth ->
         let b := build_batch (r_dequeued (build_batch (t_dequeued t))) in
         retry_transaction gw (S (S (S fuel))) i_retry z_auth t
         = retry_transaction gw (S (S fuel)) (S i_retry)
             (Some (a_auth.1, sequence)) (attempted z_auth t)
         /\ exists x t' more,
              retry_transaction gw (S (S (S fuel))) i_retry z_auth t = Some (x, t')
              /\ t_signed t' = t_signed t ++ sign_call z_auth t ::
                   {| sc_msgs := a_out b;
                      sc_limit := sum_limits (r_dequeued b);
                      sc_auth := Some (a_auth.1, sequence) |} :: more)
      /\ (forall e, auth gw i_retry = Threw e ->
            retry_transaction gw (S fuel) i_retry z_auth t
            = Some (Caught e, attempted z_auth t)))
  /\ ((2 <= i_retry)%nat \/ (forall sequence, ~ names_expected_sequence r sequence) ->
      retry_transaction gw (S fuel) i_retry z_auth t
      = Some (Broke r, unpostponed z_auth t))
  /\ (forall s rounds, (3 <= rounds)%nat ->
        exists s' calls,
          check_queue rounds gw s = Some s'
          /\ a_signed s' = a_signed s ++ calls
          /\ (length calls <= 3)%nat).
Proof.
  intros Hsign Hcast. split; [|split].
  - intros sequence Hn Hlt.
    assert (Hretry : mismatched_sequence i_retry r = Some sequence)
      by (by apply mismatched_sequence_names).
    split.
    + intros a_auth Hauth b.
      assert (Hround : retry_transaction gw (S (S (S fuel))) i_retry z_auth t
        = retry_transaction gw (S (S fuel)) (S i_retry)
            (Some (a_auth.1, sequence)) (attempted z_auth t)).
      { rewrite (retry_transaction_round gw (S (S fuel))).
        by rewrite Hsign, Hcast, Hretry, Hauth. }
      split; [done|]. rewrite Hround.
      destruct (retry_transaction_total gw (S (S fuel)) (S i_retry)
                  (Some (a_auth.1, sequence)) (attempted z_auth t))
        as [[x t'] Hloop]; [lia..|].
      destruct (retry_transaction_first_call _ _ _ _ _ _ _ Hloop) as [more Hmore].
      exists x, t', more. split; [done|].
      rewrite Hmore. simpl. by rewrite <- app_assoc.
    + intros e Hauth. rewrite retry_transaction_round.
      by rewrite Hsign, Hcast, Hretry, Hauth.
  - intros Hfinal. apply mismatched_sequence_unnamed in Hfinal.
    rewrite retry_transaction_round. by rewrite Hsign, Hcast, Hfinal.
  - intros s rounds Hrounds.
    destruct (check_queue_total rounds gw s) as [s' Hs']; [done|].
    exists s'.
    destruct (decide (c_clearing s > 0)) as [H|H].
    { exists []. split; [done|]. split; [|simpl; lia].
      rewrite check_queue_clearing in Hs' by done.
      injection Hs' as <-. simpl. by rewrite app_nil_r. }
    destruct (decide (a_enqueued s = [])) as [E|E].
    { exists []. split; [done|]. split; [|simpl; lia].
      rewrite check_queue_idle in Hs' by done.
      injection Hs' as <-. by rewrite app_nil_r. }
    destruct (check_queue_attempts _ _ _ _ H E Hs') as (calls & Hc & Hlen).
    exists calls. split; [done|]. split; [done|lia].
Qed.

Lemma retry_only_on_named_sequence_witness :
  let t := drained (Scenario.queued [("secret1a", "p1")]) in
  names_expected_sequence (Scenario.mismatch "42") "42"
  /\ (exists x t' more,
        retry_transaction Scenario.gw_retry_once 3 0 None t = Some (x, t')
        /\ t_signed t' = sign_call None t ::
             {| sc_msgs := [Scenario.payload "p1"]; sc_limit := 15000;
                sc_auth := Some ("7", "42") |} :: more)
  /\ (exists s' calls,
        check_queue 5 Scenario.gw_retry_once (Scenario.queued [("secret1a", "p1")]) = Some s'
        /\ a_signed s' = calls /\ (length calls <= 3)%nat).
Proof.
  intros t.
  assert (Hn : names_expected_sequence (Scenario.mismatch "42") "42").
  { apply (proj1 (mismatched_sequence_names 0 (Scenario.mismatch "42") "42") eq_refl). }
  destruct (retry_only_on_named_sequence Scenario.gw_retry_once 0 0 None t
              Scenario.signed (Scenario.mismatch "42") eq_refl eq_refl)
    as (Hretry & _ & Hcap).
  split; [exact Hn|]. split.
  - destruct (Hretry "42" Hn) as [Hgo _]; [lia|].
    destruct (Hgo ("7", "41") eq_refl) as (_ & x & t' & more & Hloop & Hsig).
    exists x, t', more. split; [exact Hloop|exact Hsig].
  - destruct (Hcap (Scenario.queued [("secret1a", "p1")]) 5%nat) as (s' & calls & H1 & H2 & H3);
      [lia|].
    exists s', calls. split; [exact H1|]. split; [exact H2|exact H3].
Defined.

Lemma build_batch_parts (a_dequeued : list Enqueued) :
  r_dequeued (build_batch a_dequeued) ++ a_postponed (build_batch a_dequeued)
  ≡ₚ a_dequeued.
Proof.
  unfold build_batch. rewrite array_reduce_partition. simpl. by rewrite app_nil_r.
Qed.

(** X25.  Three sequence mismatches in a row.  When the signer and the
    account lookup answer and every broadcast names an expected sequence,
    the tick ends after the third broadcast, having signed the three batches
    built one from what the other left, and arms the cooldown.  The third
    outcome is resolved to the promises of the requests still on the
    dequeued list after the third build; the requests postponed by the third
    build are back on the queue; the requests postponed by the first and the
    second build are neither.  These four groups are the drained requests,
    each as often as drained. *)
Theorem three_mismatches_end_the_tick (gw : Gateway) (s : Server) (rounds : nat) :
  (3 <= rounds)%nat -> ~ c_clearing s > 0 -> a_enqueued s <> [] ->
  (forall i call, exists tx, create_and_sign_tx_direct gw i call = Fulfilled tx) ->
  (forall i tx, exists r sequence,
      broadcast_result gw i tx = Fulfilled r /\ names_expected_sequence r sequence) ->
  (forall i, exists a, auth gw i = Fulfilled a) ->
  let b1 := build_batch (a_enqueued s) in
  let b2 := build_batch (r_dequeued b1) in
  let b3 := build_batch (r_dequeued b2) in
  exists s' tx3 r3 calls,
    check_queue rounds gw s = Some s'
    /\ broadcast_result gw 2 tx3 = Fulfilled r3
    /\ is_code_32 r3
    /\ a_signed s' = a_signed s ++ calls
    /\ map sc_msgs calls = [a_out b1; a_out b2; a_out b3]
    /\ settled s' = settled s ++ settle_all (r_dequeued b3) (Resolved r3)
    /\ a_enqueued s' = a_postponed b3
    /\ c_clearing s' = 1
    /\ r_dequeued b3 ++ a_postponed b3 ++ a_postponed b2 ++ a_postponed b1
       ≡ₚ a_enqueued s.
Proof.
  intros Hrounds H E Hsign Hcast Hauth b1 b2 b3.
  assert (Hparts : r_dequeued b3 ++ a_postponed b3 ++ a_postponed b2 ++ a_postponed b1
                   ≡ₚ a_enqueued s).
  { subst b3. rewrite (app_assoc (r_dequeued _)), build_batch_parts.
    subst b2. rewrite (app_assoc (r_dequeued _)), build_batch_parts.
    apply build_batch_parts. }
  destruct rounds as [|[|[|fuel]]]; [lia..|].
  rewrite check_queue_submit by done.
  rewrite retry_transaction_round.
  destruct (Hsign 0%nat (sign_call None (drained s))) as [tx1 ->].
  destruct (Hcast 0%nat tx1) as (r1 & d1 & -> & Hn1).
  rewrite (proj2 (mismatched_sequence_names 0 r1 d1)) by (split; [done|lia]).
  destruct (Hauth 0%nat) as [a1 ->].
  rewrite retry_transaction_round.
  destruct (Hsign 1%nat (sign_call (Some (a1.1, d1)) (attempted None (drained s))))
    as [tx2 ->].
  destruct (Hcast 1%nat tx2) as (r2 & d2 & -> & Hn2).
  rewrite (proj2 (mismatched_sequence_names 1 r2 d2)) by (split; [done|lia]).
  destruct (Hauth 1%nat) as [a2 ->].
  rewrite retry_transaction_round.
  destruct (Hsign 2%nat (sign_call (Some (a2.1, d2))
              (attempted (Some (a1.1, d1)) (attempted None (drained s)))))
    as [tx3 Htx3].
  rewrite Htx3.
  destruct (Hcast 2%nat tx3) as (r3 & d3 & Hr3 & Hn3). rewrite Hr3.
  rewrite (proj2 (mismatched_sequence_unnamed 2 r3)) by (left; lia).
  eexists _, tx3, r3, _. split; [reflexivity|]. simpl.
  split; [done|]. split.
  { destruct Hn3 as [Hc (m & Hm & Hs & H32 & _)]. split; [done|]. by exists m. }
  split; [by rewrite <- !app_assoc|]. split; [done|]. split; [done|].
  split; [done|]. split; [done|]. exact Hparts.
Qed.

Lemma three_mismatches_end_the_tick_witness :
  let s := Scenario.queued [("secret1a", "p1"); ("secret1a", "p2")] in
  exists s' r3 calls,
    check_queue 3 Samples.gw_stuck s = Some s'
    /\ a_signed s' = calls
    /\ map sc_msgs calls
       = [[Scenario.payload "p1"]; [Scenario.payload "p1"]; [Scenario.payload "p1"]]
    /\ settled s' = [(0%nat, Resolved r3)]
    /\ a_enqueued s' = [].
Proof.
  intros s.
  assert (Hn : names_expected_sequence (Scenario.mismatch "42") "42").
  { apply (proj1 (mismatched_sequence_names 0 (Scenario.mismatch "42") "42") eq_refl). }
  destruct (three_mismatches_end_the_tick Samples.gw_stuck s 3)
    as (s' & tx3 & r3 & calls & H1 & _ & _ & H4 & H5 & H6 & H7 & _).
  - lia.
  - vm_compute. discriminate.
  - vm_compute. discriminate.
  - intros i call. by exists Scenario.signed.
  - intros i tx. by exists (Scenario.mismatch "42"), "42".
  - intros i. by exists ("7", "41").
  - exists s', r3, calls. split; [exact H1|]. split; [exact H4|].
    split; [exact H5|]. split; [exact H6|exact H7].
Defined.

End RetryRule.

(** ** The timers that pace the queue *)

Section PacerFacts.

Import Pacer.

Lemma cleared_then_set (X : gset nat) (a b : nat) :
  X ⊆ {[ a ]} -> (X ∖ {[ a ]}) ∪ {[ b ]} ⊆ {[ b ]}.
Proof.
  intros H x Hx. apply elem_of_union in Hx as [Hx|Hx]; [|done].
  apply elem_of_difference in Hx as [Hx Hn]. by apply H in Hx.
Qed.

Lemma cleared_is_empty (X : gset nat) (a : nat) : X ⊆ {[ a ]} -> X ∖ {[ a ]} = ∅.
Proof.
  intros H. apply set_eq. intros x. split.
  - intros Hx. apply elem_of_difference in Hx as [Hx Hn]. by apply H in Hx.
  - intros Hx. by apply elem_of_empty in Hx.
Qed.

Lemma cleared_within (X : gset nat) (a b : nat) : X ⊆ {[ a ]} -> X ∖ {[ a ]} ⊆ {[ b ]}.
Proof. intros H. rewrite cleared_is_empty by done. apply empty_subseteq. Qed.

Lemma fired_within (X : gset nat) (id a b : nat) :
  id ∈ X -> X ⊆ {[ a ]} -> X ∖ {[ id ]} ⊆ {[ b ]}.
Proof.
  intros Hid H. assert (id = a) as -> by (apply H in Hid; by apply elem_of_singleton in Hid).
  by apply cleared_within.
Qed.

Lemma zero_not_set (X : gset nat) (a b : nat) :
  0%nat ∉ X -> 0%nat ∉ (X ∖ {[ a ]}) ∪ {[ S b ]}.
Proof.
  intros H0 Hx. apply elem_of_union in Hx as [Hx|Hx].
  - apply elem_of_difference in Hx as [Hx _]. done.
  - by apply elem_of_singleton in Hx.
Qed.

Lemma zero_not_cleared (X : gset nat) (a : nat) : 0%nat ∉ X -> 0%nat ∉ X ∖ {[ a ]}.
Proof. intros H0 Hx. apply elem_of_difference in Hx as [Hx _]. done. Qed.

(** Each conjunct of [tidy] after a callback follows from [tidy] before. *)
Ltac tidy_step :=
  unfold tidy in *; simpl in *;
  repeat match goal with H : _ /\ _ |- _ => destruct H end;
  repeat split;
  first [ assumption | lia
        | by apply cleared_then_set | by apply cleared_within
        | by eapply fired_within
        | by apply zero_not_set | by apply zero_not_cleared
        | (rewrite cleared_is_empty by assumption; apply empty_subseteq)
        | (rewrite cleared_is_empty by assumption;
           first [apply cleared_then_set | apply zero_not_set | apply cleared_within];
           first [apply empty_subseteq | apply not_elem_of_empty]) ].

Lemma check_queue_regularly_tidy (p : State) : tidy p -> tidy (check_queue_regularly p).
Proof. intros Hp. unfold check_queue_regularly. tidy_step. Qed.

Lemma subscribe_new_blocks_tidy (p : State) : tidy p -> tidy (subscribe_new_blocks p).
Proof. intros Hp. unfold subscribe_new_blocks. tidy_step. Qed.

Lemma step_tidy (ev : Event) (p : State) : tidy p -> tidy (step ev p).
Proof.
  intros Hp. destruct ev as [| | | |id| |id]; simpl; try case_decide; try done;
    unfold after_await, on_resubscribe, on_message, on_terminate, on_close,
      on_interval, check_queue_regularly, subscribe_new_blocks; tidy_step.
Qed.

Lemma run_tidy (evs : list Event) (p : State) : tidy p -> tidy (run evs p).
Proof.
  revert p. induction evs as [|ev evs IH]; intros p Hp; [done|].
  apply IH. by apply step_tidy.
Qed.

Lemma start_tidy : tidy start.
Proof.
  unfold tidy, start, subscribe_new_blocks. simpl.
  repeat split; try lia; try apply zero_not_cleared; try apply not_elem_of_empty.
  - apply cleared_within, empty_subseteq.
  - apply empty_subseteq.
Qed.

(** X19.  Whatever the socket and the clock do, at most one polling interval
    and at most one termination timeout are alive at a time, and they are the
    ones whose handles the two module variables hold: no timer is left
    running behind a handle that was overwritten. *)
Theorem one_timer_of_each_kind (evs : list Event) :
  let p := run evs start in
  intervals p ⊆ {[ i_regularly_check p ]}
  /\ timeouts p ⊆ {[ i_terminate p ]}
  /\ (size (intervals p) <= 1)%nat
  /\ (size (timeouts p) <= 1)%nat.
Proof.
  intros p. destruct (run_tidy evs start start_tidy) as (Hi & Ht & _). fold p in Hi, Ht.
  split; [done|]. split; [done|]. split.
  - apply subseteq_size in Hi. by rewrite size_singleton in Hi.
  - apply subseteq_size in Ht. by rewrite size_singleton in Ht.
Qed.

(** X20.  When the termination timeout fires, polling is switched on; but the
    close event that follows (the callback has just closed the socket) calls
    [subscribe_new_blocks], which clears that very interval: from then until
    the new attempt succeeds or times out, no timer is alive that would check
    the queue. *)
Theorem closing_cancels_the_fallback (evs : list Event) (id : nat) :
  let p := run evs start in
  id ∈ timeouts p ->
  let p1 := step (Terminate id) p in
  let p2 := step Close p1 in
  intervals p1 = {[ S (c_handles p) ]}
  /\ timeouts p1 = ∅
  /\ intervals p2 = ∅
  /\ timeouts p2 = ∅
  /\ c_subscribing p2 = S (c_subscribing p)
  /\ c_checks p2 = c_checks p.
Proof.
  intros p Hid p1 p2.
  destruct (run_tidy evs start start_tidy) as (Hi & Ht & _). fold p in Hi, Ht.
  assert (Hidt : id = i_terminate p).
  { apply Ht in Hid. by apply elem_of_singleton in Hid. }
  assert (H1 : intervals p1 = {[ S (c_handles p) ]}).
  { unfold p1. simpl. rewrite decide_True by done. simpl.
    rewrite cleared_is_empty by done. apply (left_id_L ∅ (∪)). }
  assert (H2 : timeouts p1 = ∅).
  { unfold p1. simpl. rewrite decide_True by done. simpl.
    subst id. by apply cleared_is_empty. }
  assert (H3 : i_regularly_check p1 = S (c_handles p)).
  { unfold p1. simpl. by rewrite decide_True. }
  split; [done|]. split; [done|].
  unfold p2. simpl. rewrite H1, H2, H3. split; [|split].
  - apply cleared_is_empty. done.
  - apply cleared_is_empty. apply empty_subseteq.
  - unfold p1. simpl. by rewrite decide_True.
Qed.

Lemma closing_cancels_the_fallback_witness :
  let p := run [Subscribed; Message] start in
  let p2 := step Close (step (Terminate 1) p) in
  1%nat ∈ timeouts p /\ intervals p2 = ∅ /\ timeouts p2 = ∅.
Proof.
  intros p p2.
  assert (Hid : 1%nat ∈ timeouts p).
  { vm_compute. apply (bool_decide_unpack _). vm_compute. exact I. }
  destruct (closing_cancels_the_fallback [Subscribed; Message] 1 Hid)
    as (_ & _ & H3 & H4 & _).
  split; [exact Hid|]. split; [exact H3|exact H4].
Defined.

(** X21.  A subscription attempt that times out switches polling on and sets
    the timer for the next attempt; when that timer fires, the new attempt
    begins by clearing the polling interval again.  And an attempt that ends
    in time changes no timer at all: the termination timeout is armed by a
    block message only, so a socket that opens and then stays silent is
    never given up. *)
Theorem polling_lasts_until_next_attempt (evs : list Event) :
  let p := run evs start in
  (0 < c_subscribing p)%nat ->
  let p1 := step TimedOut p in
  intervals p1 = {[ i_regularly_check p1 ]}
  /\ c_resubscribe p1 = S (c_resubscribe p)
  /\ intervals (step Resubscribe p1) = ∅
  /\ intervals (step Subscribed p) = intervals p
  /\ timeouts (step Subscribed p) = timeouts p.
Proof.
  intros p Hsub p1.
  destruct (run_tidy evs start start_tidy) as (Hi & Ht & _). fold p in Hi, Ht.
  assert (H1 : intervals p1 = {[ i_regularly_check p1 ]}).
  { unfold p1. simpl. rewrite decide_True by done. simpl.
    rewrite cleared_is_empty by done. apply (left_id_L ∅ (∪)). }
  split; [done|]. split; [|split; [|split]].
  - unfold p1. simpl. by rewrite decide_True.
  - simpl. rewrite decide_True.
    + simpl. apply cleared_is_empty. by rewrite H1.
    + unfold p1. simpl. rewrite decide_True by done. simpl. lia.
  - simpl. by rewrite decide_True.
  - simpl. by rewrite decide_True.
Qed.

Lemma polling_lasts_until_next_attempt_witness :
  let p1 := step TimedOut start in
  intervals p1 = {[ 1%nat ]}
  /\ intervals (step Resubscribe p1) = ∅
  /\ timeouts (step Subscribed start) = ∅.
Proof.
  intros p1.
  destruct (polling_lasts_until_next_attempt []) as (H1 & _ & H3 & _ & H5);
    [simpl; lia|].
  split; [exact H1|]. split; [exact H3|exact H5].
Defined.

End PacerFacts.

(** * The earlier revision *)

Section EarlierFacts.
Import Earlier.

Lemma limits_from (l : list Enqueued) (z : Z) :
  fold_left (fun xg_sum q => xg_sum + xg_limit q) l z
  = z + foldr Z.add 0 (map xg_limit l).
Proof.
  revert z. induction l as [|q l IH]; intros z; simpl; [lia|]. rewrite IH. lia.
Qed.

(** What a finished loop has done: it called the signer between one and
    three times, every time with all the payloads of the dequeued list in
    their order and the sum of all its limits. *)
Lemma earlier_retry_frame (gw : Gateway) (fuel i_retry : nat)
    (z_auth : option SlimAuthInfo) (a_dequeued : list Enqueued)
    (calls calls' : list SignCall) (x : LoopExit) :
  retry_transaction gw fuel i_retry z_auth a_dequeued calls = Some (x, calls') ->
  exists added, calls' = calls ++ added
    /\ (1 <= length added)%nat
    /\ ((i_retry <= 2)%nat -> (length added + i_retry <= 3)%nat)
    /\ Forall (fun c => sc_msgs c = map atu8_msg a_dequeued
                        /\ sc_limit c = foldr Z.add 0 (map xg_limit a_dequeued)) added.
Proof.
  revert i_retry z_auth calls.
  induction fuel as [|fuel IH]; intros i_retry z_auth calls H; [discriminate|].
  simpl in H.
  assert (Hone : forall y, Some (y, calls ++ [sign_call z_auth a_dequeued]) = Some (x, calls') ->
    exists added, calls' = calls ++ added
      /\ (1 <= length added)%nat
      /\ ((i_retry <= 2)%nat -> (length added + i_retry <= 3)%nat)
      /\ Forall (fun c => sc_msgs c = map atu8_msg a_dequeued
                          /\ sc_limit c = foldr Z.add 0 (map xg_limit a_dequeued)) added).
  { intros y [= _ <-]. eexists; split; [reflexivity|]. simpl.
    split; [lia|]. split; [lia|]. apply List.Forall_cons; [|apply List.Forall_nil].
    split; [done|]. simpl. by rewrite limits_from. }
  destruct (create_and_sign_tx_direct gw i_retry _) as [tx|e]; [|by eapply Hone].
  destruct (broadcast_result gw i_retry tx) as [r|e]; [|by eapply Hone].
  destruct (mismatched_sequence i_retry r) as [sequence|] eqn:E; [|by eapply Hone].
  destruct (auth gw i_retry) as [a|e]; [|by eapply Hone].
  apply mismatched_sequence_retryable in E as [_ (m & _ & _ & _ & _ & Hlt)].
  apply IH in H as (added & -> & H1 & H2 & H3).
  exists (sign_call z_auth a_dequeued :: added). rewrite <- app_assoc. simpl.
  split; [done|]. split; [lia|]. split; [lia|].
  apply List.Forall_cons; [|done]. split; [done|]. simpl. by rewrite limits_from.
Qed.

Lemma earlier_retry_total (gw : Gateway) (fuel i_retry : nat)
    (z_auth : option SlimAuthInfo) (a_dequeued : list Enqueued)
    (calls : list SignCall) :
  (3 <= fuel + i_retry)%nat -> (1 <= fuel)%nat ->
  is_Some (retry_transaction gw fuel i_retry z_auth a_dequeued calls).
Proof.
  revert i_retry z_auth calls.
  induction fuel as [|fuel IH]; intros i_retry z_auth calls Hfuel Hpos; [lia|].
  simpl.
  destruct (create_and_sign_tx_direct gw i_retry _) as [tx|e]; [|by eexists].
  destruct (broadcast_result gw i_retry tx) as [r|e]; [|by eexists].
  destruct (mismatched_sequence i_retry r) as [sequence|] eqn:E; [|by eexists].
  destruct (auth gw i_retry) as [a|e]; [|by eexists].
  apply mismatched_sequence_retryable in E as [_ (m & _ & _ & _ & _ & Hlt)].
  apply IH; lia.
Qed.

Lemma on_new_block_submit (fuel : nat) (gw : Gateway) (s : Server) :
  ~ c_clearing s > 0 -> a_enqueued s <> [] ->
  on_new_block fuel gw s =
    match retry_transaction gw fuel 0 None (a_enqueued s) (a_signed s) with
    | None => None
    | Some (Caught e_process, calls) =>
        Some {| a_enqueued := [];
                c_clearing := c_clearing s;
                c_deferred := c_deferred s;
                settled := settled s ++ settle_all (a_enqueued s) (Rejected e_process);
                a_signed := calls |}
    | Some (Broke a_results, calls) =>
        Some {| a_enqueued := [];
                c_clearing := 2;
                c_deferred := c_deferred s;
                settled := settled s ++ settle_all (a_enqueued s) (Resolved a_results);
                a_signed := calls |}
    end.
Proof.
  intros H E. unfold on_new_block. rewrite decide_False by done.
  by destruct (a_enqueued s).
Qed.

(** X22.  In the earlier revision a block that finds the cooldown over and the
    queue not empty empties the queue and settles every request that was in
    it, each once and all with the same settlement, in the order of the
    queue; it has then called the signer one to three times, each time with
    every queued payload in order and the sum of all the limits.  Two quiet
    blocks are asked for when the settlement is an outcome of the chain, none
    when it is an error. *)
Theorem earlier_block_settles_whole_queue (gw : Gateway) (s : Server) :
  ~ c_clearing s > 0 -> a_enqueued s <> [] ->
  exists (w : Settlement) (calls : list SignCall) (s' : Server),
    on_new_block RETRY_ROUNDS gw s = Some s'
    /\ a_enqueued s' = []
    /\ settled s' = settled s ++ map (fun q => (fke_granted q, w)) (a_enqueued s)
    /\ c_clearing s' = match w with Resolved _ => 2 | Rejected _ => c_clearing s end
    /\ a_signed s' = a_signed s ++ calls
    /\ (1 <= length calls <= 3)%nat
    /\ Forall (fun c => sc_msgs c = map atu8_msg (a_enqueued s)
                        /\ sc_limit c = foldr Z.add 0 (map xg_limit (a_enqueued s))) calls.
Proof.
  intros H E. rewrite on_new_block_submit by done.
  destruct (earlier_retry_total gw RETRY_ROUNDS 0 None (a_enqueued s) (a_signed s))
    as [[x calls'] Hloop]; [unfold RETRY_ROUNDS; lia..|].
  rewrite Hloop.
  destruct (earlier_retry_frame _ _ _ _ _ _ _ _ Hloop) as (added & -> & H1 & H2 & H3).
  assert (Hn : (1 <= length added <= 3)%nat) by lia.
  destruct x as [r|e].
  - exists (Resolved r), added. eexists. split; [reflexivity|]. by simpl.
  - exists (Rejected e), added. eexists. split; [reflexivity|]. by simpl.
Qed.

Lemma earlier_block_settles_whole_queue_witness :
  let s := (enqueue (Scenario.payload "p2") 15000
             (enqueue (Scenario.payload "p1") 15000 server_start).2).2 in
  exists (w : Settlement) (calls : list SignCall) (s' : Server),
    on_new_block RETRY_ROUNDS Scenario.gw_ok s = Some s'
    /\ a_enqueued s' = []
    /\ settled s' = [(0%nat, w); (1%nat, w)]
    /\ a_signed s' = calls
    /\ Forall (fun c => sc_limit c = 30000) calls.
Proof.
  intros s.
  assert (H : ~ c_clearing s > 0) by (simpl; lia).
  assert (E : a_enqueued s <> []) by done.
  destruct (earlier_block_settles_whole_queue Scenario.gw_ok s H E)
    as (w & calls & s' & H1 & H2 & H3 & _ & H5 & _ & H7).
  exists w, calls, s'. split; [exact H1|]. split; [exact H2|].
  split; [exact H3|]. split; [exact H5|].
  eapply List.Forall_impl; [|exact H7]. intros c [_ Hc]. exact Hc.
Defined.

Lemma earlier_step_quiet (ev : Event) (w : World) :
  flying w = [] ->
  (blocks [ev] <= Z.to_nat (c_clearing (server w)))%nat ->
  flying (step ev w) = []
  /\ settled (server (step ev w)) = settled (server w)
  /\ a_signed (server (step ev w)) = a_signed (server w)
  /\ c_clearing (server (step ev w)) = c_clearing (server w) - Z.of_nat (blocks [ev])
  /\ exists added, a_enqueued (server (step ev w)) = a_enqueued (server w) ++ added.
Proof.
  intros Hfly Hb. destruct ev as [msg limit| |k a]; simpl.
  - split; [done|]. split; [done|]. split; [done|].
    split; [unfold blocks; simpl; lia|]. by eexists.
  - unfold blocks in Hb. simpl in Hb. unfold new_block.
    rewrite decide_True by lia. simpl.
    split; [done|]. split; [done|]. split; [done|].
    split; [unfold blocks; simpl; lia|]. exists []. by rewrite app_nil_r.
  - rewrite Hfly. simpl.
    split; [done|]. split; [done|]. split; [done|].
    split; [unfold blocks; simpl; lia|]. exists []. by rewrite app_nil_r.
Qed.

Lemma blocks_cons (ev : Event) (evs : list Event) :
  blocks (ev :: evs) = (blocks [ev] + blocks evs)%nat.
Proof. unfold blocks. simpl. by destruct (is_block ev). Qed.

(** X23.  In the earlier revision, when no callback is in flight and no
    more blocks arrive than the cooldown counter asks for (two after a
    submission), nothing is signed, nothing is settled and no callback gets
    in flight, whatever is enqueued in between: the queue only grows, and
    the counter goes down by the number of blocks. *)
Theorem earlier_cooldown_blocks_are_quiet (evs : list Event) (w : World) :
  flying w = [] ->
  (blocks evs <= Z.to_nat (c_clearing (server w)))%nat ->
  flying (run evs w) = []
  /\ settled (server (run evs w)) = settled (server w)
  /\ a_signed (server (run evs w)) = a_signed (server w)
  /\ c_clearing (server (run evs w)) = c_clearing (server w) - Z.of_nat (blocks evs)
  /\ exists added, a_enqueued (server (run evs w)) = a_enqueued (server w) ++ added.
Proof.
  revert w. induction evs as [|ev evs IH]; intros w Hfly Hb.
  { simpl. split; [done|]. split; [done|]. split; [done|].
    split; [unfold blocks; simpl; lia|]. exists []. by rewrite app_nil_r. }
  rewrite blocks_cons in Hb.
  destruct (earlier_step_quiet ev w Hfly) as (H0 & H1 & H2 & H3 & a1 & H4); [lia|].
  destruct (IH (step ev w) H0) as (H5 & H6 & H7 & H8 & a2 & H9); [rewrite H3; lia|].
  change (run (ev :: evs) w) with (run evs (step ev w)).
  rewrite (blocks_cons ev evs), H5, H6, H7, H8, H9, H1, H2, H3, H4.
  split; [done|]. split; [done|]. split; [done|]. split; [lia|].
  exists (a1 ++ a2). by rewrite app_assoc.
Qed.

Lemma earlier_cooldown_blocks_are_quiet_witness :
  let w := run [Calls_enqueue (Scenario.payload "p1") 15000;
                NewBlock;
                Settles 0 (Signed (Fulfilled Scenario.signed));
                Settles 0 (Broadcast (Fulfilled Scenario.SUCCESS))]
             {| server := server_start; flying := [] |} in
  let evs := [NewBlock; Calls_enqueue (Scenario.payload "p2") 15000; NewBlock] in
  c_clearing (server w) = 2
  /\ settled (server (run evs w)) = settled (server w)
  /\ a_signed (server (run evs w)) = a_signed (server w)
  /\ c_clearing (server (run evs w)) = 0.
Proof.
  intros w evs.
  destruct (earlier_cooldown_blocks_are_quiet evs w) as (_ & H1 & H2 & H3 & _).
  - reflexivity.
  - vm_compute. lia.
  - split; [reflexivity|]. split; [exact H1|]. split; [exact H2|exact H3].
Defined.

End EarlierFacts.
